(** * HOOMD-blue: constrained two-step integration (RATTLE) and its scheduler

    A shallow embedding of

    - [hoomd/md/IntegratorTwoStep.cc]       (the per-timestep scheduler),
    - [hoomd/md/TwoStepRATTLENVE.cc]        (microcanonical RATTLE method),
    - [hoomd/md/TwoStepRATTLELangevin.cc]   (Langevin RATTLE method),
    - [hoomd/md/TwoStepRATTLEBDGPU.cu]      (Brownian RATTLE kernels),
    - [hoomd/md/TPMSManifold.cc]            (triply periodic minimal surfaces).

    and of the temperature getters of [hoomd/md/ComputeThermo.h].

    [Scalar] is modelled by the real numbers: every arithmetic operation of
    the source is exact here, rounding of the floating-point unit is not
    modelled.  Arrays of the particle store are total maps from the particle
    index; unsigned counters are [nat] or [Z] with the wrap-around written
    out where the source can reach it. *)

From Stdlib Require Import Reals Lra Lia ZArith List Bool String.
From Equations Require Import Equations.
Import ListNotations.

Set Implicit Arguments.
Open Scope R_scope.

(* ===================================================================== *)
(** * Scalars and small vectors (HOOMDMath.h) *)
(* ===================================================================== *)

Abbreviation Scalar := R.

Record Scalar3 := make_scalar3 { x : Scalar; y : Scalar; z : Scalar }.
Record Scalar4 := make_scalar4 { x4 : Scalar; y4 : Scalar; z4 : Scalar; w4 : Scalar }.
Record int3 := make_int3 { ix : Z; iy : Z; iz : Z }.

Definition dot (a b : Scalar3) : Scalar := x a * x b + y a * y b + z a * z b.

(** [make_scalar3(v.x, v.y, v.z)] *)
Definition xyz (v : Scalar4) : Scalar3 := make_scalar3 (x4 v) (y4 v) (z4 v).

(** [a > b] as the source evaluates it in a condition. *)
Definition Rgtb (a b : R) : bool := if Rgt_dec a b then true else false.
Definition Rltb (a b : R) : bool := if Rlt_dec a b then true else false.

(** The convergence measure of the RATTLE loops, the same function in the
    NVE file, the Langevin file and the GPU file. *)
Definition maxNorm (vec : Scalar3) (resid : Scalar) : Scalar :=
  let vec_norm := sqrt (dot vec vec) in
  let abs_resid := Rabs resid in
  if Rgt_dec vec_norm abs_resid then vec_norm else abs_resid.

(* ===================================================================== *)
(** * Manifolds *)
(* ===================================================================== *)

(** The [Manifold] interface: the implicit function and its gradient. *)
Record Manifold := {
  implicit_function : Scalar3 -> Scalar;
  derivative : Scalar3 -> Scalar3
}.

Module TPMS.

Inductive surface := Gyroid | Diamond | Primitive.

Record t := { surf : surface; Lx : Scalar; Ly : Scalar; Lz : Scalar }.

(** [TPMSManifold::setup]: the wave numbers from the global box lengths. *)
Definition setup (s : surface) (Nx Ny Nz : nat) (box_length : Scalar3) : t :=
  let lx := PI * INR Nx / x box_length in
  let ly := PI * INR Ny / y box_length in
  let lz := PI * INR Nz / z box_length in
  match s with
  | Diamond => {| surf := s; Lx := lx; Ly := ly; Lz := lz |}
  | _ => {| surf := s; Lx := lx * 2; Ly := ly * 2; Lz := lz * 2 |}
  end.

Definition implicit_function (m : t) (point : Scalar3) : Scalar :=
  match surf m with
  | Gyroid =>
      sin (Lx m * x point) * cos (Ly m * y point)
      + sin (Ly m * y point) * cos (Lz m * z point)
      + sin (Lz m * z point) * cos (Lx m * x point)
  | Diamond =>
      cos (Lx m * x point) * cos (Ly m * y point) * cos (Lz m * z point)
      - sin (Lx m * x point) * sin (Ly m * y point) * sin (Lz m * z point)
  | Primitive =>
      cos (Lx m * x point) + cos (Ly m * y point) + cos (Lz m * z point)
  end.

Definition derivative (m : t) (point : Scalar3) : Scalar3 :=
  match surf m with
  | Gyroid =>
      make_scalar3
        (Lx m * (cos (Lx m * x point) * cos (Ly m * y point)
                 - sin (Lz m * z point) * sin (Lx m * x point)))
        (Ly m * (cos (Ly m * y point) * cos (Lz m * z point)
                 - sin (Lx m * x point) * sin (Ly m * y point)))
        (Lz m * (cos (Lz m * z point) * cos (Lx m * x point)
                 - sin (Ly m * y point) * sin (Lz m * z point)))
  | Diamond =>
      make_scalar3
        (- Lx m * (sin (Lx m * x point) * cos (Ly m * y point) * cos (Lz m * z point)
                   + cos (Lx m * x point) * sin (Ly m * y point) * sin (Lz m * z point)))
        (- Ly m * (cos (Lx m * x point) * sin (Ly m * y point) * cos (Lz m * z point)
                   + sin (Lx m * x point) * cos (Ly m * y point) * sin (Lz m * z point)))
        (- Lz m * (cos (Lx m * x point) * cos (Ly m * y point) * sin (Lz m * z point)
                   + sin (Lx m * x point) * sin (Ly m * y point) * cos (Lz m * z point)))
  | Primitive =>
      make_scalar3 (- Lx m * sin (Lx m * x point))
                   (- Ly m * sin (Ly m * y point))
                   (- Lz m * sin (Lz m * z point))
  end.

Definition manifold (m : t) : Manifold :=
  Build_Manifold (implicit_function m) (derivative m).

End TPMS.

(* ===================================================================== *)
(** * The bounded do-while of the RATTLE solvers *)
(* ===================================================================== *)

Definition inspect {A} (a : A) : { b : A | a = b } := exist _ a eq_refl.

Section DoWhile.

Context {St : Type}.
Variable body : St -> St.
Variable test : St -> bool.
Variable maxiteration : nat.

(** [do { iteration++; body } while (test && iteration < maxiteration)]:
    the counter is a loop variable, the remaining budget
    [maxiteration - iteration] decreases at every turn.  The result is the
    counter and the state at exit. *)
Equations? do_while (iteration : nat) (s : St) : nat * St
  by wf (maxiteration - iteration)%nat lt :=
do_while iteration s with inspect (test (body s) && (S iteration <? maxiteration)%nat) := {
  | exist _ true _ => do_while (S iteration) (body s)
  | exist _ false _ => (S iteration, body s) }.
Proof.
  apply andb_prop in e. destruct e as [_ e].
  apply Nat.ltb_lt in e. lia.
Qed.

End DoWhile.

(* ===================================================================== *)
(** * The particle store and particle groups *)
(* ===================================================================== *)

(** The arrays of [ParticleData] that the integration methods borrow, each
    a map from the particle index.  [h_pos] carries the type in [w4],
    [h_vel] the mass in [w4].  The net virial is the flat array of six rows,
    row [k] of particle [j] at [k * pitch + j]. *)
Record ParticleData := {
  h_pos : nat -> Scalar4;
  h_vel : nat -> Scalar4;
  h_accel : nat -> Scalar3;
  h_image : nat -> int3;
  h_orientation : nat -> Scalar4;
  h_angmom : nat -> Scalar4;
  h_net_force : nat -> Scalar4;
  h_net_virial : nat -> Scalar;
  h_net_torque : nat -> Scalar4;
  h_inertia : nat -> Scalar3;
  h_diameter : nat -> Scalar;
  h_tag : nat -> nat
}.

(** [data[j] = v] *)
Definition upd {T : Type} (data : nat -> T) (j : nat) (v : T) : nat -> T :=
  fun i => if Nat.eqb i j then v else data i.

Definition set_pos (pd : ParticleData) (a : nat -> Scalar4) : ParticleData :=
  {| h_pos := a; h_vel := h_vel pd; h_accel := h_accel pd; h_image := h_image pd;
     h_orientation := h_orientation pd; h_angmom := h_angmom pd;
     h_net_force := h_net_force pd; h_net_virial := h_net_virial pd;
     h_net_torque := h_net_torque pd; h_inertia := h_inertia pd;
     h_diameter := h_diameter pd; h_tag := h_tag pd |}.

Definition set_vel (pd : ParticleData) (a : nat -> Scalar4) : ParticleData :=
  {| h_pos := h_pos pd; h_vel := a; h_accel := h_accel pd; h_image := h_image pd;
     h_orientation := h_orientation pd; h_angmom := h_angmom pd;
     h_net_force := h_net_force pd; h_net_virial := h_net_virial pd;
     h_net_torque := h_net_torque pd; h_inertia := h_inertia pd;
     h_diameter := h_diameter pd; h_tag := h_tag pd |}.

Definition set_accel (pd : ParticleData) (a : nat -> Scalar3) : ParticleData :=
  {| h_pos := h_pos pd; h_vel := h_vel pd; h_accel := a; h_image := h_image pd;
     h_orientation := h_orientation pd; h_angmom := h_angmom pd;
     h_net_force := h_net_force pd; h_net_virial := h_net_virial pd;
     h_net_torque := h_net_torque pd; h_inertia := h_inertia pd;
     h_diameter := h_diameter pd; h_tag := h_tag pd |}.

Definition set_image (pd : ParticleData) (a : nat -> int3) : ParticleData :=
  {| h_pos := h_pos pd; h_vel := h_vel pd; h_accel := h_accel pd; h_image := a;
     h_orientation := h_orientation pd; h_angmom := h_angmom pd;
     h_net_force := h_net_force pd; h_net_virial := h_net_virial pd;
     h_net_torque := h_net_torque pd; h_inertia := h_inertia pd;
     h_diameter := h_diameter pd; h_tag := h_tag pd |}.

Definition set_orientation (pd : ParticleData) (a : nat -> Scalar4) : ParticleData :=
  {| h_pos := h_pos pd; h_vel := h_vel pd; h_accel := h_accel pd; h_image := h_image pd;
     h_orientation := a; h_angmom := h_angmom pd;
     h_net_force := h_net_force pd; h_net_virial := h_net_virial pd;
     h_net_torque := h_net_torque pd; h_inertia := h_inertia pd;
     h_diameter := h_diameter pd; h_tag := h_tag pd |}.

Definition set_angmom (pd : ParticleData) (a : nat -> Scalar4) : ParticleData :=
  {| h_pos := h_pos pd; h_vel := h_vel pd; h_accel := h_accel pd; h_image := h_image pd;
     h_orientation := h_orientation pd; h_angmom := a;
     h_net_force := h_net_force pd; h_net_virial := h_net_virial pd;
     h_net_torque := h_net_torque pd; h_inertia := h_inertia pd;
     h_diameter := h_diameter pd; h_tag := h_tag pd |}.

Definition set_net_force (pd : ParticleData) (a : nat -> Scalar4) : ParticleData :=
  {| h_pos := h_pos pd; h_vel := h_vel pd; h_accel := h_accel pd; h_image := h_image pd;
     h_orientation := h_orientation pd; h_angmom := h_angmom pd;
     h_net_force := a; h_net_virial := h_net_virial pd;
     h_net_torque := h_net_torque pd; h_inertia := h_inertia pd;
     h_diameter := h_diameter pd; h_tag := h_tag pd |}.

Definition set_net_virial (pd : ParticleData) (a : nat -> Scalar) : ParticleData :=
  {| h_pos := h_pos pd; h_vel := h_vel pd; h_accel := h_accel pd; h_image := h_image pd;
     h_orientation := h_orientation pd; h_angmom := h_angmom pd;
     h_net_force := h_net_force pd; h_net_virial := a;
     h_net_torque := h_net_torque pd; h_inertia := h_inertia pd;
     h_diameter := h_diameter pd; h_tag := h_tag pd |}.

Definition set_net_torque (pd : ParticleData) (a : nat -> Scalar4) : ParticleData :=
  {| h_pos := h_pos pd; h_vel := h_vel pd; h_accel := h_accel pd; h_image := h_image pd;
     h_orientation := h_orientation pd; h_angmom := h_angmom pd;
     h_net_force := h_net_force pd; h_net_virial := h_net_virial pd;
     h_net_torque := a; h_inertia := h_inertia pd;
     h_diameter := h_diameter pd; h_tag := h_tag pd |}.

(** Modelled from the spec: [ParticleGroup] (hoomd/ParticleGroup.h is not
    among the sources) is the set of particle indices of the group, without
    duplicates; the order of the list is the order of iteration.  On one
    process the global number of members is the number of members. *)
Record ParticleGroup := { members : list nat }.

Definition getNumMembers (g : ParticleGroup) : nat := List.length (members g).
Definition getNumMembersGlobal (g : ParticleGroup) : nat := List.length (members g).
Definition getMemberIndex (g : ParticleGroup) (group_idx : nat) : nat :=
  nth group_idx (members g) 0%nat.

(** Modelled from the spec: [ParticleGroup::groupIntersection], the members
    of the first group that are also members of the second. *)
Definition groupIntersection (a b : ParticleGroup) : ParticleGroup :=
  {| members := filter (fun i => existsb (Nat.eqb i) (members b)) (members a) |}.

(** [for (group_idx = 0; group_idx < group_size; group_idx++)
      { j = m_group->getMemberIndex(group_idx); ... }] *)
Definition for_each_member (g : ParticleGroup)
  (step : ParticleData -> nat -> ParticleData) (pd : ParticleData) : ParticleData :=
  fold_left step (members g) pd.

(** The entries of the store that belong to one particle. *)
Record Particle := {
  p_pos : Scalar4;
  p_vel : Scalar4;
  p_accel : Scalar3;
  p_image : int3;
  p_orientation : Scalar4;
  p_angmom : Scalar4;
  p_net_force : Scalar4;
  p_virial : list Scalar;
  p_net_torque : Scalar4;
  p_inertia : Scalar3;
  p_diameter : Scalar;
  p_tag : nat
}.

Definition particle (pitch : nat) (pd : ParticleData) (j : nat) : Particle :=
  {| p_pos := h_pos pd j;
     p_vel := h_vel pd j;
     p_accel := h_accel pd j;
     p_image := h_image pd j;
     p_orientation := h_orientation pd j;
     p_angmom := h_angmom pd j;
     p_net_force := h_net_force pd j;
     p_virial := map (fun k => h_net_virial pd (k * pitch + j)%nat) (seq 0 6);
     p_net_torque := h_net_torque pd j;
     p_inertia := h_inertia pd j;
     p_diameter := h_diameter pd j;
     p_tag := h_tag pd j |}.

(* ===================================================================== *)
(** * The RATTLE fixed-point loops *)
(* ===================================================================== *)

(** [unsigned int maxiteration = 10;] in every solver. *)
Definition maxiteration : nat := 10.

(** ** Position stage

    The loop of [TwoStepRATTLENVE::integrateStepOne] and, with the same
    text, of [TwoStepRATTLELangevin::IncludeRATTLEForce]. *)
Module PositionStage.

(** The variables the loop assigns.  [residual], [resid] and [half_vel] are
    declared without a value before the loop and written by its first turn
    before they are read; they start at zero here. *)
Record state := {
  next_pos : Scalar3;
  lambda : Scalar;
  residual : Scalar3;
  resid : Scalar;
  half_vel : Scalar3
}.

Section Solve.

Variable manifold : Manifold.
Variables (pos vel : Scalar4) (accel : Scalar3).
Variables (m_deltaT m_eta : Scalar).

Definition normal : Scalar3 :=
  derivative manifold (make_scalar3 (x4 pos) (y4 pos) (z4 pos)).
Definition inv_mass : Scalar := 1 / w4 vel.
Definition deltaT_half : Scalar := (1 / 2) * m_deltaT.
Definition inv_alpha : Scalar := 1 / (- deltaT_half * m_deltaT * inv_mass).

Definition init : state :=
  {| next_pos := make_scalar3 (x4 pos) (y4 pos) (z4 pos);
     lambda := 0;
     residual := make_scalar3 0 0 0;
     resid := 0;
     half_vel := make_scalar3 0 0 0 |}.

Definition body (st : state) : state :=
  let half_vel' :=
    make_scalar3
      (x4 vel + deltaT_half * (x accel - inv_mass * lambda st * x normal))
      (y4 vel + deltaT_half * (y accel - inv_mass * lambda st * y normal))
      (z4 vel + deltaT_half * (z accel - inv_mass * lambda st * z normal)) in
  let residual' :=
    make_scalar3
      (x4 pos - x (next_pos st) + m_deltaT * x half_vel')
      (y4 pos - y (next_pos st) + m_deltaT * y half_vel')
      (z4 pos - z (next_pos st) + m_deltaT * z half_vel') in
  let resid' := implicit_function manifold (next_pos st) in
  let next_normal := derivative manifold (next_pos st) in
  let nndotr := dot next_normal residual' in
  let nndotn := dot next_normal normal in
  let beta := (resid' + nndotr) / nndotn in
  {| next_pos :=
       make_scalar3
         (x (next_pos st) - beta * x normal + x residual')
         (y (next_pos st) - beta * y normal + y residual')
         (z (next_pos st) - beta * z normal + z residual');
     lambda := lambda st - beta * inv_alpha;
     residual := residual';
     resid := resid';
     half_vel := half_vel' |}.

(** [maxNorm(residual,resid) > m_eta], the first operand of the loop
    condition. *)
Definition test (st : state) : bool :=
  Rgtb (maxNorm (residual st) (resid st)) m_eta.

Definition solve : nat * state := do_while body test maxiteration 0 init.

End Solve.

End PositionStage.

(** ** Velocity stage

    The loop of [TwoStepRATTLENVE::integrateStepTwo] and, with the same
    text, of [TwoStepRATTLELangevin::integrateStepTwo]. *)
Module VelocityStage.

Record state := {
  next_vel : Scalar3;
  mu : Scalar;
  residual : Scalar3;
  resid : Scalar;
  vel_dot : Scalar3
}.

Section Solve.

Variable normal : Scalar3.
Variables (vel : Scalar4) (accel : Scalar3).
Variables (m_deltaT m_eta : Scalar).

Definition mass : Scalar := w4 vel.
Definition inv_mass : Scalar := 1 / mass.
Definition inv_alpha : Scalar := 1 / (- (1 / 2) * m_deltaT).

Definition init : state :=
  {| next_vel :=
       make_scalar3 (x4 vel + (1 / 2) * m_deltaT * x accel)
                    (y4 vel + (1 / 2) * m_deltaT * y accel)
                    (z4 vel + (1 / 2) * m_deltaT * z accel);
     mu := 0;
     residual := make_scalar3 0 0 0;
     resid := 0;
     vel_dot := make_scalar3 0 0 0 |}.

Definition body (st : state) : state :=
  let vel_dot' :=
    make_scalar3 (x accel - mu st * inv_mass * x normal)
                 (y accel - mu st * inv_mass * y normal)
                 (z accel - mu st * inv_mass * z normal) in
  let residual' :=
    make_scalar3
      (x4 vel - x (next_vel st) + (1 / 2) * m_deltaT * x vel_dot')
      (y4 vel - y (next_vel st) + (1 / 2) * m_deltaT * y vel_dot')
      (z4 vel - z (next_vel st) + (1 / 2) * m_deltaT * z vel_dot') in
  let resid' := dot normal (next_vel st) * inv_mass in
  let ndotr := dot normal residual' in
  let ndotn := dot normal normal in
  let beta := (mass * resid' + ndotr) / ndotn in
  {| next_vel :=
       make_scalar3
         (x (next_vel st) - x normal * beta + x residual')
         (y (next_vel st) - y normal * beta + y residual')
         (z (next_vel st) - z normal * beta + z residual');
     mu := mu st - mass * beta * inv_alpha;
     residual := residual';
     resid := resid';
     vel_dot := vel_dot' |}.

(** [maxNorm(residual,resid)*mass > m_eta] *)
Definition test (st : state) : bool :=
  Rgtb (maxNorm (residual st) (resid st) * mass) m_eta.

Definition solve : nat * state := do_while body test maxiteration 0 init.

(** The velocity written back after the loop:
    [h_vel += (1/2) * deltaT * (accel - mu * inv_mass * normal)]. *)
Definition update_velocity (mu_final : Scalar) : Scalar4 :=
  make_scalar4
    (x4 vel + (1 / 2) * m_deltaT * (x accel - mu_final * inv_mass * x normal))
    (y4 vel + (1 / 2) * m_deltaT * (y accel - mu_final * inv_mass * y normal))
    (z4 vel + (1 / 2) * m_deltaT * (z accel - mu_final * inv_mass * z normal))
    (w4 vel).

End Solve.

End VelocityStage.

(* ===================================================================== *)
(** * TwoStepRATTLENVE *)
(* ===================================================================== *)

Module RATTLENVE.

Record t := {
  m_group : ParticleGroup;
  m_manifold : Manifold;
  m_deltaT : Scalar;
  m_limit : bool;
  m_limit_val : Scalar;
  m_eta : Scalar;
  m_zero_force : bool;
  m_aniso : bool
}.


Definition removeLimit (m : t) : t :=
  {| m_group := m_group m; m_manifold := m_manifold m; m_deltaT := m_deltaT m;
     m_limit := false; m_limit_val := m_limit_val m;
     m_eta := m_eta m; m_zero_force := m_zero_force m; m_aniso := m_aniso m |}.

(** The displacement after the limit of step one:
    [if (m_limit) { len = sqrt(dx*dx+dy*dy+dz*dz); if (len > m_limit_val) ... }] *)
Definition limit_displacement (m : t) (d : Scalar3) : Scalar3 :=
  if m_limit m then
    let len := sqrt (x d * x d + y d * y d + z d * z d) in
    if Rgt_dec len (m_limit_val m) then
      make_scalar3 (x d / len * m_limit_val m)
                   (y d / len * m_limit_val m)
                   (z d / len * m_limit_val m)
    else d
  else d.

(** The body of the first loop of [integrateStepOne] for the particle at
    index [j]. *)
Definition stepOne_particle (m : t) (pd : ParticleData) (j : nat) : ParticleData :=
  let pd :=
    if m_zero_force m
    then set_accel pd (upd (h_accel pd) j (make_scalar3 0 0 0))
    else pd in
  let st :=
    snd (PositionStage.solve (m_manifold m) (h_pos pd j) (h_vel pd j)
                             (h_accel pd j) (m_deltaT m) (m_eta m)) in
  let half_vel := PositionStage.half_vel st in
  let pd :=
    set_vel pd (upd (h_vel pd) j
      (make_scalar4 (x half_vel) (y half_vel) (z half_vel) (w4 (h_vel pd j)))) in
  let d :=
    limit_displacement m
      (make_scalar3 (m_deltaT m * x half_vel)
                    (m_deltaT m * y half_vel)
                    (m_deltaT m * z half_vel)) in
  set_pos pd (upd (h_pos pd) j
    (make_scalar4 (x4 (h_pos pd j) + x d) (y4 (h_pos pd j) + y d)
                  (z4 (h_pos pd j) + z d) (w4 (h_pos pd j)))).

(** The velocity after the limit of step two. *)
Definition limit_velocity (m : t) (v : Scalar4) : Scalar4 :=
  if m_limit m then
    let vel := sqrt (x4 v * x4 v + y4 v * y4 v + z4 v * z4 v) in
    if Rgt_dec (vel * m_deltaT m) (m_limit_val m) then
      make_scalar4 (x4 v / vel * m_limit_val m / m_deltaT m)
                   (y4 v / vel * m_limit_val m / m_deltaT m)
                   (z4 v / vel * m_limit_val m / m_deltaT m)
                   (w4 v)
    else v
  else v.

(** The body of the first loop of [integrateStepTwo] for the particle at
    index [j]. *)
Definition stepTwo_particle (m : t) (pd : ParticleData) (j : nat) : ParticleData :=
  let mass := w4 (h_vel pd j) in
  let inv_mass := 1 / mass in
  let pd :=
    if m_zero_force m
    then set_accel pd (upd (h_accel pd) j (make_scalar3 0 0 0))
    else set_accel pd (upd (h_accel pd) j
           (make_scalar3 (x4 (h_net_force pd j) * inv_mass)
                         (y4 (h_net_force pd j) * inv_mass)
                         (z4 (h_net_force pd j) * inv_mass))) in
  let normal :=
    derivative (m_manifold m)
      (make_scalar3 (x4 (h_pos pd j)) (y4 (h_pos pd j)) (z4 (h_pos pd j))) in
  let st :=
    snd (VelocityStage.solve normal (h_vel pd j) (h_accel pd j)
                             (m_deltaT m) (m_eta m)) in
  let v :=
    VelocityStage.update_velocity normal (h_vel pd j) (h_accel pd j)
      (m_deltaT m) (VelocityStage.mu st) in
  set_vel pd (upd (h_vel pd) j (limit_velocity m v)).

Section Steps.

(** [BoxDim::wrap] for the box of the run (hoomd/BoxDim.h is not among the
    sources). *)
Variable wrap : Scalar4 -> int3 -> Scalar4 * int3.

(** The rotational half steps of the two functions for one particle: they
    advance [h_orientation] and [h_angmom] with the quaternion algebra of
    hoomd/VectorMath.h, which is not among the sources. *)
Variable angular_step_one : Scalar -> ParticleData -> nat -> ParticleData.
Variable angular_step_two : Scalar -> ParticleData -> nat -> ParticleData.

Definition wrap_particle (pd : ParticleData) (j : nat) : ParticleData :=
  let r := wrap (h_pos pd j) (h_image pd j) in
  set_image (set_pos pd (upd (h_pos pd) j (fst r))) (upd (h_image pd) j (snd r)).

Definition integrateStepOne (m : t) (timestep : Z) (pd : ParticleData) : ParticleData :=
  let pd := for_each_member (m_group m) (stepOne_particle m) pd in
  let pd := for_each_member (m_group m) wrap_particle pd in
  if m_aniso m
  then for_each_member (m_group m) (angular_step_one (m_deltaT m)) pd
  else pd.

Definition integrateStepTwo (m : t) (timestep : Z) (pd : ParticleData) : ParticleData :=
  let pd := for_each_member (m_group m) (stepTwo_particle m) pd in
  if m_aniso m
  then for_each_member (m_group m) (angular_step_two (m_deltaT m)) pd
  else pd.

End Steps.

End RATTLENVE.

(* ===================================================================== *)
(** * Random numbers (hoomd/RandomNumbers.h, hoomd/RNGIdentifiers.h) *)
(* ===================================================================== *)

(** The identifiers the integration methods pass as the first seed. *)
Inductive RNGIdentifier := TwoStepLangevin | TwoStepBD.

(** A counter-based generator: what the constructor
    [RandomGenerator(id, seed, a, b)] receives, and the number of values
    already drawn from it. *)
Record RandomGenerator := {
  rng_id : RNGIdentifier;
  rng_seed : Z;
  rng_a : Z;
  rng_b : Z;
  rng_drawn : nat
}.

Definition RandomGenerator_init (id : RNGIdentifier) (seed a b : Z) : RandomGenerator :=
  {| rng_id := id; rng_seed := seed; rng_a := a; rng_b := b; rng_drawn := 0 |}.

(** The stream of a generator: the four arguments its constructor received. *)
Definition rng_stream (g : RandomGenerator) : RNGIdentifier * Z * Z * Z :=
  (rng_id g, rng_seed g, rng_a g, rng_b g).

(** Two uniform (two normal) distributions that draw the same values from
    every generator of the stream [key], where a draw leaves the generator
    in its stream.  Outside the stream they may differ in any way. *)
Definition uniform_agree_on (key : RNGIdentifier * Z * Z * Z)
  (U1 U2 : Scalar -> Scalar -> RandomGenerator -> Scalar * RandomGenerator) : Prop :=
  forall a b g, rng_stream g = key ->
    U1 a b g = U2 a b g /\ rng_stream (snd (U1 a b g)) = key.

Definition normal_agree_on (key : RNGIdentifier * Z * Z * Z)
  (N1 N2 : Scalar -> RandomGenerator -> Scalar * RandomGenerator) : Prop :=
  forall sigma g, rng_stream g = key ->
    N1 sigma g = N2 sigma g /\ rng_stream (snd (N1 sigma g)) = key.

(* ===================================================================== *)
(** * TwoStepRATTLELangevin *)
(* ===================================================================== *)

Module RATTLELangevin.

Record t := {
  m_group : ParticleGroup;
  m_manifold : Manifold;
  m_T : Z -> Scalar;
  m_seed : Z;
  m_use_lambda : bool;
  m_lambda : Scalar;
  m_gamma : nat -> Scalar;
  m_gamma_r : nat -> Scalar3;
  m_deltaT : Scalar;
  m_reservoir_energy : Scalar;
  m_extra_energy_overdeltaT : Scalar;
  m_tally : bool;
  m_noiseless_t : bool;
  m_noiseless_r : bool;
  m_eta : Scalar;
  m_aniso : bool
}.

Definition set_reservoir (m : t) (reservoir extra : Scalar) : t :=
  {| m_group := m_group m; m_manifold := m_manifold m; m_T := m_T m;
     m_seed := m_seed m; m_use_lambda := m_use_lambda m; m_lambda := m_lambda m;
     m_gamma := m_gamma m; m_gamma_r := m_gamma_r m; m_deltaT := m_deltaT m;
     m_reservoir_energy := reservoir; m_extra_energy_overdeltaT := extra;
     m_tally := m_tally m; m_noiseless_t := m_noiseless_t m;
     m_noiseless_r := m_noiseless_r m; m_eta := m_eta m; m_aniso := m_aniso m |}.

(** The same method over another group. *)
Definition set_group (m : t) (group : ParticleGroup) : t :=
  {| m_group := group; m_manifold := m_manifold m; m_T := m_T m;
     m_seed := m_seed m; m_use_lambda := m_use_lambda m; m_lambda := m_lambda m;
     m_gamma := m_gamma m; m_gamma_r := m_gamma_r m; m_deltaT := m_deltaT m;
     m_reservoir_energy := m_reservoir_energy m;
     m_extra_energy_overdeltaT := m_extra_energy_overdeltaT m;
     m_tally := m_tally m; m_noiseless_t := m_noiseless_t m;
     m_noiseless_r := m_noiseless_r m; m_eta := m_eta m; m_aniso := m_aniso m |}.

Section Steps.

(** What the sources take from headers that are not among them: the two
    distributions of hoomd/RandomNumbers.h, each a function of the
    generator that returns the value and the advanced generator; the
    reinterpretation of the [w] component of a position as the type index;
    the threshold [EPSILON]; two quaternion operations of
    hoomd/VectorMath.h, [(Scalar(1./2.) * conj(q) * p).v] and [rotate];
    the final loop over the group that advances the angular momenta; the
    global sum of the reservoir tally. *)
Variable UniformDistribution : Scalar -> Scalar -> RandomGenerator -> Scalar * RandomGenerator.
Variable NormalDistribution : Scalar -> RandomGenerator -> Scalar * RandomGenerator.
Variable scalar_as_int : Scalar -> nat.
Variable EPSILON : Scalar.
Variable body_angular_velocity : Scalar4 -> Scalar4 -> Scalar3.
Variable rotate : Scalar4 -> Scalar3 -> Scalar3.
Variable angular_step_two : Scalar -> ParticleData -> nat -> ParticleData.
Variable allreduce_sum : Scalar -> Scalar.

(** [RandomGenerator rng(RNGIdentifier::TwoStepLangevin, m_seed, ptag, timestep)]
    with [ptag = h_tag.data[j]] *)
Definition particle_rng (m : t) (timestep : Z) (pd : ParticleData) (j : nat) : RandomGenerator :=
  let ptag := h_tag pd j in
  RandomGenerator_init TwoStepLangevin (m_seed m) (Z.of_nat ptag) timestep.

(** The friction coefficient of the particle at index [j]. *)
Definition particle_gamma (m : t) (pd : ParticleData) (j : nat) : Scalar :=
  if m_use_lambda m
  then m_lambda m * h_diameter pd j
  else
    let type := scalar_as_int (w4 (h_pos pd j)) in
    m_gamma m type.

Definition particle_normal (m : t) (pd : ParticleData) (j : nat) : Scalar3 :=
  derivative (m_manifold m)
    (make_scalar3 (x4 (h_pos pd j)) (y4 (h_pos pd j)) (z4 (h_pos pd j))).

(** The three uniform numbers as they leave the generator, before the
    projection. *)
Definition uniform_draws (rng : RandomGenerator) : Scalar3 * RandomGenerator :=
  let '(rx, rng) := UniformDistribution (-1) 1 rng in
  let '(ry, rng) := UniformDistribution (-1) 1 rng in
  let '(rz, rng) := UniformDistribution (-1) 1 rng in
  (make_scalar3 rx ry rz, rng).

(** The direction [(rx, ry, rz)] and the coefficient [coeff] of the random
    force, with the generator as the draws leave it. *)
Definition random_force (m : t) (currentTemp : Scalar) (pd : ParticleData) (j : nat)
  (rng : RandomGenerator) : Scalar3 * Scalar * RandomGenerator :=
  let gamma := particle_gamma m pd j in
  let normal := particle_normal m pd j in
  let ndotn := dot normal normal in
  if Rgt_dec currentTemp 0 then
    let '(r, rng) := uniform_draws rng in
    let coeff := sqrt (6 * gamma * currentTemp / m_deltaT m) in
    let coeff := if m_noiseless_t m then 0 else coeff in
    let proj_x := x normal / sqrt ndotn in
    let proj_y := y normal / sqrt ndotn in
    let proj_z := z normal / sqrt ndotn in
    let proj_r := x r * proj_x + y r * proj_y + z r * proj_z in
    (make_scalar3 (x r - proj_r * proj_x) (y r - proj_r * proj_y) (z r - proj_r * proj_z),
     coeff, rng)
  else (make_scalar3 0 0 0, 0, rng).

(** [bd_fx, bd_fy, bd_fz] *)
Definition bd_force (m : t) (timestep : Z) (pd : ParticleData) (j : nat) : Scalar3 :=
  let '(r, coeff, _) :=
    random_force m (m_T m timestep) pd j (particle_rng m timestep pd j) in
  let gamma := particle_gamma m pd j in
  make_scalar3 (x r * coeff - gamma * x4 (h_vel pd j))
               (y r * coeff - gamma * y4 (h_vel pd j))
               (z r * coeff - gamma * z4 (h_vel pd j)).

(** The random and damping torque of the rotational block of the first
    loop of [integrateStepTwo]. *)
Definition noise_torque (m : t) (currentTemp : Scalar) (pd : ParticleData) (j : nat)
  (rng : RandomGenerator) : ParticleData :=
  let type_r := scalar_as_int (w4 (h_pos pd j)) in
  let gamma_r := m_gamma_r m type_r in
  let p := h_angmom pd j in
  let q := h_orientation pd j in
  let I := h_inertia pd j in
  let s := body_angular_velocity q p in
  if Rgtb (x gamma_r) 0 || Rgtb (y gamma_r) 0 || Rgtb (z gamma_r) 0 then
    let sigma_r :=
      if m_noiseless_r m then make_scalar3 0 0 0
      else make_scalar3 (sqrt (2 * x gamma_r * currentTemp / m_deltaT m))
                        (sqrt (2 * y gamma_r * currentTemp / m_deltaT m))
                        (sqrt (2 * z gamma_r * currentTemp / m_deltaT m)) in
    let '(rand_x, rng) := NormalDistribution (x sigma_r) rng in
    let '(rand_y, rng) := NormalDistribution (y sigma_r) rng in
    let '(rand_z, rng) := NormalDistribution (z sigma_r) rng in
    let x_zero := Rltb (x I) EPSILON in
    let y_zero := Rltb (y I) EPSILON in
    let z_zero := Rltb (z I) EPSILON in
    let bf_torque :=
      make_scalar3
        (if x_zero then 0 else rand_x - x gamma_r * (x s / x I))
        (if y_zero then 0 else rand_y - y gamma_r * (y s / y I))
        (if z_zero then 0 else rand_z - z gamma_r * (z s / z I)) in
    let bf_torque := rotate q bf_torque in
    let t := h_net_torque pd j in
    set_net_torque pd (upd (h_net_torque pd) j
      (make_scalar4 (x4 t + x bf_torque) (y4 t + y bf_torque) (z4 t + z bf_torque) (w4 t)))
  else pd.

(** The body of the first loop of [integrateStepTwo] for the particle at
    index [j]; the second component is [bd_energy_transfer]. *)
Definition stepTwo_particle (m : t) (timestep : Z)
  (acc : ParticleData * Scalar) (j : nat) : ParticleData * Scalar :=
  let '(pd, bd_energy_transfer) := acc in
  let currentTemp := m_T m timestep in
  let rng := particle_rng m timestep pd j in
  let normal := particle_normal m pd j in
  let '(r, coeff, rng) := random_force m currentTemp pd j rng in
  let gamma := particle_gamma m pd j in
  let bd_fx := x r * coeff - gamma * x4 (h_vel pd j) in
  let bd_fy := y r * coeff - gamma * y4 (h_vel pd j) in
  let bd_fz := z r * coeff - gamma * z4 (h_vel pd j) in
  let mass := w4 (h_vel pd j) in
  let inv_mass := 1 / mass in
  let pd :=
    set_accel pd (upd (h_accel pd) j
      (make_scalar3 ((x4 (h_net_force pd j) + bd_fx) * inv_mass)
                    ((y4 (h_net_force pd j) + bd_fy) * inv_mass)
                    ((z4 (h_net_force pd j) + bd_fz) * inv_mass))) in
  let st :=
    snd (VelocityStage.solve normal (h_vel pd j) (h_accel pd j)
                             (m_deltaT m) (m_eta m)) in
  let v :=
    VelocityStage.update_velocity normal (h_vel pd j) (h_accel pd j)
      (m_deltaT m) (VelocityStage.mu st) in
  let pd := set_vel pd (upd (h_vel pd) j v) in
  let bd_energy_transfer :=
    if m_tally m
    then bd_energy_transfer
         + (bd_fx * x4 (h_vel pd j) + bd_fy * y4 (h_vel pd j) + bd_fz * z4 (h_vel pd j))
    else bd_energy_transfer in
  let pd := if m_aniso m then noise_torque m currentTemp pd j rng else pd in
  (pd, bd_energy_transfer).

Definition integrateStepTwo (have_comm : bool) (m : t) (timestep : Z) (pd : ParticleData)
  : t * ParticleData :=
  let '(pd, bd_energy_transfer) :=
    fold_left (stepTwo_particle m timestep) (members (m_group m)) (pd, 0) in
  let pd :=
    if m_aniso m
    then for_each_member (m_group m) (angular_step_two (m_deltaT m)) pd
    else pd in
  if m_tally m then
    let bd_energy_transfer :=
      if have_comm then allreduce_sum bd_energy_transfer else bd_energy_transfer in
    (set_reservoir m (m_reservoir_energy m - bd_energy_transfer * m_deltaT m)
                     (0.5 * bd_energy_transfer), pd)
  else (m, pd).

(** [h_net_virial.data[k*net_virial_pitch+j] -= d] *)
Definition virial_sub (pitch : nat) (virial : nat -> Scalar) (k j : nat) (d : Scalar)
  : nat -> Scalar :=
  upd virial (k * pitch + j) (virial (k * pitch + j)%nat - d).

(** The body of the loop of [IncludeRATTLEForce] for the particle at index
    [j]. *)
Definition IncludeRATTLEForce_particle (net_virial_pitch : nat) (m : t)
  (pd : ParticleData) (j : nat) : ParticleData :=
  let st :=
    snd (PositionStage.solve (m_manifold m) (h_pos pd j) (h_vel pd j)
                             (h_accel pd j) (m_deltaT m) (m_eta m)) in
  let lambda := PositionStage.lambda st in
  let normal := PositionStage.normal (m_manifold m) (h_pos pd j) in
  let inv_mass := 1 / w4 (h_vel pd j) in
  let f := h_net_force pd j in
  let pos := h_pos pd j in
  let pd :=
    set_net_force pd (upd (h_net_force pd) j
      (make_scalar4 (x4 f - lambda * x normal) (y4 f - lambda * y normal)
                    (z4 f - lambda * z normal) (w4 f))) in
  let v := h_net_virial pd in
  let v := virial_sub net_virial_pitch v 0 j (lambda * x normal * x4 pos) in
  let v := virial_sub net_virial_pitch v 1 j
             (0.5 * lambda * (y normal * x4 pos + x normal * y4 pos)) in
  let v := virial_sub net_virial_pitch v 2 j
             (0.5 * lambda * (z normal * x4 pos + x normal * z4 pos)) in
  let v := virial_sub net_virial_pitch v 3 j (lambda * y normal * y4 pos) in
  let v := virial_sub net_virial_pitch v 4 j
             (0.5 * lambda * (y normal * z4 pos + z normal * y4 pos)) in
  let v := virial_sub net_virial_pitch v 5 j (lambda * z normal * z4 pos) in
  let pd := set_net_virial pd v in
  let a := h_accel pd j in
  set_accel pd (upd (h_accel pd) j
    (make_scalar3 (x a - inv_mass * lambda * x normal)
                  (y a - inv_mass * lambda * y normal)
                  (z a - inv_mass * lambda * z normal))).

Definition IncludeRATTLEForce (net_virial_pitch : nat) (m : t) (timestep : Z)
  (pd : ParticleData) : ParticleData :=
  for_each_member (m_group m) (IncludeRATTLEForce_particle net_virial_pitch m) pd.

End Steps.

Section StepOne.

(** [BoxDim::wrap] for the box of the run and the rotational half step of
    [integrateStepOne] for one particle (hoomd/BoxDim.h and
    hoomd/VectorMath.h are not among the sources). *)
Variable wrap : Scalar4 -> int3 -> Scalar4 * int3.
Variable angular_step_one : Scalar -> ParticleData -> nat -> ParticleData.

(** The body of the first loop of [integrateStepOne] for the particle at
    index [j]: the velocity-Verlet half step without a constraint solve,
    then the wrap into the box. *)
Definition stepOne_particle (m : t) (pd : ParticleData) (j : nat) : ParticleData :=
  let deltaT_half := (1 / 2) * m_deltaT m in
  let half_vel :=
    make_scalar3 (x4 (h_vel pd j) + deltaT_half * x (h_accel pd j))
                 (y4 (h_vel pd j) + deltaT_half * y (h_accel pd j))
                 (z4 (h_vel pd j) + deltaT_half * z (h_accel pd j)) in
  let pd :=
    set_vel pd (upd (h_vel pd) j
      (make_scalar4 (x half_vel) (y half_vel) (z half_vel) (w4 (h_vel pd j)))) in
  let dx := m_deltaT m * x half_vel in
  let dy := m_deltaT m * y half_vel in
  let dz := m_deltaT m * z half_vel in
  let pd :=
    set_pos pd (upd (h_pos pd) j
      (make_scalar4 (x4 (h_pos pd j) + dx) (y4 (h_pos pd j) + dy)
                    (z4 (h_pos pd j) + dz) (w4 (h_pos pd j)))) in
  let r := wrap (h_pos pd j) (h_image pd j) in
  set_image (set_pos pd (upd (h_pos pd) j (fst r))) (upd (h_image pd) j (snd r)).

Definition integrateStepOne (m : t) (timestep : Z) (pd : ParticleData) : ParticleData :=
  let pd := for_each_member (m_group m) (stepOne_particle m) pd in
  if m_aniso m
  then for_each_member (m_group m) (angular_step_one (m_deltaT m)) pd
  else pd.

End StepOne.

(** The member [m_log_name], which the constructor sets from the suffix;
    the two log functions take it beside the method. *)
Definition log_name (suffix : string) : string :=
  ("langevin_reservoir_energy" ++ suffix)%string.

(** [TwoStepRATTLELangevin::getProvidedLogQuantities] *)
Definition getProvidedLogQuantities (m_log_name : string) (m : t) : list string :=
  if m_tally m then [m_log_name] else [].

(** [TwoStepRATTLELangevin::getLogValue]: the value returned and the flag
    [my_quantity_flag] after the call. *)
Definition getLogValue (m_log_name : string) (m : t) (quantity : string) (timestep : Z)
  (my_quantity_flag : bool) : Scalar * bool :=
  if m_tally m && String.eqb quantity m_log_name
  then (m_reservoir_energy m + m_extra_energy_overdeltaT m * m_deltaT m, true)
  else (0, my_quantity_flag).

End RATTLELangevin.

(* ===================================================================== *)
(** * TwoStepRATTLEBDGPU: the Brownian step-one kernel *)
(* ===================================================================== *)

Module RATTLEBDGPU.

(** The position of a thread in the launch grid. *)
Record thread := { blockIdx_x : nat; blockDim_x : nat; threadIdx_x : nat }.

(** [rattle_bd_step_one_args] *)
Record rattle_bd_step_one_args := {
  d_gamma : nat -> Scalar;
  n_types : nat;
  use_lambda : bool;
  lambda : Scalar;
  timestep : Z;
  seed : Z;
  T : Scalar
}.

(** [local_idx = blockIdx.x * blockDim.x + threadIdx.x;
     group_idx = local_idx + offset] *)
Definition local_idx (th : thread) : nat :=
  (blockIdx_x th * blockDim_x th + threadIdx_x th)%nat.
Definition group_idx (th : thread) (offset : nat) : nat := (local_idx th + offset)%nat.

(** [RandomGenerator rng(RNGIdentifier::TwoStepBD, seed, tag, timestep)]
    with [tag = d_groupTags[group_idx]] *)
Definition thread_rng (args : rattle_bd_step_one_args) (d_groupTags : nat -> nat)
  (offset : nat) (th : thread) : RandomGenerator :=
  let tag := d_groupTags (group_idx th offset) in
  RandomGenerator_init TwoStepBD (seed args) (Z.of_nat tag) (timestep args).

Section Kernel.

(** From headers that are not among the sources: the normal distribution,
    the type index stored in [w], [BoxDim::wrap], and the rotational block
    of the kernel, which draws from the same generator. *)
Variable NormalDistribution : Scalar -> RandomGenerator -> Scalar * RandomGenerator.
Variable scalar_as_int : Scalar -> nat.
Variable wrap : Scalar4 -> int3 -> Scalar4 * int3.
Variable rotational_block :
  rattle_bd_step_one_args -> Scalar -> nat -> nat -> RandomGenerator ->
  ParticleData -> ParticleData.

(** [vel.x = norm(rng); vel.y = norm(rng); vel.z = norm(rng)] with
    [sigma = sqrt(T/mass)] *)
Definition draw_velocity (T_ mass : Scalar) (rng : RandomGenerator)
  : Scalar3 * RandomGenerator :=
  let sigma := sqrt (T_ / mass) in
  let '(vx, rng) := NormalDistribution sigma rng in
  let '(vy, rng) := NormalDistribution sigma rng in
  let '(vz, rng) := NormalDistribution sigma rng in
  (make_scalar3 vx vy vz, rng).

(** One thread of [gpu_rattle_brownian_step_one_kernel].  The per-type
    friction coefficients are read from the copy of [d_gamma] in shared
    memory. *)
Definition gpu_rattle_brownian_step_one_kernel
  (args : rattle_bd_step_one_args) (d_rtag d_groupTags : nat -> nat) (nwork : nat)
  (d_f_brownian : nat -> Scalar3) (aniso : bool) (deltaT : Scalar) (D : nat)
  (offset : nat) (th : thread) (pd : ParticleData) : ParticleData :=
  if (local_idx th <? nwork)%nat then
    let tag := d_groupTags (group_idx th offset) in
    let idx := d_rtag tag in
    let postype := h_pos pd idx in
    let vel := h_vel pd idx in
    let net_force := h_net_force pd idx in
    let brownian_force := d_f_brownian tag in
    let image := h_image pd idx in
    let gamma :=
      if use_lambda args then lambda args * h_diameter pd idx
      else d_gamma args (scalar_as_int (w4 postype)) in
    let deltaT_gamma := deltaT / gamma in
    let rng := thread_rng args d_groupTags offset th in
    let dx := (x4 net_force + x brownian_force) * deltaT_gamma in
    let dy := (y4 net_force + y brownian_force) * deltaT_gamma in
    let dz := (z4 net_force + z brownian_force) * deltaT_gamma in
    let postype :=
      make_scalar4 (x4 postype + dx) (y4 postype + dy) (z4 postype + dz) (w4 postype) in
    let '(postype, image) := wrap postype image in
    let mass := w4 vel in
    let '(v, rng) := draw_velocity (T args) mass rng in
    let pd := set_pos pd (upd (h_pos pd) idx postype) in
    let pd := set_vel pd (upd (h_vel pd) idx (make_scalar4 (x v) (y v) (z v) (w4 vel))) in
    let pd := set_image pd (upd (h_image pd) idx image) in
    if aniso then rotational_block args deltaT D idx rng pd else pd
  else pd.

End Kernel.

Section Rotational.

(** From headers that are not among the sources: the normal distribution,
    the type index stored in [w], the threshold [EPSILON], and three
    quaternion operations of hoomd/VectorMath.h: [rotate];
    [q += Scalar(0.5) * deltaT * ((t + bf_torque) / vec3<Scalar>(gamma_r)) * q;
     q = q * (Scalar(1.0) / slow::sqrt(norm2(q)))] as a function of
    [deltaT], [t], [bf_torque], [gamma_r] and [q]; and
    [Scalar(2.0) * q * p_vec]. *)
Variable NormalDistribution : Scalar -> RandomGenerator -> Scalar * RandomGenerator.
Variable scalar_as_int : Scalar -> nat.
Variable EPSILON : Scalar.
Variable rotate : Scalar4 -> Scalar3 -> Scalar3.
Variable advance_orientation : Scalar -> Scalar3 -> Scalar3 -> Scalar3 -> Scalar4 -> Scalar4.
Variable angmom_of : Scalar4 -> Scalar3 -> Scalar4.

(** The block [if (aniso) { ... }] of [gpu_rattle_brownian_step_one_kernel]
    for the particle at [idx], with the generator as the three velocity
    draws left it.  The per-type rotational friction is read from the copy
    of [d_gamma_r] in shared memory. *)
Definition rotational_updates (d_gamma_r : nat -> Scalar3) (d_noiseless_r : bool)
  (args : rattle_bd_step_one_args) (deltaT : Scalar) (D : nat) (idx : nat)
  (rng : RandomGenerator) (pd : ParticleData) : ParticleData :=
  let type_r := scalar_as_int (w4 (h_pos pd idx)) in
  let gamma_r := d_gamma_r type_r in
  if Rgtb (x gamma_r) 0 || Rgtb (y gamma_r) 0 || Rgtb (z gamma_r) 0 then
    let q := h_orientation pd idx in
    let t := xyz (h_net_torque pd idx) in
    let I := h_inertia pd idx in
    let x_zero := Rltb (x I) EPSILON in
    let y_zero := Rltb (y I) EPSILON in
    let z_zero := Rltb (z I) EPSILON in
    let sigma_r :=
      make_scalar3 (sqrt (2 * x gamma_r * T args / deltaT))
                   (sqrt (2 * y gamma_r * T args / deltaT))
                   (sqrt (2 * z gamma_r * T args / deltaT)) in
    let sigma_r := if d_noiseless_r then make_scalar3 0 0 0 else sigma_r in
    let '(bf_x, rng) := NormalDistribution (x sigma_r) rng in
    let '(bf_y, rng) := NormalDistribution (y sigma_r) rng in
    let '(bf_z, rng) := NormalDistribution (z sigma_r) rng in
    let bf_torque :=
      make_scalar3 (if x_zero then 0 else bf_x) (if y_zero then 0 else bf_y)
                   (if z_zero then 0 else bf_z) in
    let bf_torque := rotate q bf_torque in
    let bf_torque :=
      if (D <? 3)%nat then make_scalar3 0 0 (z bf_torque) else bf_torque in
    let t := if (D <? 3)%nat then make_scalar3 0 0 (z t) else t in
    let q := advance_orientation deltaT t bf_torque gamma_r q in
    let pd := set_orientation pd (upd (h_orientation pd) idx q) in
    let '(p_x, rng) := NormalDistribution (sqrt (T args * x I)) rng in
    let '(p_y, rng) := NormalDistribution (sqrt (T args * y I)) rng in
    let '(p_z, rng) := NormalDistribution (sqrt (T args * z I)) rng in
    let p_vec :=
      make_scalar3 (if x_zero then 0 else p_x) (if y_zero then 0 else p_y)
                   (if z_zero then 0 else p_z) in
    set_angmom pd (upd (h_angmom pd) idx (angmom_of q p_vec))
  else pd.

End Rotational.

(** [unsigned int run_block_size = 256;] *)
Definition run_block_size : nat := 256.

(** The threads of one launch of the driver [gpu_rattle_brownian_step_one]:
    [dim3 grid((nwork/run_block_size) + 1, 1, 1);
     dim3 threads(run_block_size, 1, 1)], block after block. *)
Definition launch_threads (nwork : nat) : list thread :=
  flat_map
    (fun b => map (fun i => {| blockIdx_x := b; blockDim_x := run_block_size;
                               threadIdx_x := i |})
                  (seq 0 run_block_size))
    (seq 0 (nwork / run_block_size + 1)).

(** The threads of a launch that pass [if (local_idx < nwork)]. *)
Definition working_threads (nwork : nat) : list thread :=
  filter (fun th => (local_idx th <? nwork)%nat) (launch_threads nwork).

End RATTLEBDGPU.

(* ===================================================================== *)
(** * IntegratorTwoStep: the scheduler *)
(* ===================================================================== *)

Module IntegratorTwoStep.

(** [unsigned int] arithmetic of the time step. *)
Definition UINT_MAX : Z := 4294967295.
Definition uint_add (a b : Z) : Z := ((a + b) mod (UINT_MAX + 1))%Z.

Inductive AnisotropicMode := Automatic | Anisotropic | Isotropic.

(** The interface [IntegrationMethodTwoStep] as the scheduler uses it
    (IntegrationMethodTwoStep.h is not among the sources): the object's
    identity, its group, the time step and anisotropic flag the scheduler
    sets, and its virtual degree-of-freedom queries. *)
Record IntegrationMethodTwoStep := {
  method_id : nat;
  getGroup : ParticleGroup;
  method_deltaT : Scalar;
  method_aniso : bool;
  isMomentumConserving : bool;
  method_getTranslationalDOF : ParticleGroup -> Scalar;
  method_getRotationalDOF : ParticleGroup -> Scalar
}.

Definition method_setDeltaT (m : IntegrationMethodTwoStep) (deltaT : Scalar)
  : IntegrationMethodTwoStep :=
  {| method_id := method_id m; getGroup := getGroup m; method_deltaT := deltaT;
     method_aniso := method_aniso m; isMomentumConserving := isMomentumConserving m;
     method_getTranslationalDOF := method_getTranslationalDOF m;
     method_getRotationalDOF := method_getRotationalDOF m |}.

Definition method_setAnisotropic (m : IntegrationMethodTwoStep) (aniso : bool)
  : IntegrationMethodTwoStep :=
  {| method_id := method_id m; getGroup := getGroup m; method_deltaT := method_deltaT m;
     method_aniso := aniso; isMomentumConserving := isMomentumConserving m;
     method_getTranslationalDOF := method_getTranslationalDOF m;
     method_getRotationalDOF := method_getRotationalDOF m |}.

(** Modelled from the spec: the translational degrees of freedom a method
    gives to a query group when it does not override the base class (the
    base class is not among the sources): the dimensionality for every
    particle of the query group that is also in the method's group. *)
Definition base_getTranslationalDOF (n_dimensions : nat) (m_group query_group : ParticleGroup)
  : Scalar :=
  INR n_dimensions * INR (getNumMembersGlobal (groupIntersection query_group m_group)).

(** Modelled from the spec: a force compute of the [Integrator] base class,
    which is not among the sources, with its coupling to orientation. *)
Record ForceCompute := { isAnisotropic : bool }.

(** What the scheduler calls or writes, in the order it does. *)
Inductive Call :=
| msg_warning (text : string)
| msg_error (text : string)
| prof_push (name : string)
| prof_pop
| call_setDeltaT (method : nat) (deltaT : Scalar)
| call_integrateStepOne (method : nat) (timestep : Z)
| call_integrateStepTwo (method : nat) (timestep : Z)
| call_setAnisotropic (method : nat) (aniso : bool)
| comm_forceMigrate
| comm_communicate (timestep : Z)
| call_updateCompositeParticles (force_composite : nat) (timestep : Z)
| call_computeNetForce (timestep : Z)
| call_computeNetForceGPU (timestep : Z)
| half_step_hook_update (timestep : Z)
| call_computeAccelerations (timestep : Z)
| pdata_notifyAccelSet.

(** The build and the system the scheduler runs in. *)
Record Config := {
  ENABLE_MPI : bool;
  ENABLE_HIP : bool;
  NDEBUG : bool;
  isCUDAEnabled : bool;
  getNGlobal : nat;
  getNDimensions : nat
}.

Record t := {
  m_deltaT : Scalar;
  m_methods : list IntegrationMethodTwoStep;
  m_composite_forces : list nat;
  m_forces : list ForceCompute;
  getNDOFRemoved : ParticleGroup -> Scalar;
  m_prepared : bool;
  m_gave_warning : bool;
  m_aniso_mode : AnisotropicMode;
  m_comm : bool;
  m_half_step_hook : bool;
  m_prof : bool;
  isAccelSet : bool
}.

Definition set_methods (s : t) (methods : list IntegrationMethodTwoStep) : t :=
  {| m_deltaT := m_deltaT s; m_methods := methods;
     m_composite_forces := m_composite_forces s; m_forces := m_forces s;
     getNDOFRemoved := getNDOFRemoved s; m_prepared := m_prepared s;
     m_gave_warning := m_gave_warning s; m_aniso_mode := m_aniso_mode s;
     m_comm := m_comm s; m_half_step_hook := m_half_step_hook s; m_prof := m_prof s;
     isAccelSet := isAccelSet s |}.

Definition set_gave_warning (s : t) (b : bool) : t :=
  {| m_deltaT := m_deltaT s; m_methods := m_methods s;
     m_composite_forces := m_composite_forces s; m_forces := m_forces s;
     getNDOFRemoved := getNDOFRemoved s; m_prepared := m_prepared s;
     m_gave_warning := b; m_aniso_mode := m_aniso_mode s;
     m_comm := m_comm s; m_half_step_hook := m_half_step_hook s; m_prof := m_prof s;
     isAccelSet := isAccelSet s |}.

Definition set_prepared (s : t) (prepared accel_set : bool) : t :=
  {| m_deltaT := m_deltaT s; m_methods := m_methods s;
     m_composite_forces := m_composite_forces s; m_forces := m_forces s;
     getNDOFRemoved := getNDOFRemoved s; m_prepared := prepared;
     m_gave_warning := m_gave_warning s; m_aniso_mode := m_aniso_mode s;
     m_comm := m_comm s; m_half_step_hook := m_half_step_hook s; m_prof := m_prof s;
     isAccelSet := accel_set |}.

(** How a member function ends. *)
Inductive outcome :=
| returned
| thrown (what : string)
| assertion_failed.

(** Modelled from the spec: [Integrator::getAnisotropic], whether any
    active force couples to orientation. *)
Definition getAnisotropic (s : t) : bool := existsb isAnisotropic (m_forces s).

(** [updateRigidBodies]: every composite force slaves its constituents. *)
Definition updateRigidBodies (s : t) (timestep : Z) : list Call :=
  map (fun fc => call_updateCompositeParticles fc timestep) (m_composite_forces s).

(** The first loop of [update]: [setDeltaT] then [integrateStepOne] on every
    method, in the order of the list. *)
Fixpoint step_one_all (deltaT : Scalar) (timestep : Z) (methods : list IntegrationMethodTwoStep)
  : list IntegrationMethodTwoStep * list Call :=
  match methods with
  | [] => ([], [])
  | method :: rest =>
      let '(rest', calls) := step_one_all deltaT timestep rest in
      (method_setDeltaT method deltaT :: rest',
       call_setDeltaT (method_id method) deltaT
       :: call_integrateStepOne (method_id method) timestep :: calls)
  end.

Definition step_two_all (timestep : Z) (methods : list IntegrationMethodTwoStep) : list Call :=
  map (fun method => call_integrateStepTwo (method_id method) timestep) methods.

Definition net_force_call (cfg : Config) (timestep : Z) : Call :=
  if ENABLE_HIP cfg && isCUDAEnabled cfg
  then call_computeNetForceGPU timestep
  else call_computeNetForce timestep.

(** [IntegratorTwoStep::update]: the state after the call, what was called
    in order, and how the call ended. *)
Definition update (cfg : Config) (s : t) (timestep : Z) : t * list Call * outcome :=
  let warn := negb (m_gave_warning s) && (List.length (m_methods s) =? 0)%nat in
  let tr0 :=
    if warn
    then [msg_warning "integrate.mode_standard: No integration methods are set, continuing anyways."]
    else [] in
  let s := if warn then set_gave_warning s true else s in
  if negb (NDEBUG cfg) && negb (m_prepared s) then (s, tr0, assertion_failed)
  else
    let push := if m_prof s then [prof_push "Integrate"] else [] in
    let pop := if m_prof s then [prof_pop] else [] in
    let '(methods, one) := step_one_all (m_deltaT s) timestep (m_methods s) in
    let s := set_methods s methods in
    let sync :=
      if ENABLE_MPI cfg && m_comm s
      then [comm_communicate (uint_add timestep 1)]
      else updateRigidBodies s (uint_add timestep 1) in
    let force := [net_force_call cfg (uint_add timestep 1)] in
    let hook :=
      if m_half_step_hook s then [half_step_hook_update (uint_add timestep 1)] else [] in
    let two := step_two_all timestep (m_methods s) in
    (s, tr0 ++ push ++ one ++ pop ++ sync ++ force ++ hook ++ push ++ two ++ pop, returned).

(** The scan of [addIntegrationMethod] for a registered method whose group
    intersects the new group. *)
Fixpoint intersects_registered (new_group : ParticleGroup)
  (methods : list IntegrationMethodTwoStep) : bool :=
  match methods with
  | [] => false
  | method :: rest =>
      let current_group := getGroup method in
      let intersection := groupIntersection new_group current_group in
      if (0 <? getNumMembersGlobal intersection)%nat then true
      else intersects_registered new_group rest
  end.

(** [IntegratorTwoStep::addIntegrationMethod] *)
Definition addIntegrationMethod (s : t) (new_method : IntegrationMethodTwoStep)
  : t * list Call * outcome :=
  let new_group := getGroup new_method in
  let tr0 :=
    if (getNumMembersGlobal new_group =? 0)%nat
    then [msg_warning "integrate.mode_standard: An integration method has been added that operates on zero particles."]
    else [] in
  if intersects_registered new_group (m_methods s) then
    (s,
     tr0 ++ [msg_error "integrate.mode_standard: Multiple integration methods are applied to the same particle"],
     thrown "Error adding integration method")
  else
    let new_method' := method_setDeltaT new_method (m_deltaT s) in
    (set_methods s (m_methods s ++ [new_method']),
     tr0 ++ [call_setDeltaT (method_id new_method) (m_deltaT s)],
     returned).

(** [IntegratorTwoStep::getTranslationalDOF] *)
Definition getTranslationalDOF (cfg : Config) (s : t) (group : ParticleGroup) : Scalar :=
  let periodic_dof_removed :=
    if (getNumMembersGlobal group =? getNGlobal cfg)%nat
       && (List.length (m_methods s) =? 1)%nat
       && match m_methods s with
          | method0 :: _ => isMomentumConserving method0
          | [] => false
          end
    then INR (getNDimensions cfg)
         * (INR (getNumMembersGlobal group) / INR (getNGlobal cfg))
    else 0 in
  let total :=
    fold_left (fun total method => total + method_getTranslationalDOF method group)
              (m_methods s) 0 in
  total - periodic_dof_removed - getNDOFRemoved s group.

(** The conversion of a [Scalar] to [int], towards zero. *)
Definition to_int (r : Scalar) : Z :=
  if Rle_dec 0 r then Int_part r else (- Int_part (- r))%Z.

(** [IntegratorTwoStep::getRotationalDOF]; the sum is kept in [int res]. *)
Definition getRotationalDOF (s : t) (group : ParticleGroup) : Scalar :=
  let aniso :=
    match m_aniso_mode s with
    | Anisotropic => true
    | _ => getAnisotropic s
    end in
  let res :=
    if aniso
    then fold_left (fun res method => to_int (IZR res + method_getRotationalDOF method group))
                   (m_methods s) 0%Z
    else 0%Z in
  IZR res.

(** The anisotropic mode as [prepRun] resolves it, and its warning. *)
Definition resolve_aniso (s : t) : bool * list Call :=
  match m_aniso_mode s with
  | Anisotropic =>
      (true,
       if negb (getAnisotropic s)
       then [msg_warning "Forcing anisotropic integration mode with no forces coupling to orientation"]
       else [])
  | Isotropic =>
      (false,
       if getAnisotropic s
       then [msg_warning "Forcing isotropic integration mode with anisotropic forces defined"]
       else [])
  | Automatic => (getAnisotropic s, [])
  end.

(** [IntegratorTwoStep::prepRun] *)
Definition prepRun (cfg : Config) (s : t) (timestep : Z) : t * list Call :=
  let '(aniso, tr0) := resolve_aniso s in
  let set_aniso :=
    map (fun method => call_setAnisotropic (method_id method) aniso) (m_methods s) in
  let s := set_methods s (map (fun method => method_setAnisotropic method aniso) (m_methods s)) in
  let sync :=
    if ENABLE_MPI cfg && m_comm s
    then [comm_forceMigrate; comm_communicate timestep]
    else updateRigidBodies s timestep in
  let force := [net_force_call cfg timestep] in
  let accel :=
    if negb (isAccelSet s)
    then [call_computeAccelerations timestep; pdata_notifyAccelSet]
    else [] in
  (set_prepared s true true, tr0 ++ set_aniso ++ sync ++ force ++ accel).

(** The calls of a time step that are not messages or profiling marks. *)
Definition is_step (c : Call) : bool :=
  match c with
  | msg_warning _ | msg_error _ | prof_push _ | prof_pop => false
  | _ => true
  end.


Definition set_aniso_mode (s : t) (mode : AnisotropicMode) : t :=
  {| m_deltaT := m_deltaT s; m_methods := m_methods s;
     m_composite_forces := m_composite_forces s; m_forces := m_forces s;
     getNDOFRemoved := getNDOFRemoved s; m_prepared := m_prepared s;
     m_gave_warning := m_gave_warning s; m_aniso_mode := mode;
     m_comm := m_comm s; m_half_step_hook := m_half_step_hook s; m_prof := m_prof s;
     isAccelSet := isAccelSet s |}.

Definition set_composite_forces (s : t) (composite_forces : list nat) : t :=
  {| m_deltaT := m_deltaT s; m_methods := m_methods s;
     m_composite_forces := composite_forces; m_forces := m_forces s;
     getNDOFRemoved := getNDOFRemoved s; m_prepared := m_prepared s;
     m_gave_warning := m_gave_warning s; m_aniso_mode := m_aniso_mode s;
     m_comm := m_comm s; m_half_step_hook := m_half_step_hook s; m_prof := m_prof s;
     isAccelSet := isAccelSet s |}.

(** [IntegratorTwoStep::setDeltaT]: the base class [Integrator::setDeltaT]
    (hoomd/Integrator.cc is not among the sources) runs first, then every
    method already added receives the new time step. *)
Definition setDeltaT (Integrator_setDeltaT : t -> Scalar -> t) (s : t) (deltaT : Scalar)
  : t * list Call :=
  let s := Integrator_setDeltaT s deltaT in
  (set_methods s (map (fun method => method_setDeltaT method deltaT) (m_methods s)),
   map (fun method => call_setDeltaT (method_id method) deltaT) (m_methods s)).

(** [IntegratorTwoStep::removeAllIntegrationMethods] *)
Definition removeAllIntegrationMethods (s : t) : t :=
  set_gave_warning (set_methods s []) false.

(** [IntegratorTwoStep::addForceComposite], for a pointer that is not null
    ([assert(fc)]). *)
Definition addForceComposite (s : t) (fc : nat) : t :=
  set_composite_forces s (m_composite_forces s ++ [fc]).

(** [IntegratorTwoStep::setAnisotropicMode] *)
Definition setAnisotropicMode (s : t) (mode : string) : t * outcome :=
  if String.eqb mode "true" then (set_aniso_mode s Anisotropic, returned)
  else if String.eqb mode "false" then (set_aniso_mode s Isotropic, returned)
  else if String.eqb mode "auto" then (set_aniso_mode s Automatic, returned)
  else (s, thrown "Invalid mode string").

(** The warnings among the calls of a member function. *)
Definition is_warning (c : Call) : bool :=
  match c with
  | msg_warning _ => true
  | _ => false
  end.

Definition no_methods_warning : Call :=
  msg_warning "integrate.mode_standard: No integration methods are set, continuing anyways.".

Definition zero_particles_warning : Call :=
  msg_warning "integrate.mode_standard: An integration method has been added that operates on zero particles.".

(** [IntegratorTwoStep::getAnisotropicMode]; the enumeration has no fourth
    value, so the final [throw] of the source is not reached. *)
Definition getAnisotropicMode (s : t) : string :=
  match m_aniso_mode s with
  | Anisotropic => "true"
  | Isotropic => "false"
  | Automatic => "auto"
  end.

End IntegratorTwoStep.

(* ===================================================================== *)
(** * ComputeThermo: the temperatures read from the degrees of freedom *)
(* ===================================================================== *)

Module ComputeThermo.

(** The entries of [thermo_index] that the temperature getters read. *)
Inductive thermo_index := translational_kinetic_energy | rotational_kinetic_energy.

(** The compute after [compute()] (and, with MPI, after the reduction of
    its properties): the degrees of freedom stored in its group, the
    property array, and
    [m_computed_flags[pdata_flag::rotational_kinetic_energy]]. *)
Record t := {
  group_getTranslationalDOF : Scalar;
  group_getRotationalDOF : Scalar;
  m_properties : thermo_index -> Scalar;
  rotational_kinetic_energy_computed : bool
}.

(** [ComputeThermo::getTemperature] *)
Definition getTemperature (c : t) : Scalar :=
  let prefactor := 2 / (group_getTranslationalDOF c + group_getRotationalDOF c) in
  prefactor * (m_properties c translational_kinetic_energy
               + m_properties c rotational_kinetic_energy).

(** [ComputeThermo::getTranslationalTemperature] *)
Definition getTranslationalTemperature (c : t) : Scalar :=
  2 / group_getTranslationalDOF c * m_properties c translational_kinetic_energy.

(** [ComputeThermo::getRotationalTemperature] *)
Definition getRotationalTemperature (c : t) : Scalar :=
  if rotational_kinetic_energy_computed c && Rgtb (group_getRotationalDOF c) 0
  then 2 / group_getRotationalDOF c * m_properties c rotational_kinetic_energy
  else 0.

(** [ComputeThermo::getTranslationalKineticEnergy] *)
Definition getTranslationalKineticEnergy (c : t) : Scalar :=
  m_properties c translational_kinetic_energy.

(** [ComputeThermo::getRotationalKineticEnergy] *)
Definition getRotationalKineticEnergy (c : t) : Scalar :=
  if rotational_kinetic_energy_computed c
  then m_properties c rotational_kinetic_energy
  else 0.

(** [ComputeThermo::getKineticEnergy] *)
Definition getKineticEnergy (c : t) : Scalar :=
  if rotational_kinetic_energy_computed c
  then m_properties c translational_kinetic_energy
       + m_properties c rotational_kinetic_energy
  else m_properties c translational_kinetic_energy.

(** [ComputeThermo::getNDOF] *)
Definition getNDOF (c : t) : Scalar :=
  group_getTranslationalDOF c + group_getRotationalDOF c.

End ComputeThermo.

(* ===================================================================== *)
(** * The effect of the per-particle loops on one particle *)
(* ===================================================================== *)

(** What the first loop of NVE [integrateStepOne] leaves in the entries of
    its own particle. *)
Definition stepOne_kernel (m : RATTLENVE.t) (p : Particle) : Particle :=
  let accel := if RATTLENVE.m_zero_force m then make_scalar3 0 0 0 else p_accel p in
  let st :=
    snd (PositionStage.solve (RATTLENVE.m_manifold m) (p_pos p) (p_vel p) accel
           (RATTLENVE.m_deltaT m) (RATTLENVE.m_eta m)) in
  let half_vel := PositionStage.half_vel st in
  let d :=
    RATTLENVE.limit_displacement m
      (make_scalar3 (RATTLENVE.m_deltaT m * x half_vel)
                    (RATTLENVE.m_deltaT m * y half_vel)
                    (RATTLENVE.m_deltaT m * z half_vel)) in
  {| p_pos := make_scalar4 (x4 (p_pos p) + x d) (y4 (p_pos p) + y d)
                           (z4 (p_pos p) + z d) (w4 (p_pos p));
     p_vel := make_scalar4 (x half_vel) (y half_vel) (z half_vel) (w4 (p_vel p));
     p_accel := accel;
     p_image := p_image p;
     p_orientation := p_orientation p;
     p_angmom := p_angmom p;
     p_net_force := p_net_force p;
     p_virial := p_virial p;
     p_net_torque := p_net_torque p;
     p_inertia := p_inertia p;
     p_diameter := p_diameter p;
     p_tag := p_tag p |}.

(** What the first loop of NVE [integrateStepTwo] leaves in the entries of
    its own particle. *)
Definition stepTwo_kernel (m : RATTLENVE.t) (p : Particle) : Particle :=
  let inv_mass := 1 / w4 (p_vel p) in
  let accel :=
    if RATTLENVE.m_zero_force m then make_scalar3 0 0 0
    else make_scalar3 (x4 (p_net_force p) * inv_mass) (y4 (p_net_force p) * inv_mass)
                      (z4 (p_net_force p) * inv_mass) in
  let normal := derivative (RATTLENVE.m_manifold m) (xyz (p_pos p)) in
  let st :=
    snd (VelocityStage.solve normal (p_vel p) accel
           (RATTLENVE.m_deltaT m) (RATTLENVE.m_eta m)) in
  {| p_pos := p_pos p;
     p_vel := RATTLENVE.limit_velocity m
                (VelocityStage.update_velocity normal (p_vel p) accel
                   (RATTLENVE.m_deltaT m) (VelocityStage.mu st));
     p_accel := accel;
     p_image := p_image p;
     p_orientation := p_orientation p;
     p_angmom := p_angmom p;
     p_net_force := p_net_force p;
     p_virial := p_virial p;
     p_net_torque := p_net_torque p;
     p_inertia := p_inertia p;
     p_diameter := p_diameter p;
     p_tag := p_tag p |}.

(** What [IncludeRATTLEForce_particle] leaves in the entries of its own
    particle, as a function of these entries. *)
Definition include_kernel (m : RATTLELangevin.t) (p : Particle) : Particle :=
  let st :=
    snd (PositionStage.solve (RATTLELangevin.m_manifold m) (p_pos p) (p_vel p)
           (p_accel p) (RATTLELangevin.m_deltaT m) (RATTLELangevin.m_eta m)) in
  let lambda := PositionStage.lambda st in
  let normal := PositionStage.normal (RATTLELangevin.m_manifold m) (p_pos p) in
  let inv_mass := 1 / w4 (p_vel p) in
  let f := p_net_force p in
  let pos := p_pos p in
  let a := p_accel p in
  {| p_pos := p_pos p;
     p_vel := p_vel p;
     p_accel := make_scalar3 (x a - inv_mass * lambda * x normal)
                             (y a - inv_mass * lambda * y normal)
                             (z a - inv_mass * lambda * z normal);
     p_image := p_image p;
     p_orientation := p_orientation p;
     p_angmom := p_angmom p;
     p_net_force := make_scalar4 (x4 f - lambda * x normal) (y4 f - lambda * y normal)
                                 (z4 f - lambda * z normal) (w4 f);
     p_virial :=
       [ nth 0 (p_virial p) 0 - lambda * x normal * x4 pos;
         nth 1 (p_virial p) 0 - 0.5 * lambda * (y normal * x4 pos + x normal * y4 pos);
         nth 2 (p_virial p) 0 - 0.5 * lambda * (z normal * x4 pos + x normal * z4 pos);
         nth 3 (p_virial p) 0 - lambda * y normal * y4 pos;
         nth 4 (p_virial p) 0 - 0.5 * lambda * (y normal * z4 pos + z normal * y4 pos);
         nth 5 (p_virial p) 0 - lambda * z normal * z4 pos ];
     p_net_torque := p_net_torque p;
     p_inertia := p_inertia p;
     p_diameter := p_diameter p;
     p_tag := p_tag p |}.

(* ===================================================================== *)
(** * What the scheduler keeps true of its method list *)
(* ===================================================================== *)

Definition groups_disjoint (a b : ParticleGroup) : Prop :=
  forall i, In i (members a) -> ~ In i (members b).

(** No two registered methods share a particle, and every registered method
    carries the scheduler's time step. *)
Definition methods_disjoint (methods : list IntegratorTwoStep.IntegrationMethodTwoStep) : Prop :=
  ForallOrdPairs
    (fun a b => groups_disjoint (IntegratorTwoStep.getGroup a) (IntegratorTwoStep.getGroup b))
    methods.

Definition scheduler_invariant (s : IntegratorTwoStep.t) : Prop :=
  methods_disjoint (IntegratorTwoStep.m_methods s) /\
  Forall (fun method =>
            IntegratorTwoStep.method_deltaT method = IntegratorTwoStep.m_deltaT s)
         (IntegratorTwoStep.m_methods s).

(** The velocity after an unconstrained half step, and the part of a vector
    that is tangent to the surface with gradient [normal]. *)
Definition free_velocity (vel : Scalar4) (accel : Scalar3) (deltaT : Scalar) : Scalar3 :=
  make_scalar3 (x4 vel + 1 / 2 * deltaT * x accel)
               (y4 vel + 1 / 2 * deltaT * y accel)
               (z4 vel + 1 / 2 * deltaT * z accel).

Definition tangent_part (normal v : Scalar3) : Scalar3 :=
  let c := dot normal v / dot normal normal in
  make_scalar3 (x v - x normal * c) (y v - y normal * c) (z v - z normal * c).

(** What [BoxDim::wrap] leaves in the entries of the particle it is called
    on. *)
Definition wrap_kernel (wrap : Scalar4 -> int3 -> Scalar4 * int3) (p : Particle) : Particle :=
  {| p_pos := fst (wrap (p_pos p) (p_image p));
     p_vel := p_vel p;
     p_accel := p_accel p;
     p_image := snd (wrap (p_pos p) (p_image p));
     p_orientation := p_orientation p;
     p_angmom := p_angmom p;
     p_net_force := p_net_force p;
     p_virial := p_virial p;
     p_net_torque := p_net_torque p;
     p_inertia := p_inertia p;
     p_diameter := p_diameter p;
     p_tag := p_tag p |}.

(** What the first loop of Langevin [integrateStepOne] leaves in the entries
    of its own particle. *)
Definition langevin_stepOne_kernel (wrap : Scalar4 -> int3 -> Scalar4 * int3)
  (m : RATTLELangevin.t) (p : Particle) : Particle :=
  let deltaT_half := (1 / 2) * RATTLELangevin.m_deltaT m in
  let half_vel :=
    make_scalar3 (x4 (p_vel p) + deltaT_half * x (p_accel p))
                 (y4 (p_vel p) + deltaT_half * y (p_accel p))
                 (z4 (p_vel p) + deltaT_half * z (p_accel p)) in
  let moved :=
    make_scalar4 (x4 (p_pos p) + RATTLELangevin.m_deltaT m * x half_vel)
                 (y4 (p_pos p) + RATTLELangevin.m_deltaT m * y half_vel)
                 (z4 (p_pos p) + RATTLELangevin.m_deltaT m * z half_vel)
                 (w4 (p_pos p)) in
  {| p_pos := fst (wrap moved (p_image p));
     p_vel := make_scalar4 (x half_vel) (y half_vel) (z half_vel) (w4 (p_vel p));
     p_accel := p_accel p;
     p_image := snd (wrap moved (p_image p));
     p_orientation := p_orientation p;
     p_angmom := p_angmom p;
     p_net_force := p_net_force p;
     p_virial := p_virial p;
     p_net_torque := p_net_torque p;
     p_inertia := p_inertia p;
     p_diameter := p_diameter p;
     p_tag := p_tag p |}.

(* ===================================================================== *)
(** * Concrete systems *)
(* ===================================================================== *)

(** A converged position solve on the primitive surface
    [cos(2 pi x) + cos(2 pi y) + cos(2 pi z) = 0] (one unit cell in a unit
    box) with tolerance 1: the particle starts on the surface at
    (1/4, 1/4, 1/4) and moves tangentially by (1/4, 1/4, -1/2). *)
Definition cx_manifold : Manifold :=
  TPMS.manifold (TPMS.setup TPMS.Primitive 1 1 1 (make_scalar3 1 1 1)).
Definition cx_pos := make_scalar4 (1/4) (1/4) (1/4) 0.
Definition cx_vel := make_scalar4 (1/4) (1/4) (-1/2) 1.
Definition cx_accel := make_scalar3 0 0 0.

Definition cx_method : RATTLENVE.t :=
  {| RATTLENVE.m_group := {| members := [0%nat] |};
     RATTLENVE.m_manifold := cx_manifold;
     RATTLENVE.m_deltaT := 1;
     RATTLENVE.m_limit := false;
     RATTLENVE.m_limit_val := 1;
     RATTLENVE.m_eta := 1;
     RATTLENVE.m_zero_force := false;
     RATTLENVE.m_aniso := false |}.

Definition cx_pdata : ParticleData :=
  {| h_pos := fun _ => cx_pos;
     h_vel := fun _ => cx_vel;
     h_accel := fun _ => cx_accel;
     h_image := fun _ => make_int3 0 0 0;
     h_orientation := fun _ => make_scalar4 1 0 0 0;
     h_angmom := fun _ => make_scalar4 0 0 0 0;
     h_net_force := fun _ => make_scalar4 0 0 0 0;
     h_net_virial := fun _ => 0;
     h_net_torque := fun _ => make_scalar4 0 0 0 0;
     h_inertia := fun _ => make_scalar3 0 0 0;
     h_diameter := fun _ => 1;
     h_tag := fun i => i |}.

Definition cx_langevin : RATTLELangevin.t :=
  {| RATTLELangevin.m_group := {| members := [0%nat] |};
     RATTLELangevin.m_manifold := cx_manifold;
     RATTLELangevin.m_T := fun _ => 1;
     RATTLELangevin.m_seed := 42%Z;
     RATTLELangevin.m_use_lambda := false;
     RATTLELangevin.m_lambda := 0;
     RATTLELangevin.m_gamma := fun _ => 1;
     RATTLELangevin.m_gamma_r := fun _ => make_scalar3 0 0 0;
     RATTLELangevin.m_deltaT := 1;
     RATTLELangevin.m_reservoir_energy := 0;
     RATTLELangevin.m_extra_energy_overdeltaT := 0;
     RATTLELangevin.m_tally := false;
     RATTLELangevin.m_noiseless_t := false;
     RATTLELangevin.m_noiseless_r := false;
     RATTLELangevin.m_eta := 1;
     RATTLELangevin.m_aniso := false |}.

(** A second NVE method of the same kind for the particle at index 1. *)
Definition cx_method_other : RATTLENVE.t :=
  {| RATTLENVE.m_group := {| members := [1%nat] |};
     RATTLENVE.m_manifold := cx_manifold;
     RATTLENVE.m_deltaT := 1;
     RATTLENVE.m_limit := false;
     RATTLENVE.m_limit_val := 1;
     RATTLENVE.m_eta := 1;
     RATTLENVE.m_zero_force := false;
     RATTLENVE.m_aniso := false |}.

(** A box that wraps nothing, and a rotational half step that does
    nothing. *)
Definition cx_wrap (p : Scalar4) (i : int3) : Scalar4 * int3 := (p, i).
Definition cx_angular (deltaT : Scalar) (pd : ParticleData) (j : nat) : ParticleData := pd.

(** The same store with every particle at rest. *)
Definition cx_pdata_rest : ParticleData :=
  set_vel cx_pdata (fun _ => make_scalar4 0 0 0 1).

(** Distributions that always draw zero, every particle of type 0, and
    rigid-body helpers that return a zero vector or their argument. *)
Definition cx_uniform (a b : Scalar) (rng : RandomGenerator) : Scalar * RandomGenerator :=
  (0, rng).
Definition cx_normal (sigma : Scalar) (rng : RandomGenerator) : Scalar * RandomGenerator :=
  (0, rng).
Definition cx_scalar_as_int (w : Scalar) : nat := 0%nat.
Definition cx_body_angular_velocity (q p : Scalar4) : Scalar3 := make_scalar3 0 0 0.
Definition cx_rotate (q : Scalar4) (v : Scalar3) : Scalar3 := v.

(** The store in which the tags are held in the other order: the particle
    with tag 0 sits at index 1. *)
Definition cx_pdata_moved : ParticleData :=
  {| h_pos := h_pos cx_pdata; h_vel := h_vel cx_pdata; h_accel := h_accel cx_pdata;
     h_image := h_image cx_pdata; h_orientation := h_orientation cx_pdata;
     h_angmom := h_angmom cx_pdata; h_net_force := h_net_force cx_pdata;
     h_net_virial := h_net_virial cx_pdata; h_net_torque := h_net_torque cx_pdata;
     h_inertia := h_inertia cx_pdata; h_diameter := h_diameter cx_pdata;
     h_tag := fun i => (1 - i)%nat |}.

(** Arguments of a Brownian step, and a launch in which the tag 0 is worked
    on by the second thread and held at index 1. *)
Definition cx_bd_args : RATTLEBDGPU.rattle_bd_step_one_args :=
  {| RATTLEBDGPU.d_gamma := fun _ => 1;
     RATTLEBDGPU.n_types := 1;
     RATTLEBDGPU.use_lambda := false;
     RATTLEBDGPU.lambda := 0;
     RATTLEBDGPU.timestep := 0;
     RATTLEBDGPU.seed := 42;
     RATTLEBDGPU.T := 1 |}.

Definition cx_thread (i : nat) : RATTLEBDGPU.thread :=
  {| RATTLEBDGPU.blockIdx_x := 0; RATTLEBDGPU.blockDim_x := 256;
     RATTLEBDGPU.threadIdx_x := i |}.

(** Distributions that draw zero from the generators of the particle with
    tag 0 and one from all others. *)
Definition cx_uniform_off (a b : Scalar) (rng : RandomGenerator) : Scalar * RandomGenerator :=
  (if (rng_a rng =? 0)%Z then 0 else 1, rng).
Definition cx_normal_off (sigma : Scalar) (rng : RandomGenerator) : Scalar * RandomGenerator :=
  (if (rng_a rng =? 0)%Z then 0 else 1, rng).

Definition cx_advance_orientation (deltaT : Scalar) (t bf_torque gamma_r : Scalar3)
  (q : Scalar4) : Scalar4 := q.
Definition cx_angmom_of (q : Scalar4) (p_vec : Scalar3) : Scalar4 :=
  make_scalar4 0 (x p_vec) (y p_vec) (z p_vec).

(** A compute over 100 particles with translational and rotational
    energy. *)
Definition cx_thermo : ComputeThermo.t :=
  {| ComputeThermo.group_getTranslationalDOF := 297;
     ComputeThermo.group_getRotationalDOF := 300;
     ComputeThermo.m_properties :=
       fun i => match i with
                | ComputeThermo.translational_kinetic_energy => 150
                | ComputeThermo.rotational_kinetic_energy => 140
                end;
     ComputeThermo.rotational_kinetic_energy_computed := true |}.

Import IntegratorTwoStep.

(** One hundred particles in three dimensions under one momentum-conserving
    method that spans all of them, and the group of the first fifty. *)
Definition c1_all : ParticleGroup := {| members := seq 0 100 |}.
Definition c1_half : ParticleGroup := {| members := seq 0 50 |}.

Definition c1_cfg : Config :=
  {| ENABLE_MPI := false; ENABLE_HIP := false; NDEBUG := false; isCUDAEnabled := false;
     getNGlobal := 100; getNDimensions := 3 |}.

Definition c1_method : IntegrationMethodTwoStep :=
  {| method_id := 0;
     getGroup := c1_all;
     method_deltaT := 1;
     method_aniso := false;
     isMomentumConserving := true;
     method_getTranslationalDOF := base_getTranslationalDOF 3 c1_all;
     method_getRotationalDOF := fun _ => 3 |}.

Definition c1_state : t :=
  {| m_deltaT := 1;
     m_methods := [c1_method];
     m_composite_forces := [];
     m_forces := [];
     getNDOFRemoved := fun _ => 0;
     m_prepared := true;
     m_gave_warning := false;
     m_aniso_mode := Automatic;
     m_comm := false;
     m_half_step_hook := false;
     m_prof := false;
     isAccelSet := true |}.

(** The same system with a force that couples to orientation and the
    anisotropic mode set to isotropic. *)
Definition c5_state : t :=
  {| m_deltaT := 1;
     m_methods := [c1_method];
     m_composite_forces := [];
     m_forces := [{| isAnisotropic := true |}];
     getNDOFRemoved := fun _ => 0;
     m_prepared := false;
     m_gave_warning := false;
     m_aniso_mode := Isotropic;
     m_comm := false;
     m_half_step_hook := false;
     m_prof := false;
     isAccelSet := true |}.

(* ===================================================================== *)
(** * Basic facts *)
(* ===================================================================== *)

Lemma Rgtb_true (a b : R) : Rgtb a b = true <-> a > b.
Proof. unfold Rgtb. destruct (Rgt_dec a b); split; intros; easy. Qed.

Lemma Rgtb_false (a b : R) : Rgtb a b = false <-> a <= b.
Proof.
  unfold Rgtb. destruct (Rgt_dec a b); split; intros; try easy; lra.
Qed.

Lemma maxNorm_le_iff (v : Scalar3) (r e : Scalar) :
  maxNorm v r <= e <-> sqrt (dot v v) <= e /\ Rabs r <= e.
Proof.
  unfold maxNorm. destruct (Rgt_dec (sqrt (dot v v)) (Rabs r)); split; intros; lra.
Qed.

Lemma upd_same {T : Type} (data : nat -> T) (j : nat) (v : T) : upd data j v j = v.
Proof. unfold upd. now rewrite Nat.eqb_refl. Qed.

Lemma upd_other {T : Type} (data : nat -> T) (j i : nat) (v : T) :
  i <> j -> upd data j v i = data i.
Proof. intros H. unfold upd. apply Nat.eqb_neq in H. now rewrite H. Qed.

Lemma groupIntersection_In (a b : ParticleGroup) (i : nat) :
  In i (members (groupIntersection a b)) <-> In i (members a) /\ In i (members b).
Proof.
  unfold groupIntersection; simpl. rewrite filter_In, existsb_exists.
  split.
  - intros [Ha [j [Hj Heq]]]. apply Nat.eqb_eq in Heq. subst. now split.
  - intros [Ha Hb]. split; [exact Ha|]. exists i. split; [exact Hb|apply Nat.eqb_refl].
Qed.

(** The loop over a group written with the index variable gives the same
    member at every position as the fold over the member list. *)
Lemma getMemberIndex_In (g : ParticleGroup) (group_idx : nat) :
  (group_idx < getNumMembers g)%nat -> In (getMemberIndex g group_idx) (members g).
Proof. intros H. apply nth_In. exact H. Qed.

Lemma row_index_neq (pitch i j k k' : nat) :
  (i < pitch)%nat -> (j < pitch)%nat -> i <> j ->
  (k * pitch + i)%nat <> (k' * pitch + j)%nat.
Proof.
  intros Hi Hj Hne E.
  assert (H : ((k * pitch + i) mod pitch = (k' * pitch + j) mod pitch)%nat) by now rewrite E.
  rewrite !(Nat.add_comm (_ * pitch)), !Nat.Div0.mod_add, !Nat.mod_small in H by assumption.
  contradiction.
Qed.

Lemma row_index_neq_row (pitch j k k' : nat) :
  (j < pitch)%nat -> k <> k' -> (k * pitch + j)%nat <> (k' * pitch + j)%nat.
Proof. intros Hj Hne E. apply Hne. nia. Qed.

Lemma iter_pred {A} (f : A -> A) (k : nat) (a : A) :
  (1 <= k)%nat -> Nat.iter k f a = f (Nat.iter (k - 1) f a).
Proof.
  intros H. destruct k as [|k]; [lia|]. simpl. now rewrite Nat.sub_0_r.
Qed.

Section Locality.

(** A per-particle step that reads and writes the entries of its own
    particle only, as seen through a view of the store at one index. *)
Variable View : Type.
Variable view : ParticleData -> nat -> View.
Variable valid : nat -> Prop.
Variable step : ParticleData -> nat -> ParticleData.

Hypothesis step_frame :
  forall pd j i, valid i -> valid j -> i <> j -> view (step pd j) i = view pd i.
Hypothesis step_local :
  forall pd pd' j, valid j -> view pd j = view pd' j ->
    view (step pd j) j = view (step pd' j) j.

Lemma fold_frame (l : list nat) (pd : ParticleData) (i : nat) :
  valid i -> Forall valid l -> ~ In i l -> view (fold_left step l pd) i = view pd i.
Proof.
  intros Hi. revert pd. induction l as [|j l IH]; intros pd Hl Hn; simpl; [reflexivity|].
  inversion Hl; subst. rewrite IH; auto.
  - apply step_frame; auto. intros ->. apply Hn. now left.
  - intros H. apply Hn. now right.
Qed.

Lemma fold_at (l : list nat) (pd : ParticleData) (j : nat) :
  Forall valid l -> NoDup l -> In j l ->
  view (fold_left step l pd) j = view (step pd j) j.
Proof.
  revert pd. induction l as [|a l IH]; intros pd Hl Hnd Hin; [now destruct Hin|].
  inversion Hl; subst. inversion Hnd; subst. simpl.
  destruct Hin as [->|Hin].
  - apply fold_frame; auto.
  - assert (Hne : j <> a) by (intros ->; contradiction).
    assert (Hj : valid j) by (eapply Forall_forall in H2; eauto).
    rewrite IH by auto.
    apply step_local; [exact Hj|]. apply step_frame; auto.
Qed.

End Locality.

Section Kernels.

Variable pitch : nat.
Variable valid : nat -> Prop.
Variable step : ParticleData -> nat -> ParticleData.
Variable kernel : Particle -> Particle.

Hypothesis step_frame :
  forall pd j i, valid i -> valid j -> i <> j ->
    particle pitch (step pd j) i = particle pitch pd i.
Hypothesis step_at :
  forall pd j, valid j -> particle pitch (step pd j) j = kernel (particle pitch pd j).

Lemma for_each_at (g : ParticleGroup) (pd : ParticleData) (j : nat) :
  Forall valid (members g) -> NoDup (members g) -> In j (members g) ->
  particle pitch (for_each_member g step pd) j = kernel (particle pitch pd j).
Proof.
  intros Hv Hnd Hin. unfold for_each_member.
  rewrite (@fold_at Particle (particle pitch) valid step); auto.
  - apply step_at. eapply Forall_forall in Hv; eauto.
  - intros pd1 pd2 k Hk Heq. rewrite !step_at by exact Hk. now rewrite Heq.
Qed.

Lemma for_each_frame (g : ParticleGroup) (pd : ParticleData) (i : nat) :
  Forall valid (members g) -> valid i -> ~ In i (members g) ->
  particle pitch (for_each_member g step pd) i = particle pitch pd i.
Proof.
  intros Hv Hi Hn. unfold for_each_member.
  apply (@fold_frame Particle (particle pitch) valid step); auto.
Qed.

End Kernels.

(* ===================================================================== *)
(** * Properties of the RATTLE loops *)
(* ===================================================================== *)

Section DoWhileFacts.

Context {St : Type}.
Variable body : St -> St.
Variable test : St -> bool.
Variable cap : nat.

(** What the loop computes: it runs the body [k] times, [k] between one and
    the cap, every earlier turn failed the tolerance test, and the exit is
    either by the test or by the cap. *)
Lemma do_while_spec (iteration : nat) (s : St) :
  (iteration < cap)%nat ->
  exists k : nat,
    (1 <= k)%nat /\ (iteration + k <= cap)%nat /\
    do_while body test cap iteration s = ((iteration + k)%nat, Nat.iter k body s) /\
    (forall i, (1 <= i < k)%nat -> test (Nat.iter i body s) = true) /\
    (test (Nat.iter k body s) = false \/ (iteration + k)%nat = cap).
Proof.
  funelim (do_while body test cap iteration s); intros Hlt.
  - clear Heqcall. pose proof (andb_prop _ _ e) as [Ht Hc].
    apply Nat.ltb_lt in Hc.
    destruct (H Hc) as (k & Hk1 & Hk2 & Heq & Hall & Hex).
    exists (S k). split; [lia|]. split; [lia|]. split; [|split].
    + rewrite Heq. f_equal; [lia|]. now rewrite Nat.iter_succ_r.
    + intros i Hi. destruct i as [|i]; [lia|].
      destruct i as [|i]; [exact Ht|].
      rewrite Nat.iter_succ_r. apply Hall. lia.
    + rewrite Nat.iter_succ_r.
      destruct Hex as [Hex|Hex]; [now left|right; lia].
  - clear Heqcall. exists 1%nat. split; [lia|]. split; [lia|]. split; [|split].
    + f_equal. lia.
    + intros i Hi; lia.
    + simpl. pose proof (proj1 (andb_false_iff _ _) e) as [e'|e']; [now left|].
      apply Nat.ltb_ge in e'. right. lia.
Qed.

(** The loop leaves at the first turn whose tolerance test fails. *)
Lemma do_while_exit_at (iteration k : nat) (s : St) :
  (1 <= k)%nat -> (iteration + k <= cap)%nat ->
  (forall i, (1 <= i < k)%nat -> test (Nat.iter i body s) = true) ->
  test (Nat.iter k body s) = false ->
  do_while body test cap iteration s = ((iteration + k)%nat, Nat.iter k body s).
Proof.
  intros Hk Hcap Hbefore Hexit.
  destruct (@do_while_spec iteration s) as (k' & H1 & H2 & Heq & Hall & Hex);
    [lia|].
  assert (k' = k) as ->; [|exact Heq].
  destruct (Nat.lt_trichotomy k' k) as [Hlt|[Heq'|Hgt]]; [|exact Heq'|].
  - destruct Hex as [Hex|Hex]; [|lia].
    rewrite Hbefore in Hex by lia. discriminate.
  - rewrite Hall in Hexit by lia. discriminate.
Qed.

(** Without a passing test the loop leaves at the cap. *)
Lemma do_while_exit_cap (s : St) :
  (1 <= cap)%nat ->
  (forall i, (1 <= i < cap)%nat -> test (Nat.iter i body s) = true) ->
  do_while body test cap 0 s = (cap, Nat.iter cap body s).
Proof.
  intros Hcap Hbefore.
  destruct (@do_while_spec 0%nat s) as (k & H1 & H2 & Heq & Hall & Hex);
    [lia|].
  assert (k = cap) as ->; [|exact Heq].
  destruct Hex as [Hex|Hex]; [|lia].
  destruct (Nat.eq_dec k cap) as [E|E]; [exact E|].
  rewrite Hbefore in Hex by lia. discriminate.
Qed.

End DoWhileFacts.

Lemma position_solve_spec (manifold : Manifold) (pos vel : Scalar4) (accel : Scalar3)
  (dt eta : Scalar) :
  exists k : nat,
    (1 <= k <= 10)%nat /\
    PositionStage.solve manifold pos vel accel dt eta
    = (k, Nat.iter k (PositionStage.body manifold pos vel accel dt)
                     (PositionStage.init pos)) /\
    (forall i, (1 <= i < k)%nat ->
       PositionStage.test eta
         (Nat.iter i (PositionStage.body manifold pos vel accel dt)
                     (PositionStage.init pos)) = true) /\
    (PositionStage.test eta
       (Nat.iter k (PositionStage.body manifold pos vel accel dt)
                   (PositionStage.init pos)) = false \/ k = 10%nat).
Proof.
  unfold PositionStage.solve.
  destruct (@do_while_spec _ (PositionStage.body manifold pos vel accel dt)
              (PositionStage.test eta) maxiteration 0%nat (PositionStage.init pos))
    as (k & H1 & H2 & Heq & Hall & Hex); [unfold maxiteration; lia|].
  unfold maxiteration in *. exists k. simpl in *. repeat split; auto; lia.
Qed.

Lemma velocity_solve_spec (normal : Scalar3) (vel : Scalar4) (accel : Scalar3)
  (dt eta : Scalar) :
  exists k : nat,
    (1 <= k <= 10)%nat /\
    VelocityStage.solve normal vel accel dt eta
    = (k, Nat.iter k (VelocityStage.body normal vel accel dt)
                     (VelocityStage.init vel accel dt)) /\
    (forall i, (1 <= i < k)%nat ->
       VelocityStage.test vel eta
         (Nat.iter i (VelocityStage.body normal vel accel dt)
                     (VelocityStage.init vel accel dt)) = true) /\
    (VelocityStage.test vel eta
       (Nat.iter k (VelocityStage.body normal vel accel dt)
                   (VelocityStage.init vel accel dt)) = false \/ k = 10%nat).
Proof.
  unfold VelocityStage.solve.
  destruct (@do_while_spec _ (VelocityStage.body normal vel accel dt)
              (VelocityStage.test vel eta) maxiteration 0%nat
              (VelocityStage.init vel accel dt))
    as (k & H1 & H2 & Heq & Hall & Hex); [unfold maxiteration; lia|].
  unfold maxiteration in *. exists k. simpl in *. repeat split; auto; lia.
Qed.

(** C4.  Every RATTLE fixed-point loop, the position stage (NVE step one,
    Langevin IncludeRATTLEForce) and the velocity stage (NVE and Langevin
    step two), runs its body between one and ten times and then returns: the
    result is the body iterated that many times from the initial state, and
    an exit before the tenth turn is an exit by the tolerance test.  The
    functions have no error result and write no message; whatever the test
    says at the exit, also at the cap, the half velocity (NVE step one), the
    multiplier (IncludeRATTLEForce) and the velocity (step two) of the exit
    state are what is stored. *)
Theorem rattle_loops_capped :
  (forall manifold pos vel accel dt eta,
     let r := PositionStage.solve manifold pos vel accel dt eta in
     (1 <= fst r <= 10)%nat /\
     snd r = Nat.iter (fst r) (PositionStage.body manifold pos vel accel dt)
                      (PositionStage.init pos) /\
     ((fst r < 10)%nat -> PositionStage.test eta (snd r) = false)) /\
  (forall normal vel accel dt eta,
     let r := VelocityStage.solve normal vel accel dt eta in
     (1 <= fst r <= 10)%nat /\
     snd r = Nat.iter (fst r) (VelocityStage.body normal vel accel dt)
                      (VelocityStage.init vel accel dt) /\
     ((fst r < 10)%nat -> VelocityStage.test vel eta (snd r) = false)) /\
  (forall (m : RATTLENVE.t) pd j,
     let accel :=
       if RATTLENVE.m_zero_force m then make_scalar3 0 0 0 else h_accel pd j in
     let st :=
       snd (PositionStage.solve (RATTLENVE.m_manifold m) (h_pos pd j) (h_vel pd j)
              accel (RATTLENVE.m_deltaT m) (RATTLENVE.m_eta m)) in
     h_vel (RATTLENVE.stepOne_particle m pd j) j
     = make_scalar4 (x (PositionStage.half_vel st)) (y (PositionStage.half_vel st))
                    (z (PositionStage.half_vel st)) (w4 (h_vel pd j))) /\
  (forall (m : RATTLENVE.t) pd j,
     let inv_mass := 1 / w4 (h_vel pd j) in
     let accel :=
       if RATTLENVE.m_zero_force m then make_scalar3 0 0 0
       else make_scalar3 (x4 (h_net_force pd j) * inv_mass)
                         (y4 (h_net_force pd j) * inv_mass)
                         (z4 (h_net_force pd j) * inv_mass) in
     let normal :=
       derivative (RATTLENVE.m_manifold m)
         (make_scalar3 (x4 (h_pos pd j)) (y4 (h_pos pd j)) (z4 (h_pos pd j))) in
     let st :=
       snd (VelocityStage.solve normal (h_vel pd j) accel
              (RATTLENVE.m_deltaT m) (RATTLENVE.m_eta m)) in
     h_vel (RATTLENVE.stepTwo_particle m pd j) j
     = RATTLENVE.limit_velocity m
         (VelocityStage.update_velocity normal (h_vel pd j) accel
            (RATTLENVE.m_deltaT m) (VelocityStage.mu st))) /\
  (forall pitch (m : RATTLELangevin.t) pd j,
     let st :=
       snd (PositionStage.solve (RATTLELangevin.m_manifold m) (h_pos pd j) (h_vel pd j)
              (h_accel pd j) (RATTLELangevin.m_deltaT m) (RATTLELangevin.m_eta m)) in
     let lambda := PositionStage.lambda st in
     let normal := PositionStage.normal (RATTLELangevin.m_manifold m) (h_pos pd j) in
     h_net_force (RATTLELangevin.IncludeRATTLEForce_particle pitch m pd j) j
     = make_scalar4 (x4 (h_net_force pd j) - lambda * x normal)
                    (y4 (h_net_force pd j) - lambda * y normal)
                    (z4 (h_net_force pd j) - lambda * z normal)
                    (w4 (h_net_force pd j))) /\
  (forall UniformDistribution NormalDistribution scalar_as_int EPSILON
          body_angular_velocity rotate (m : RATTLELangevin.t) timestep pd e j,
     let bd := RATTLELangevin.bd_force UniformDistribution scalar_as_int m timestep pd j in
     let inv_mass := 1 / w4 (h_vel pd j) in
     let accel :=
       make_scalar3 ((x4 (h_net_force pd j) + x bd) * inv_mass)
                    ((y4 (h_net_force pd j) + y bd) * inv_mass)
                    ((z4 (h_net_force pd j) + z bd) * inv_mass) in
     let normal := RATTLELangevin.particle_normal m pd j in
     let st :=
       snd (VelocityStage.solve normal (h_vel pd j) accel
              (RATTLELangevin.m_deltaT m) (RATTLELangevin.m_eta m)) in
     h_vel (fst (RATTLELangevin.stepTwo_particle UniformDistribution NormalDistribution
                   scalar_as_int EPSILON body_angular_velocity rotate m timestep (pd, e) j)) j
     = VelocityStage.update_velocity normal (h_vel pd j) accel
         (RATTLELangevin.m_deltaT m) (VelocityStage.mu st)).
Proof.
  split; [|split; [|split; [|split; [|split]]]].
  - intros manifold pos vel accel dt eta r. subst r.
    destruct (position_solve_spec manifold pos vel accel dt eta)
      as (k & Hk & Heq & _ & Hex).
    rewrite Heq. simpl. split; [exact Hk|]. split; [reflexivity|].
    intros Hlt. destruct Hex as [Hex|Hex]; [exact Hex|lia].
  - intros normal vel accel dt eta r. subst r.
    destruct (velocity_solve_spec normal vel accel dt eta)
      as (k & Hk & Heq & _ & Hex).
    rewrite Heq. simpl. split; [exact Hk|]. split; [reflexivity|].
    intros Hlt. destruct Hex as [Hex|Hex]; [exact Hex|lia].
  - intros m pd j. unfold RATTLENVE.stepOne_particle.
    destruct (RATTLENVE.m_zero_force m); simpl; rewrite ?upd_same; reflexivity.
  - intros m pd j. unfold RATTLENVE.stepTwo_particle.
    destruct (RATTLENVE.m_zero_force m); simpl; rewrite ?upd_same; reflexivity.
  - intros pitch m pd j. unfold RATTLELangevin.IncludeRATTLEForce_particle.
    simpl. rewrite upd_same. reflexivity.
  - intros UD ND sai EPS bav rot m timestep pd e j.
    unfold RATTLELangevin.stepTwo_particle, RATTLELangevin.bd_force.
    destruct (RATTLELangevin.random_force UD sai m (RATTLELangevin.m_T m timestep) pd j
                (RATTLELangevin.particle_rng m timestep pd j)) as [[r0 c0] rng0].
    destruct (RATTLELangevin.m_aniso m); cbn [fst].
    + unfold RATTLELangevin.noise_torque.
      match goal with |- context [if ?c then _ else _] => destruct c end;
        repeat match goal with
               | |- context [ND ?a ?b] => destruct (ND a b)
               end;
        cbn [h_vel h_accel set_net_torque set_vel set_accel x y z];
        rewrite !upd_same; reflexivity.
    + cbn [h_vel h_accel set_net_torque set_vel set_accel x y z].
      rewrite !upd_same. reflexivity.
Qed.

(** One turn of the velocity stage leaves a multiplier whose velocity, as
    the step writes it back, is tangent to the manifold. *)
Lemma velocity_body_tangent (normal : Scalar3) (vel : Scalar4) (accel : Scalar3)
  (dt : Scalar) (st : VelocityStage.state) :
  dot normal normal <> 0 -> w4 vel <> 0 -> dt <> 0 ->
  dot normal
    (xyz (VelocityStage.update_velocity normal vel accel dt
            (VelocityStage.mu (VelocityStage.body normal vel accel dt st)))) = 0.
Proof.
  intros Hn Hm Hdt.
  unfold VelocityStage.update_velocity, VelocityStage.body, xyz, dot in *.
  cbn [VelocityStage.mu x y z x4 y4 z4].
  unfold VelocityStage.inv_alpha, VelocityStage.inv_mass, VelocityStage.mass, dot.
  cbn [x y z].
  field. repeat split; auto.
Qed.

Lemma limit_velocity_tangent (m : RATTLENVE.t) (n : Scalar3) (v : Scalar4) :
  dot n (xyz v) = 0 -> dot n (xyz (RATTLENVE.limit_velocity m v)) = 0.
Proof.
  intros H. unfold RATTLENVE.limit_velocity.
  destruct (RATTLENVE.m_limit m); [|exact H].
  destruct (Rgt_dec _ _); [|exact H].
  unfold dot, xyz in *. cbn [x y z x4 y4 z4] in *.
  set (s := sqrt _).
  replace (x n * (x4 v / s * RATTLENVE.m_limit_val m / RATTLENVE.m_deltaT m) +
           y n * (y4 v / s * RATTLENVE.m_limit_val m / RATTLENVE.m_deltaT m) +
           z n * (z4 v / s * RATTLENVE.m_limit_val m / RATTLENVE.m_deltaT m))
    with ((x n * x4 v + y n * y4 v + z n * z4 v)
          * (/ s * RATTLENVE.m_limit_val m * / RATTLENVE.m_deltaT m))
    by (unfold Rdiv; ring).
  rewrite H. ring.
Qed.

Lemma stepOne_stored_position (m : RATTLENVE.t) (pd : ParticleData) (j : nat) :
  RATTLENVE.m_limit m = false ->
  let accel :=
    if RATTLENVE.m_zero_force m then make_scalar3 0 0 0 else h_accel pd j in
  let hv :=
    PositionStage.half_vel
      (snd (PositionStage.solve (RATTLENVE.m_manifold m) (h_pos pd j) (h_vel pd j) accel
              (RATTLENVE.m_deltaT m) (RATTLENVE.m_eta m))) in
  h_pos (RATTLENVE.stepOne_particle m pd j) j
  = make_scalar4 (x4 (h_pos pd j) + RATTLENVE.m_deltaT m * x hv)
                 (y4 (h_pos pd j) + RATTLENVE.m_deltaT m * y hv)
                 (z4 (h_pos pd j) + RATTLENVE.m_deltaT m * z hv)
                 (w4 (h_pos pd j)).
Proof.
  intros Hlim. unfold RATTLENVE.stepOne_particle, RATTLENVE.limit_displacement.
  rewrite Hlim.
  destruct (RATTLENVE.m_zero_force m);
    cbn [h_vel h_pos h_accel set_accel set_vel set_pos x y z]; rewrite ?upd_same;
    reflexivity.
Qed.

(** C3 (amended).  When the position loop of NVE step one leaves by its
    tolerance test, the candidate position at which that test was evaluated
    (the iterate before the last update) satisfies [|g| <= eta], and, with no
    movement limit set, the position the step stores lies within [eta] of
    that candidate.  For a gradient, a mass and a time step different from
    zero the velocity that step two stores has no component along the
    gradient at the particle's position, so its magnitude is at most any
    [eta >= 0]. *)
Theorem rattle_converged_guarantee
  (m : RATTLENVE.t) (pd : ParticleData) (j : nat) (m2 : RATTLENVE.t) (pd2 : ParticleData) :
  let accel :=
    if RATTLENVE.m_zero_force m then make_scalar3 0 0 0 else h_accel pd j in
  let body :=
    PositionStage.body (RATTLENVE.m_manifold m) (h_pos pd j) (h_vel pd j) accel
      (RATTLENVE.m_deltaT m) in
  let r :=
    PositionStage.solve (RATTLENVE.m_manifold m) (h_pos pd j) (h_vel pd j) accel
      (RATTLENVE.m_deltaT m) (RATTLENVE.m_eta m) in
  let tested :=
    PositionStage.next_pos (Nat.iter (fst r - 1) body (PositionStage.init (h_pos pd j))) in
  let stored := h_pos (RATTLENVE.stepOne_particle m pd j) j in
  let d :=
    make_scalar3 (x4 stored - x tested) (y4 stored - y tested) (z4 stored - z tested) in
  let normal := derivative (RATTLENVE.m_manifold m2) (xyz (h_pos pd2 j)) in
  let v := xyz (h_vel (RATTLENVE.stepTwo_particle m2 pd2 j) j) in
  PositionStage.test (RATTLENVE.m_eta m) (snd r) = false ->
  dot normal normal <> 0 -> w4 (h_vel pd2 j) <> 0 -> RATTLENVE.m_deltaT m2 <> 0 ->
  Rabs (implicit_function (RATTLENVE.m_manifold m) tested) <= RATTLENVE.m_eta m /\
  (RATTLENVE.m_limit m = false -> sqrt (dot d d) <= RATTLENVE.m_eta m) /\
  dot normal v = 0 /\
  (0 <= RATTLENVE.m_eta m2 ->
   Rabs (dot normal v / sqrt (dot normal normal)) <= RATTLENVE.m_eta m2).
Proof.
  intros accel body r tested stored d normal v Hconv Hn Hm Hdt.
  assert (Hv : dot normal v = 0).
  { subst v normal. unfold RATTLENVE.stepTwo_particle.
    destruct (RATTLENVE.m_zero_force m2); cbn [h_vel h_pos h_accel set_accel set_vel];
      rewrite !upd_same; apply limit_velocity_tangent;
      match goal with
      | |- context [VelocityStage.solve ?n ?ve ?a ?dt ?eta] =>
          destruct (velocity_solve_spec n ve a dt eta) as (k & Hk & Heq & _);
          rewrite Heq; cbn [snd]; rewrite iter_pred by lia;
          apply velocity_body_tangent; auto
      end. }
  destruct (position_solve_spec (RATTLENVE.m_manifold m) (h_pos pd j) (h_vel pd j) accel
              (RATTLENVE.m_deltaT m) (RATTLENVE.m_eta m)) as (k & Hk & Heq & _).
  assert (Hst : snd r = body (Nat.iter (fst r - 1) body (PositionStage.init (h_pos pd j)))).
  { subst r body. rewrite Heq. cbn [fst snd]. apply iter_pred. lia. }
  rewrite Hst in Hconv. unfold PositionStage.test in Hconv.
  apply Rgtb_false, maxNorm_le_iff in Hconv. destruct Hconv as [Hres Hg].
  split; [exact Hg|]. split; [|split; [exact Hv|]].
  - intros Hlim.
    assert (Hd : d = PositionStage.residual
                       (body (Nat.iter (fst r - 1) body (PositionStage.init (h_pos pd j))))).
    { subst d stored tested.
      rewrite (stepOne_stored_position m pd j Hlim).
      fold accel. fold r. rewrite Hst.
      remember (Nat.iter (fst r - 1) body (PositionStage.init (h_pos pd j))) as prev.
      unfold body, PositionStage.body.
      cbn [PositionStage.half_vel PositionStage.residual x y z x4 y4 z4].
      f_equal; ring. }
    rewrite Hd. exact Hres.
  - intros Heta. rewrite Hv. unfold Rdiv. rewrite Rmult_0_l, Rabs_R0. exact Heta.
Qed.

Lemma cx_body :
  PositionStage.body cx_manifold cx_pos cx_vel cx_accel 1 (PositionStage.init cx_pos)
  = {| PositionStage.next_pos := make_scalar3 (1/2) (1/2) (-1/4);
       PositionStage.lambda := 0;
       PositionStage.residual := make_scalar3 (1/4) (1/4) (-1/2);
       PositionStage.resid := 0;
       PositionStage.half_vel := make_scalar3 (1/4) (1/4) (-1/2) |}.
Proof.
  unfold PositionStage.body, PositionStage.init, cx_manifold, cx_pos, cx_vel, cx_accel.
  unfold PositionStage.normal, PositionStage.inv_mass, PositionStage.deltaT_half,
    PositionStage.inv_alpha.
  cbn.
  replace (PI * 1 / 1 * 2 * (1 / 4)) with (PI / 2) by field.
  rewrite sin_PI2, cos_PI2. unfold dot. cbn [x y z].
  assert (HPI : 0 < PI * PI) by (apply Rmult_lt_0_compat; apply PI_RGT_0).
  assert (Hnn : - (PI * 2) * - (PI * 2) + - (PI * 2) * - (PI * 2) + - (PI * 2) * - (PI * 2) <> 0).
  { replace (- (PI * 2) * - (PI * 2) + - (PI * 2) * - (PI * 2) + - (PI * 2) * - (PI * 2))
      with (12 * (PI * PI)) by ring. lra. }
  unfold PositionStage.inv_mass, PositionStage.deltaT_half; cbn [w4].
  f_equal; [f_equal; field; exact Hnn | field; repeat split; try exact Hnn; lra
           | f_equal; field | field | f_equal; field].
Qed.

Lemma cx_converged :
  PositionStage.test 1
    (PositionStage.body cx_manifold cx_pos cx_vel cx_accel 1 (PositionStage.init cx_pos))
  = false.
Proof.
  rewrite cx_body. unfold PositionStage.test. cbn [PositionStage.residual PositionStage.resid].
  apply Rgtb_false, maxNorm_le_iff. split.
  - apply Rle_trans with (sqrt 1); [|rewrite sqrt_1; lra].
    apply sqrt_le_1_alt. unfold dot; cbn [x y z]. lra.
  - rewrite Rabs_R0. lra.
Qed.

Lemma cx_solve :
  PositionStage.solve cx_manifold cx_pos cx_vel cx_accel 1 1
  = (1%nat, PositionStage.body cx_manifold cx_pos cx_vel cx_accel 1 (PositionStage.init cx_pos)).
Proof.
  unfold PositionStage.solve.
  rewrite (@do_while_exit_at _ _ _ maxiteration 0%nat 1%nat);
    [reflexivity | lia | unfold maxiteration; lia | intros i Hi; lia | exact cx_converged].
Qed.

Lemma cx_off_manifold :
  implicit_function cx_manifold (make_scalar3 (1/2) (1/2) (-1/4)) = -2.
Proof.
  unfold cx_manifold. cbn.
  replace (PI * 1 / 1 * 2 * (1 / 2)) with PI by field.
  replace (PI * 1 / 1 * 2 * (-1 / 4)) with (- (PI / 2)) by field.
  rewrite cos_neg, cos_PI, cos_PI2. lra.
Qed.

(** C3 (counterexample).  On this input the position loop of NVE step one
    leaves by its tolerance test after one turn, and neither the loop's
    final candidate position nor the position the step stores is within
    [eta = 1] of the surface: the implicit function is -2 there. *)
Lemma rattle_converged_off_manifold :
  let r :=
    PositionStage.solve (RATTLENVE.m_manifold cx_method) (h_pos cx_pdata 0%nat)
      (h_vel cx_pdata 0%nat) (h_accel cx_pdata 0%nat)
      (RATTLENVE.m_deltaT cx_method) (RATTLENVE.m_eta cx_method) in
  (fst r < 10)%nat /\
  PositionStage.test (RATTLENVE.m_eta cx_method) (snd r) = false /\
  ~ (Rabs (implicit_function (RATTLENVE.m_manifold cx_method)
             (PositionStage.next_pos (snd r))) <= RATTLENVE.m_eta cx_method) /\
  ~ (Rabs (implicit_function (RATTLENVE.m_manifold cx_method)
             (xyz (h_pos (RATTLENVE.stepOne_particle cx_method cx_pdata 0%nat) 0%nat)))
     <= RATTLENVE.m_eta cx_method).
Proof.
  cbv zeta. cbn [RATTLENVE.m_manifold RATTLENVE.m_deltaT RATTLENVE.m_eta cx_method
                 h_pos h_vel h_accel cx_pdata].
  rewrite cx_solve. cbn [fst snd]. split; [lia|]. split; [exact cx_converged|].
  assert (Hoff : ~ Rabs (-2) <= 1).
  { rewrite Rabs_left by lra. lra. }
  split.
  - rewrite cx_body. cbn [PositionStage.next_pos]. rewrite cx_off_manifold. exact Hoff.
  - rewrite (stepOne_stored_position cx_method cx_pdata 0%nat eq_refl).
    cbn [RATTLENVE.m_manifold RATTLENVE.m_deltaT RATTLENVE.m_eta RATTLENVE.m_zero_force
         cx_method h_pos h_vel h_accel cx_pdata].
    rewrite cx_solve. cbn [snd]. rewrite cx_body.
    cbn [PositionStage.half_vel x y z]. unfold xyz, cx_pos. cbn [x4 y4 z4].
    replace (1 / 4 + 1 * (1 / 4)) with (1 / 2) by field.
    replace (1 / 4 + 1 * (-1 / 2)) with (-1 / 4) by field.
    rewrite cx_off_manifold. exact Hoff.
Qed.

Lemma rattle_converged_guarantee_witness :
  let r :=
    PositionStage.solve (RATTLENVE.m_manifold cx_method) (h_pos cx_pdata 0%nat)
      (h_vel cx_pdata 0%nat) (h_accel cx_pdata 0%nat)
      (RATTLENVE.m_deltaT cx_method) (RATTLENVE.m_eta cx_method) in
  let tested :=
    PositionStage.next_pos
      (Nat.iter (fst r - 1)
         (PositionStage.body (RATTLENVE.m_manifold cx_method) (h_pos cx_pdata 0%nat)
            (h_vel cx_pdata 0%nat) (h_accel cx_pdata 0%nat) (RATTLENVE.m_deltaT cx_method))
         (PositionStage.init (h_pos cx_pdata 0%nat))) in
  let normal := derivative (RATTLENVE.m_manifold cx_method) (xyz (h_pos cx_pdata 0%nat)) in
  PositionStage.test (RATTLENVE.m_eta cx_method) (snd r) = false /\
  dot normal normal <> 0 /\
  Rabs (implicit_function (RATTLENVE.m_manifold cx_method) tested)
    <= RATTLENVE.m_eta cx_method /\
  dot normal (xyz (h_vel (RATTLENVE.stepTwo_particle cx_method cx_pdata 0%nat) 0%nat)) = 0.
Proof.
  cbv zeta.
  assert (Hconv :
    PositionStage.test (RATTLENVE.m_eta cx_method)
      (snd (PositionStage.solve (RATTLENVE.m_manifold cx_method) (h_pos cx_pdata 0%nat)
              (h_vel cx_pdata 0%nat) (h_accel cx_pdata 0%nat)
              (RATTLENVE.m_deltaT cx_method) (RATTLENVE.m_eta cx_method))) = false).
  { cbn [RATTLENVE.m_manifold RATTLENVE.m_deltaT RATTLENVE.m_eta cx_method
         h_pos h_vel h_accel cx_pdata].
    rewrite cx_solve. exact cx_converged. }
  assert (Hn :
    dot (derivative (RATTLENVE.m_manifold cx_method) (xyz (h_pos cx_pdata 0%nat)))
        (derivative (RATTLENVE.m_manifold cx_method) (xyz (h_pos cx_pdata 0%nat))) <> 0).
  { unfold dot, cx_method, cx_manifold, cx_pdata, cx_pos, xyz. cbn.
    replace (PI * 1 / 1 * 2 * (1 / 4)) with (PI / 2) by field.
    rewrite sin_PI2.
    assert (HPI : 0 < PI * PI) by (apply Rmult_lt_0_compat; apply PI_RGT_0).
    replace (- (PI * 1 / 1 * 2) * 1 * (- (PI * 1 / 1 * 2) * 1)
             + - (PI * 1 / 1 * 2) * 1 * (- (PI * 1 / 1 * 2) * 1)
             + - (PI * 1 / 1 * 2) * 1 * (- (PI * 1 / 1 * 2) * 1))
      with (12 * (PI * PI)) by field.
    lra. }
  pose proof (rattle_converged_guarantee cx_method cx_pdata 0%nat cx_method cx_pdata) as H.
  cbv zeta in H.
  destruct (H Hconv Hn) as (H1 & _ & H3 & _).
  - cbn. lra.
  - cbn. lra.
  - split; [exact Hconv|]. split; [exact Hn|]. split; [exact H1|exact H3].
Defined.

(* ===================================================================== *)
(** * The loops over the group *)
(* ===================================================================== *)

Lemma stepOne_particle_at (pitch : nat) (m : RATTLENVE.t) (pd : ParticleData) (j : nat) :
  particle pitch (RATTLENVE.stepOne_particle m pd j) j = stepOne_kernel m (particle pitch pd j).
Proof.
  unfold particle, stepOne_kernel, RATTLENVE.stepOne_particle.
  destruct (RATTLENVE.m_zero_force m);
    cbn -[Nat.mul Nat.add PositionStage.solve RATTLENVE.limit_displacement];
    rewrite ?upd_same; reflexivity.
Qed.

Lemma stepOne_particle_frame (pitch : nat) (m : RATTLENVE.t) (pd : ParticleData) (j i : nat) :
  i <> j ->
  particle pitch (RATTLENVE.stepOne_particle m pd j) i = particle pitch pd i.
Proof.
  intros Hne. unfold particle, RATTLENVE.stepOne_particle.
  destruct (RATTLENVE.m_zero_force m);
    cbn -[Nat.mul Nat.add PositionStage.solve RATTLENVE.limit_displacement];
    repeat rewrite (upd_other _ _ Hne); reflexivity.
Qed.

Lemma stepTwo_particle_at (pitch : nat) (m : RATTLENVE.t) (pd : ParticleData) (j : nat) :
  particle pitch (RATTLENVE.stepTwo_particle m pd j) j = stepTwo_kernel m (particle pitch pd j).
Proof.
  unfold particle, stepTwo_kernel, RATTLENVE.stepTwo_particle.
  destruct (RATTLENVE.m_zero_force m);
    cbn -[Nat.mul Nat.add VelocityStage.solve RATTLENVE.limit_velocity
          VelocityStage.update_velocity];
    rewrite ?upd_same; reflexivity.
Qed.

Lemma stepTwo_particle_frame (pitch : nat) (m : RATTLENVE.t) (pd : ParticleData) (j i : nat) :
  i <> j ->
  particle pitch (RATTLENVE.stepTwo_particle m pd j) i = particle pitch pd i.
Proof.
  intros Hne. unfold particle, RATTLENVE.stepTwo_particle.
  destruct (RATTLENVE.m_zero_force m);
    cbn -[Nat.mul Nat.add VelocityStage.solve RATTLENVE.limit_velocity
          VelocityStage.update_velocity];
    repeat rewrite (upd_other _ _ Hne); reflexivity.
Qed.





Lemma include_particle_at (pitch : nat) (m : RATTLELangevin.t) (pd : ParticleData) (j : nat) :
  (j < pitch)%nat ->
  particle pitch (RATTLELangevin.IncludeRATTLEForce_particle pitch m pd j) j
  = include_kernel m (particle pitch pd j).
Proof.
  intros Hj.
  unfold particle, include_kernel, RATTLELangevin.IncludeRATTLEForce_particle,
    RATTLELangevin.virial_sub.
  cbn -[Nat.mul Nat.add PositionStage.solve PositionStage.normal].
  repeat first [ rewrite upd_same
               | rewrite upd_other by (apply row_index_neq_row; [exact Hj|lia]) ].
  reflexivity.
Qed.

Lemma include_particle_frame (pitch : nat) (m : RATTLELangevin.t) (pd : ParticleData)
  (j i : nat) :
  (i < pitch)%nat -> (j < pitch)%nat -> i <> j ->
  particle pitch (RATTLELangevin.IncludeRATTLEForce_particle pitch m pd j) i
  = particle pitch pd i.
Proof.
  intros Hi Hj Hne.
  unfold particle, RATTLELangevin.IncludeRATTLEForce_particle, RATTLELangevin.virial_sub.
  cbn -[Nat.mul Nat.add PositionStage.solve PositionStage.normal].
  repeat rewrite (upd_other _ _ Hne).
  repeat rewrite upd_other by (apply row_index_neq; assumption).
  reflexivity.
Qed.

(** The arrays [IncludeRATTLEForce] holds with read access, and those it
    does not open at all, are the same arrays afterwards. *)
Lemma include_untouched (pitch : nat) (m : RATTLELangevin.t) (l : list nat) (pd : ParticleData) :
  let pd' := fold_left (RATTLELangevin.IncludeRATTLEForce_particle pitch m) l pd in
  h_pos pd' = h_pos pd /\ h_vel pd' = h_vel pd /\ h_image pd' = h_image pd /\
  h_orientation pd' = h_orientation pd /\ h_angmom pd' = h_angmom pd /\
  h_net_torque pd' = h_net_torque pd /\ h_inertia pd' = h_inertia pd /\
  h_diameter pd' = h_diameter pd /\ h_tag pd' = h_tag pd.
Proof.
  revert pd. induction l as [|j l IH]; intros pd; simpl.
  - repeat split.
  - specialize (IH (RATTLELangevin.IncludeRATTLEForce_particle pitch m pd j)).
    simpl in IH. exact IH.
Qed.

Lemma include_outside (pitch : nat) (m : RATTLELangevin.t) (l : list nat) (pd : ParticleData)
  (i : nat) :
  ~ In i l ->
  let pd' := fold_left (RATTLELangevin.IncludeRATTLEForce_particle pitch m) l pd in
  h_net_force pd' i = h_net_force pd i /\ h_accel pd' i = h_accel pd i.
Proof.
  revert pd. induction l as [|j l IH]; intros pd Hn; simpl; [now split|].
  destruct (IH (RATTLELangevin.IncludeRATTLEForce_particle pitch m pd j)) as [H1 H2].
  { intros H. apply Hn. now right. }
  simpl in H1, H2. rewrite H1, H2.
  assert (Hne : i <> j) by (intros ->; apply Hn; now left).
  unfold RATTLELangevin.IncludeRATTLEForce_particle. cbn [h_net_force h_accel set_accel set_net_virial set_net_force].
  rewrite !upd_other by exact Hne. now split.
Qed.

(** C10.  [IncludeRATTLEForce] leaves the position, velocity, orientation,
    angular momentum and image arrays (and the other arrays it does not
    write) as they are; every entry of a particle outside the group is
    unchanged; and for a group particle the net force loses [lambda * n],
    the six virial rows lose the symmetrized [lambda * n_i * x_j] and the
    acceleration loses [lambda * n / m]. *)
Theorem IncludeRATTLEForce_frame (pitch : nat) (m : RATTLELangevin.t) (timestep : Z)
  (pd : ParticleData) :
  NoDup (members (RATTLELangevin.m_group m)) ->
  Forall (fun j => (j < pitch)%nat) (members (RATTLELangevin.m_group m)) ->
  let pd' := RATTLELangevin.IncludeRATTLEForce pitch m timestep pd in
  (h_pos pd' = h_pos pd /\ h_vel pd' = h_vel pd /\ h_orientation pd' = h_orientation pd /\
   h_angmom pd' = h_angmom pd /\ h_image pd' = h_image pd) /\
  (forall i, ~ In i (members (RATTLELangevin.m_group m)) ->
     h_net_force pd' i = h_net_force pd i /\ h_accel pd' i = h_accel pd i /\
     ((i < pitch)%nat -> particle pitch pd' i = particle pitch pd i)) /\
  (forall j, In j (members (RATTLELangevin.m_group m)) ->
     let lambda :=
       PositionStage.lambda
         (snd (PositionStage.solve (RATTLELangevin.m_manifold m) (h_pos pd j) (h_vel pd j)
                 (h_accel pd j) (RATTLELangevin.m_deltaT m) (RATTLELangevin.m_eta m))) in
     let n := PositionStage.normal (RATTLELangevin.m_manifold m) (h_pos pd j) in
     let inv_mass := 1 / w4 (h_vel pd j) in
     let f := h_net_force pd j in
     let a := h_accel pd j in
     let r := h_pos pd j in
     let virial := fun pd k => h_net_virial pd (k * pitch + j)%nat in
     h_net_force pd' j
     = make_scalar4 (x4 f - lambda * x n) (y4 f - lambda * y n) (z4 f - lambda * z n) (w4 f) /\
     h_accel pd' j
     = make_scalar3 (x a - inv_mass * lambda * x n) (y a - inv_mass * lambda * y n)
                    (z a - inv_mass * lambda * z n) /\
     virial pd' 0%nat = virial pd 0%nat - lambda * x n * x4 r /\
     virial pd' 1%nat = virial pd 1%nat - 0.5 * lambda * (y n * x4 r + x n * y4 r) /\
     virial pd' 2%nat = virial pd 2%nat - 0.5 * lambda * (z n * x4 r + x n * z4 r) /\
     virial pd' 3%nat = virial pd 3%nat - lambda * y n * y4 r /\
     virial pd' 4%nat = virial pd 4%nat - 0.5 * lambda * (y n * z4 r + z n * y4 r) /\
     virial pd' 5%nat = virial pd 5%nat - lambda * z n * z4 r).
Proof.
  intros Hnd Hv pd'. subst pd'. unfold RATTLELangevin.IncludeRATTLEForce.
  split; [|split].
  - unfold for_each_member.
    destruct (include_untouched pitch m (members (RATTLELangevin.m_group m)) pd)
      as (H1 & H2 & H3 & H4 & H5 & _).
    cbv zeta in *. repeat split; assumption.
  - intros i Hn.
    destruct (include_outside pitch m (members (RATTLELangevin.m_group m)) pd i Hn)
      as [H1 H2].
    unfold for_each_member. split; [exact H1|]. split; [exact H2|].
    intros Hi.
    apply (@for_each_frame pitch (fun j => (j < pitch)%nat)); auto.
    intros; now apply include_particle_frame.
  - intros j Hin. cbv zeta.
    assert (H : particle pitch
                  (for_each_member (RATTLELangevin.m_group m)
                     (RATTLELangevin.IncludeRATTLEForce_particle pitch m) pd) j
                = include_kernel m (particle pitch pd j)).
    { apply (@for_each_at pitch (fun j => (j < pitch)%nat)); auto.
      - intros; now apply include_particle_frame.
      - intros; now apply include_particle_at. }
    pose proof (f_equal p_net_force H) as Hf.
    pose proof (f_equal p_accel H) as Ha.
    pose proof (f_equal (fun p => nth 0 (p_virial p) 0) H) as V0.
    pose proof (f_equal (fun p => nth 1 (p_virial p) 0) H) as V1.
    pose proof (f_equal (fun p => nth 2 (p_virial p) 0) H) as V2.
    pose proof (f_equal (fun p => nth 3 (p_virial p) 0) H) as V3.
    pose proof (f_equal (fun p => nth 4 (p_virial p) 0) H) as V4.
    pose proof (f_equal (fun p => nth 5 (p_virial p) 0) H) as V5.
    cbn -[Nat.mul Nat.add PositionStage.solve PositionStage.normal] in Hf, Ha, V0, V1, V2, V3, V4, V5.
    repeat split; assumption.
Qed.

Lemma IncludeRATTLEForce_frame_witness :
  let pd' := RATTLELangevin.IncludeRATTLEForce 1 cx_langevin 0%Z cx_pdata in
  NoDup (members (RATTLELangevin.m_group cx_langevin)) /\
  h_pos pd' = h_pos cx_pdata /\ h_vel pd' = h_vel cx_pdata /\
  h_orientation pd' = h_orientation cx_pdata /\ h_angmom pd' = h_angmom cx_pdata /\
  h_image pd' = h_image cx_pdata /\
  h_net_force pd' 1%nat = h_net_force cx_pdata 1%nat.
Proof.
  cbv zeta.
  assert (Hnd : NoDup (members (RATTLELangevin.m_group cx_langevin)))
    by (constructor; [simpl; tauto|constructor]).
  assert (Hv : Forall (fun j => (j < 1)%nat) (members (RATTLELangevin.m_group cx_langevin)))
    by (constructor; [lia|constructor]).
  pose proof (@IncludeRATTLEForce_frame 1%nat cx_langevin 0%Z cx_pdata Hnd Hv) as H.
  cbv zeta in H. destruct H as ((H1 & H2 & H3 & H4 & H5) & Hout & _).
  destruct (Hout 1%nat) as (Hf & _).
  - simpl. lia.
  - repeat split; assumption.
Defined.

(* ===================================================================== *)
(** * The stochastic force and its random numbers *)
(* ===================================================================== *)

(** C6.  In the velocity step of the Langevin method the friction
    coefficient of a particle is [lambda * diameter] in the single-scale mode
    and the coefficient of its type otherwise.  At a positive temperature the
    random force is the three uniform numbers, less their component along
    the unit gradient, times [sqrt(6 gamma kT / deltaT)] (times zero when
    the translational noise is suppressed), and it is tangent to the
    manifold where the gradient does not vanish; at a temperature that is
    not positive it is zero.  The force added to the net force in the
    acceleration is this random force minus [gamma * v]. *)
Theorem langevin_bd_force
  (UniformDistribution : Scalar -> Scalar -> RandomGenerator -> Scalar * RandomGenerator)
  (NormalDistribution : Scalar -> RandomGenerator -> Scalar * RandomGenerator)
  (scalar_as_int : Scalar -> nat) (EPSILON : Scalar)
  (body_angular_velocity : Scalar4 -> Scalar4 -> Scalar3)
  (rotate : Scalar4 -> Scalar3 -> Scalar3)
  (m : RATTLELangevin.t) (timestep : Z) (pd : ParticleData) (j : nat) (e : Scalar) :
  let kT := RATTLELangevin.m_T m timestep in
  let gamma :=
    if RATTLELangevin.m_use_lambda m
    then RATTLELangevin.m_lambda m * h_diameter pd j
    else RATTLELangevin.m_gamma m (scalar_as_int (w4 (h_pos pd j))) in
  let n := derivative (RATTLELangevin.m_manifold m) (xyz (h_pos pd j)) in
  let v := h_vel pd j in
  let f := h_net_force pd j in
  let r :=
    fst (RATTLELangevin.uniform_draws UniformDistribution
           (RATTLELangevin.particle_rng m timestep pd j)) in
  let coeff :=
    if RATTLELangevin.m_noiseless_t m then 0
    else sqrt (6 * gamma * kT / RATTLELangevin.m_deltaT m) in
  let proj_r := x r * (x n / sqrt (dot n n)) + y r * (y n / sqrt (dot n n))
                + z r * (z n / sqrt (dot n n)) in
  let rt :=
    make_scalar3 (x r - proj_r * (x n / sqrt (dot n n)))
                 (y r - proj_r * (y n / sqrt (dot n n)))
                 (z r - proj_r * (z n / sqrt (dot n n))) in
  let bd := RATTLELangevin.bd_force UniformDistribution scalar_as_int m timestep pd j in
  let pd' :=
    fst (RATTLELangevin.stepTwo_particle UniformDistribution NormalDistribution
           scalar_as_int EPSILON body_angular_velocity rotate m timestep (pd, e) j) in
  RATTLELangevin.particle_gamma scalar_as_int m pd j = gamma /\
  (kT > 0 ->
     bd = make_scalar3 (x rt * coeff - gamma * x4 v) (y rt * coeff - gamma * y4 v)
                       (z rt * coeff - gamma * z4 v) /\
     (dot n n > 0 -> dot rt n = 0)) /\
  (kT <= 0 ->
     bd = make_scalar3 (- (gamma * x4 v)) (- (gamma * y4 v)) (- (gamma * z4 v))) /\
  h_accel pd' j
  = make_scalar3 ((x4 f + x bd) * (1 / w4 v)) ((y4 f + y bd) * (1 / w4 v))
                 ((z4 f + z bd) * (1 / w4 v)).
Proof.
  intros kT gamma n v f r coeff proj_r rt bd pd'.
  assert (Hg : RATTLELangevin.particle_gamma scalar_as_int m pd j = gamma) by reflexivity.
  split; [exact Hg|]. split; [|split].
  - intros HT. split.
    + subst bd. unfold RATTLELangevin.bd_force, RATTLELangevin.random_force.
      fold kT. destruct (Rgt_dec kT 0) as [_|Hn]; [|contradiction].
      rewrite Hg. fold n.
      subst rt proj_r r.
      destruct (RATTLELangevin.uniform_draws UniformDistribution
                  (RATTLELangevin.particle_rng m timestep pd j)) as [r0 rng0].
      cbn [fst x y z]. reflexivity.
    + intros Hn.
      assert (Hs : sqrt (dot n n) * sqrt (dot n n) = dot n n) by (apply sqrt_sqrt; lra).
      assert (Hs0 : sqrt (dot n n) <> 0).
      { intros E. rewrite E in Hs. lra. }
      subst rt proj_r. unfold dot at 1. cbn [x y z].
      set (s := sqrt (dot n n)) in *.
      replace ((x r - (x r * (x n / s) + y r * (y n / s) + z r * (z n / s)) * (x n / s)) * x n
               + (y r - (x r * (x n / s) + y r * (y n / s) + z r * (z n / s)) * (y n / s)) * y n
               + (z r - (x r * (x n / s) + y r * (y n / s) + z r * (z n / s)) * (z n / s)) * z n)
        with ((x r * x n + y r * y n + z r * z n) * (1 - dot n n / (s * s)))
        by (unfold dot; field; exact Hs0).
      rewrite Hs. unfold Rdiv. rewrite Rinv_r by lra. ring.
  - intros HT. subst bd. unfold RATTLELangevin.bd_force, RATTLELangevin.random_force.
    fold kT. destruct (Rgt_dec kT 0) as [Hp|_]; [lra|].
    rewrite Hg. cbv beta iota zeta. cbn [x y z]. subst v. f_equal; ring.
  - subst pd' bd. unfold RATTLELangevin.stepTwo_particle, RATTLELangevin.bd_force.
    fold kT.
    destruct (RATTLELangevin.random_force UniformDistribution scalar_as_int m kT pd j
                (RATTLELangevin.particle_rng m timestep pd j)) as [[r0 c0] rng0].
    rewrite Hg.
    destruct (RATTLELangevin.m_aniso m); cbn [fst].
    + unfold RATTLELangevin.noise_torque.
      match goal with |- context [if ?c then _ else _] => destruct c end;
        repeat match goal with
               | |- context [NormalDistribution ?a ?b] => destruct (NormalDistribution a b)
               end;
        cbn [h_accel set_net_torque set_vel set_accel]; rewrite upd_same; reflexivity.
    + cbn [h_accel set_net_torque set_vel set_accel]. rewrite upd_same. reflexivity.
Qed.


Lemma particle_fields (pitch : nat) (pdA pdB : ParticleData) (jA jB : nat) :
  particle pitch pdA jA = particle pitch pdB jB ->
  h_pos pdA jA = h_pos pdB jB /\ h_vel pdA jA = h_vel pdB jB /\
  h_accel pdA jA = h_accel pdB jB /\ h_image pdA jA = h_image pdB jB /\
  h_orientation pdA jA = h_orientation pdB jB /\ h_angmom pdA jA = h_angmom pdB jB /\
  h_net_force pdA jA = h_net_force pdB jB /\
  p_virial (particle pitch pdA jA) = p_virial (particle pitch pdB jB) /\
  h_net_torque pdA jA = h_net_torque pdB jB /\ h_inertia pdA jA = h_inertia pdB jB /\
  h_diameter pdA jA = h_diameter pdB jB /\ h_tag pdA jA = h_tag pdB jB.
Proof.
  intros H.
  repeat split;
    [ exact (f_equal p_pos H) | exact (f_equal p_vel H) | exact (f_equal p_accel H)
    | exact (f_equal p_image H) | exact (f_equal p_orientation H)
    | exact (f_equal p_angmom H) | exact (f_equal p_net_force H)
    | exact (f_equal p_virial H) | exact (f_equal p_net_torque H)
    | exact (f_equal p_inertia H) | exact (f_equal p_diameter H)
    | exact (f_equal p_tag H) ].
Qed.

Lemma particle_same (a b : Particle) :
  p_pos a = p_pos b -> p_vel a = p_vel b -> p_accel a = p_accel b ->
  p_image a = p_image b -> p_orientation a = p_orientation b -> p_angmom a = p_angmom b ->
  p_net_force a = p_net_force b -> p_virial a = p_virial b ->
  p_net_torque a = p_net_torque b -> p_inertia a = p_inertia b ->
  p_diameter a = p_diameter b -> p_tag a = p_tag b -> a = b.
Proof.
  destruct a, b. cbn. intros. subst. reflexivity.
Qed.

Section StreamCPU.

Variables U1 U2 : Scalar -> Scalar -> RandomGenerator -> Scalar * RandomGenerator.
Variables N1 N2 : Scalar -> RandomGenerator -> Scalar * RandomGenerator.
Variable scalar_as_int : Scalar -> nat.
Variable EPSILON : Scalar.
Variable body_angular_velocity : Scalar4 -> Scalar4 -> Scalar3.
Variable rotate : Scalar4 -> Scalar3 -> Scalar3.
Variable key : RNGIdentifier * Z * Z * Z.
Hypothesis HU : uniform_agree_on key U1 U2.
Hypothesis HN : normal_agree_on key N1 N2.

Lemma uniform_draws_agree (g : RandomGenerator) :
  rng_stream g = key ->
  RATTLELangevin.uniform_draws U1 g = RATTLELangevin.uniform_draws U2 g /\
  rng_stream (snd (RATTLELangevin.uniform_draws U1 g)) = key.
Proof.
  intros Hg. unfold RATTLELangevin.uniform_draws.
  pose proof HU as HU'. unfold uniform_agree_on in HU'.
  destruct (HU' (-1) 1 g Hg) as [E K]. rewrite <- E.
  destruct (U1 (-1) 1 g) as [rx g1]. cbn [snd] in K.
  destruct (HU' (-1) 1 g1 K) as [E1 K1]. rewrite <- E1.
  destruct (U1 (-1) 1 g1) as [ry g2]. cbn [snd] in K1.
  destruct (HU' (-1) 1 g2 K1) as [E2 K2]. rewrite <- E2.
  destruct (U1 (-1) 1 g2) as [rz g3]. cbn [snd] in K2.
  split; [reflexivity|exact K2].
Qed.

Lemma random_force_agree (m : RATTLELangevin.t) (currentTemp : Scalar)
  (pdA pdB : ParticleData) (jA jB : nat) (g : RandomGenerator) :
  h_pos pdA jA = h_pos pdB jB -> h_diameter pdA jA = h_diameter pdB jB ->
  rng_stream g = key ->
  RATTLELangevin.random_force U1 scalar_as_int m currentTemp pdA jA g
  = RATTLELangevin.random_force U2 scalar_as_int m currentTemp pdB jB g /\
  rng_stream (snd (RATTLELangevin.random_force U1 scalar_as_int m currentTemp pdA jA g)) = key.
Proof.
  intros Hp Hd Hg.
  unfold RATTLELangevin.random_force, RATTLELangevin.particle_gamma,
    RATTLELangevin.particle_normal.
  rewrite Hp, Hd.
  destruct (Rgt_dec currentTemp 0) as [Hgt|Hle]; [|split; [reflexivity|exact Hg]].
  destruct (uniform_draws_agree Hg) as [E K]. rewrite <- E.
  destruct (RATTLELangevin.uniform_draws U1 g) as [dir g1]. cbn [snd] in K |- *.
  split; [reflexivity|exact K].
Qed.

Lemma noise_torque_agree (pitch : nat) (m : RATTLELangevin.t) (currentTemp : Scalar)
  (pdA pdB : ParticleData) (jA jB : nat) (g : RandomGenerator) :
  particle pitch pdA jA = particle pitch pdB jB ->
  rng_stream g = key ->
  particle pitch
    (RATTLELangevin.noise_torque N1 scalar_as_int EPSILON body_angular_velocity rotate
       m currentTemp pdA jA g) jA
  = particle pitch
      (RATTLELangevin.noise_torque N2 scalar_as_int EPSILON body_angular_velocity rotate
         m currentTemp pdB jB g) jB.
Proof.
  intros H Hg.
  destruct (particle_fields H)
    as (Hpos & Hvel & Hacc & Him & Hor & Ham & Hnf & Hvir & Hnt & Hin & Hdi & Htag).
  pose proof HN as HN'. unfold normal_agree_on in HN'.
  unfold RATTLELangevin.noise_torque.
  rewrite Hpos, Hor, Ham, Hin, Hnt.
  match goal with |- context [if ?c then _ else _] => destruct c end; [|exact H].
  match goal with |- context [N1 ?s g] =>
    destruct (HN' s g Hg) as [E K]; rewrite <- E; destruct (N1 s g) as [rand_x g1] end.
  cbn [snd] in K.
  match goal with |- context [N1 ?s g1] =>
    destruct (HN' s g1 K) as [E1 K1]; rewrite <- E1; destruct (N1 s g1) as [rand_y g2] end.
  cbn [snd] in K1.
  match goal with |- context [N1 ?s g2] =>
    destruct (HN' s g2 K1) as [E2 K2]; rewrite <- E2; destruct (N1 s g2) as [rand_z g3] end.
  apply particle_same; cbn [particle p_pos p_vel p_accel p_image p_orientation p_angmom
    p_net_force p_virial p_net_torque p_inertia p_diameter p_tag
    h_pos h_vel h_accel h_image h_orientation h_angmom h_net_force h_net_virial
    h_net_torque h_inertia h_diameter h_tag set_net_torque];
    rewrite ?upd_same; try assumption; try reflexivity.
Qed.

Lemma langevin_stepTwo_agree (pitch : nat) (m : RATTLELangevin.t) (timestep : Z)
  (pdA pdB : ParticleData) (eA eB : Scalar) (jA jB : nat) :
  particle pitch pdA jA = particle pitch pdB jB ->
  key = (TwoStepLangevin, RATTLELangevin.m_seed m, Z.of_nat (h_tag pdA jA), timestep) ->
  let rA := RATTLELangevin.stepTwo_particle U1 N1 scalar_as_int EPSILON body_angular_velocity
              rotate m timestep (pdA, eA) jA in
  let rB := RATTLELangevin.stepTwo_particle U2 N2 scalar_as_int EPSILON body_angular_velocity
              rotate m timestep (pdB, eB) jB in
  particle pitch (fst rA) jA = particle pitch (fst rB) jB /\ snd rA - eA = snd rB - eB.
Proof.
  intros H Hkey. cbv zeta.
  destruct (particle_fields H)
    as (Hpos & Hvel & Hacc & Him & Hor & Ham & Hnf & Hvir & Hnt & Hin & Hdi & Htag).
  assert (Hg : rng_stream (RATTLELangevin.particle_rng m timestep pdA jA) = key)
    by (rewrite Hkey; reflexivity).
  assert (Hrng : RATTLELangevin.particle_rng m timestep pdA jA
                 = RATTLELangevin.particle_rng m timestep pdB jB)
    by (unfold RATTLELangevin.particle_rng; rewrite Htag; reflexivity).
  unfold RATTLELangevin.stepTwo_particle.
  destruct (@random_force_agree m (RATTLELangevin.m_T m timestep) pdA pdB jA jB
              (RATTLELangevin.particle_rng m timestep pdA jA) Hpos Hdi Hg) as [E K].
  rewrite <- Hrng, <- E.
  destruct (RATTLELangevin.random_force U1 scalar_as_int m (RATTLELangevin.m_T m timestep)
              pdA jA (RATTLELangevin.particle_rng m timestep pdA jA)) as [[dir coeff] g1].
  cbn [snd] in K. cbv zeta.
  unfold RATTLELangevin.particle_gamma, RATTLELangevin.particle_normal.
  cbn [h_vel h_accel h_pos h_net_force h_diameter set_accel set_vel].
  rewrite !upd_same. rewrite Hpos, Hvel, Hnf, Hdi.
  match goal with
  | |- particle pitch (fst (if _ then RATTLELangevin.noise_torque _ _ _ _ _ _ _ ?pa jA _
                            else _, _)) jA = _ /\ _ =>
      set (pd1A := pa)
  end.
  match goal with
  | |- _ = particle pitch (fst (if _ then RATTLELangevin.noise_torque _ _ _ _ _ _ _ ?pb jB _
                                else _, _)) jB /\ _ =>
      set (pd1B := pb)
  end.
  assert (Hview : particle pitch pd1A jA = particle pitch pd1B jB).
  { subst pd1A pd1B.
    apply particle_same; cbn [particle p_pos p_vel p_accel p_image p_orientation p_angmom
      p_net_force p_virial p_net_torque p_inertia p_diameter p_tag
      h_pos h_vel h_accel h_image h_orientation h_angmom h_net_force h_net_virial
      h_net_torque h_inertia h_diameter h_tag set_accel set_vel];
      rewrite ?upd_same; try assumption; try reflexivity. }
  split.
  - cbn [fst]. destruct (RATTLELangevin.m_aniso m); [|exact Hview].
    apply noise_torque_agree; assumption.
  - cbn [snd]. destruct (RATTLELangevin.m_tally m); ring.
Qed.

Lemma langevin_stepTwo_view_frame (pitch : nat) (m : RATTLELangevin.t) (timestep : Z)
  (pd : ParticleData) (e : Scalar) (j i : nat) :
  i <> j ->
  particle pitch
    (fst (RATTLELangevin.stepTwo_particle U1 N1 scalar_as_int EPSILON body_angular_velocity
            rotate m timestep (pd, e) j)) i
  = particle pitch pd i.
Proof.
  intros Hne. unfold RATTLELangevin.stepTwo_particle.
  destruct (RATTLELangevin.random_force _ _ _ _ _ _ _) as [[dir coeff] g1].
  cbv zeta. cbn [fst].
  match goal with
  | |- particle pitch (if _ then RATTLELangevin.noise_torque _ _ _ _ _ _ _ ?pa j _ else _) i = _ =>
      set (pd1 := pa)
  end.
  assert (H1 : particle pitch pd1 i = particle pitch pd i).
  { subst pd1.
    apply particle_same; cbn [particle p_pos p_vel p_accel p_image p_orientation p_angmom
      p_net_force p_virial p_net_torque p_inertia p_diameter p_tag
      h_pos h_vel h_accel h_image h_orientation h_angmom h_net_force h_net_virial
      h_net_torque h_inertia h_diameter h_tag set_accel set_vel];
      repeat rewrite (upd_other _ _ Hne); reflexivity. }
  destruct (RATTLELangevin.m_aniso m); [|exact H1].
  rewrite <- H1. unfold RATTLELangevin.noise_torque.
  match goal with |- context [if ?c then _ else _] => destruct c end; [|reflexivity].
  repeat match goal with
         | |- context [N1 ?s ?g] => destruct (N1 s g)
         end.
  apply particle_same; cbn [particle p_pos p_vel p_accel p_image p_orientation p_angmom
    p_net_force p_virial p_net_torque p_inertia p_diameter p_tag
    h_pos h_vel h_accel h_image h_orientation h_angmom h_net_force h_net_virial
    h_net_torque h_inertia h_diameter h_tag set_net_torque];
    repeat rewrite (upd_other _ _ Hne); reflexivity.
Qed.

Lemma langevin_stepTwo_loop_view_frame (pitch : nat) (m : RATTLELangevin.t) (timestep : Z)
  (l : list nat) (pd : ParticleData) (e : Scalar) (i : nat) :
  ~ In i l ->
  particle pitch
    (fst (fold_left
            (RATTLELangevin.stepTwo_particle U1 N1 scalar_as_int EPSILON
               body_angular_velocity rotate m timestep) l (pd, e))) i
  = particle pitch pd i.
Proof.
  revert pd e. induction l as [|j l IH]; intros pd e Hi; [reflexivity|].
  cbn [fold_left].
  destruct (RATTLELangevin.stepTwo_particle U1 N1 scalar_as_int EPSILON body_angular_velocity
              rotate m timestep (pd, e) j) as [pd1 e1] eqn:E.
  rewrite IH by (intros H; apply Hi; now right).
  replace pd1 with (fst (RATTLELangevin.stepTwo_particle U1 N1 scalar_as_int EPSILON
                           body_angular_velocity rotate m timestep (pd, e) j))
    by (rewrite E; reflexivity).
  apply langevin_stepTwo_view_frame. intros ->. apply Hi. now left.
Qed.

End StreamCPU.

Section StreamGPU.

Variables N1 N2 : Scalar -> RandomGenerator -> Scalar * RandomGenerator.
Variable scalar_as_int : Scalar -> nat.
Variable wrap : Scalar4 -> int3 -> Scalar4 * int3.
Variable EPSILON : Scalar.
Variable rotate : Scalar4 -> Scalar3 -> Scalar3.
Variable advance_orientation : Scalar -> Scalar3 -> Scalar3 -> Scalar3 -> Scalar4 -> Scalar4.
Variable angmom_of : Scalar4 -> Scalar3 -> Scalar4.
Variable key : RNGIdentifier * Z * Z * Z.
Hypothesis HN : normal_agree_on key N1 N2.

Lemma draw_velocity_agree (T_ mass : Scalar) (g : RandomGenerator) :
  rng_stream g = key ->
  RATTLEBDGPU.draw_velocity N1 T_ mass g = RATTLEBDGPU.draw_velocity N2 T_ mass g /\
  rng_stream (snd (RATTLEBDGPU.draw_velocity N1 T_ mass g)) = key.
Proof.
  intros Hg. pose proof HN as HN'. unfold normal_agree_on in HN'.
  unfold RATTLEBDGPU.draw_velocity. cbv zeta.
  destruct (HN' (sqrt (T_ / mass)) g Hg) as [E K]. rewrite <- E.
  destruct (N1 (sqrt (T_ / mass)) g) as [vx g1]. cbn [snd] in K.
  destruct (HN' (sqrt (T_ / mass)) g1 K) as [E1 K1]. rewrite <- E1.
  destruct (N1 (sqrt (T_ / mass)) g1) as [vy g2]. cbn [snd] in K1.
  destruct (HN' (sqrt (T_ / mass)) g2 K1) as [E2 K2]. rewrite <- E2.
  destruct (N1 (sqrt (T_ / mass)) g2) as [vz g3]. cbn [snd] in K2.
  split; [reflexivity|exact K2].
Qed.

Lemma rotational_updates_agree (pitch : nat) (d_gamma_r : nat -> Scalar3)
  (d_noiseless_r : bool) (args : RATTLEBDGPU.rattle_bd_step_one_args) (deltaT : Scalar)
  (D : nat) (pdA pdB : ParticleData) (idxA idxB : nat) (g : RandomGenerator) :
  particle pitch pdA idxA = particle pitch pdB idxB ->
  rng_stream g = key ->
  particle pitch
    (RATTLEBDGPU.rotational_updates N1 scalar_as_int EPSILON rotate advance_orientation
       angmom_of d_gamma_r d_noiseless_r args deltaT D idxA g pdA) idxA
  = particle pitch
      (RATTLEBDGPU.rotational_updates N2 scalar_as_int EPSILON rotate advance_orientation
         angmom_of d_gamma_r d_noiseless_r args deltaT D idxB g pdB) idxB.
Proof.
  intros H Hg.
  destruct (particle_fields H)
    as (Hpos & Hvel & Hacc & Him & Hor & Ham & Hnf & Hvir & Hnt & Hin & Hdi & Htag).
  pose proof HN as HN'. unfold normal_agree_on in HN'.
  unfold RATTLEBDGPU.rotational_updates.
  rewrite Hpos, Hor, Hin, Hnt.
  match goal with |- context [if ?c then _ else _] => destruct c end; [|exact H].
  cbv zeta.
  match goal with |- context [N1 ?s g] =>
    destruct (HN' s g Hg) as [E K]; rewrite <- E; destruct (N1 s g) as [bf_x g1] end.
  cbn [snd] in K.
  match goal with |- context [N1 ?s g1] =>
    destruct (HN' s g1 K) as [E1 K1]; rewrite <- E1; destruct (N1 s g1) as [bf_y g2] end.
  cbn [snd] in K1.
  match goal with |- context [N1 ?s g2] =>
    destruct (HN' s g2 K1) as [E2 K2]; rewrite <- E2; destruct (N1 s g2) as [bf_z g3] end.
  cbn [snd] in K2.
  match goal with |- context [N1 ?s g3] =>
    destruct (HN' s g3 K2) as [E3 K3]; rewrite <- E3; destruct (N1 s g3) as [p_x g4] end.
  cbn [snd] in K3.
  match goal with |- context [N1 ?s g4] =>
    destruct (HN' s g4 K3) as [E4 K4]; rewrite <- E4; destruct (N1 s g4) as [p_y g5] end.
  cbn [snd] in K4.
  match goal with |- context [N1 ?s g5] =>
    destruct (HN' s g5 K4) as [E5 K5]; rewrite <- E5; destruct (N1 s g5) as [p_z g6] end.
  apply particle_same; cbn [particle p_pos p_vel p_accel p_image p_orientation p_angmom
    p_net_force p_virial p_net_torque p_inertia p_diameter p_tag
    h_pos h_vel h_accel h_image h_orientation h_angmom h_net_force h_net_virial
    h_net_torque h_inertia h_diameter h_tag set_orientation set_angmom];
    rewrite ?upd_same; try assumption; try reflexivity.
Qed.

Lemma kernel_agree (pitch : nat) (d_gamma_r : nat -> Scalar3) (d_noiseless_r : bool)
  (args : RATTLEBDGPU.rattle_bd_step_one_args)
  (rtagA rtagB tagsA tagsB : nat -> nat) (nworkA nworkB : nat)
  (d_f_brownian : nat -> Scalar3) (aniso : bool) (deltaT : Scalar) (D : nat)
  (offsetA offsetB : nat) (thA thB : RATTLEBDGPU.thread) (pdA pdB : ParticleData) :
  let tagA := tagsA (RATTLEBDGPU.group_idx thA offsetA) in
  let tagB := tagsB (RATTLEBDGPU.group_idx thB offsetB) in
  (RATTLEBDGPU.local_idx thA < nworkA)%nat ->
  (RATTLEBDGPU.local_idx thB < nworkB)%nat ->
  tagA = tagB ->
  particle pitch pdA (rtagA tagA) = particle pitch pdB (rtagB tagB) ->
  key = (TwoStepBD, RATTLEBDGPU.seed args, Z.of_nat tagA, RATTLEBDGPU.timestep args) ->
  particle pitch
    (RATTLEBDGPU.gpu_rattle_brownian_step_one_kernel N1 scalar_as_int wrap
       (RATTLEBDGPU.rotational_updates N1 scalar_as_int EPSILON rotate advance_orientation
          angmom_of d_gamma_r d_noiseless_r)
       args rtagA tagsA nworkA d_f_brownian aniso deltaT D offsetA thA pdA) (rtagA tagA)
  = particle pitch
      (RATTLEBDGPU.gpu_rattle_brownian_step_one_kernel N2 scalar_as_int wrap
         (RATTLEBDGPU.rotational_updates N2 scalar_as_int EPSILON rotate advance_orientation
            angmom_of d_gamma_r d_noiseless_r)
         args rtagB tagsB nworkB d_f_brownian aniso deltaT D offsetB thB pdB) (rtagB tagB).
Proof.
  intros tagA tagB HA HB Htag H Hkey.
  destruct (particle_fields H)
    as (Hpos & Hvel & Hacc & Him & Hor & Ham & Hnf & Hvir & Hnt & Hin & Hdi & Htg).
  unfold RATTLEBDGPU.gpu_rattle_brownian_step_one_kernel.
  rewrite (proj2 (Nat.ltb_lt _ _) HA), (proj2 (Nat.ltb_lt _ _) HB).
  cbv zeta. fold tagA tagB.
  assert (Hg : rng_stream (RATTLEBDGPU.thread_rng args tagsA offsetA thA) = key)
    by (rewrite Hkey; reflexivity).
  assert (Hrng : RATTLEBDGPU.thread_rng args tagsB offsetB thB
                 = RATTLEBDGPU.thread_rng args tagsA offsetA thA).
  { unfold RATTLEBDGPU.thread_rng. fold tagA tagB. rewrite Htag. reflexivity. }
  assert (Hbf : d_f_brownian tagB = d_f_brownian tagA) by (rewrite Htag; reflexivity).
  rewrite Hrng. rewrite Hpos, Hvel, Hnf, Him, Hdi, Hbf.
  destruct (wrap _ _) as [postype image].
  destruct (@draw_velocity_agree (RATTLEBDGPU.T args) (w4 (h_vel pdB (rtagB tagB)))
              (RATTLEBDGPU.thread_rng args tagsA offsetA thA) Hg) as [E K].
  rewrite <- E.
  destruct (RATTLEBDGPU.draw_velocity N1 _ _ _) as [v g1]. cbn [snd] in K.
  match goal with
  | |- particle pitch (if aniso then RATTLEBDGPU.rotational_updates _ _ _ _ _ _ _ _ _ _ _ _ _ ?pa
                       else _) _ = _ => set (pd1A := pa)
  end.
  match goal with
  | |- _ = particle pitch (if aniso then RATTLEBDGPU.rotational_updates _ _ _ _ _ _ _ _ _ _ _ _ _ ?pb
                           else _) _ => set (pd1B := pb)
  end.
  assert (Hview : particle pitch pd1A (rtagA tagA) = particle pitch pd1B (rtagB tagB)).
  { subst pd1A pd1B.
    apply particle_same; cbn [particle p_pos p_vel p_accel p_image p_orientation p_angmom
      p_net_force p_virial p_net_torque p_inertia p_diameter p_tag
      h_pos h_vel h_accel h_image h_orientation h_angmom h_net_force h_net_virial
      h_net_torque h_inertia h_diameter h_tag set_pos set_vel set_image];
      rewrite ?upd_same; try assumption; try reflexivity. }
  destruct aniso; [|exact Hview].
  apply rotational_updates_agree; assumption.
Qed.

End StreamGPU.

Lemma langevin_stepTwo_set_group
  (U : Scalar -> Scalar -> RandomGenerator -> Scalar * RandomGenerator)
  (N : Scalar -> RandomGenerator -> Scalar * RandomGenerator)
  (scalar_as_int : Scalar -> nat) (EPSILON : Scalar)
  (body_angular_velocity : Scalar4 -> Scalar4 -> Scalar3)
  (rotate : Scalar4 -> Scalar3 -> Scalar3)
  (m : RATTLELangevin.t) (group : ParticleGroup) (timestep : Z) (l : list nat)
  (acc : ParticleData * Scalar) :
  fold_left (RATTLELangevin.stepTwo_particle U N scalar_as_int EPSILON body_angular_velocity
               rotate (RATTLELangevin.set_group m group) timestep) l acc
  = fold_left (RATTLELangevin.stepTwo_particle U N scalar_as_int EPSILON body_angular_velocity
                 rotate m timestep) l acc.
Proof.
  revert acc. induction l as [|j l IH]; intros acc; [reflexivity|].
  cbn [fold_left]. rewrite IH. reflexivity.
Qed.

Lemma langevin_loop_agree
  (U1 U2 : Scalar -> Scalar -> RandomGenerator -> Scalar * RandomGenerator)
  (N1 N2 : Scalar -> RandomGenerator -> Scalar * RandomGenerator)
  (scalar_as_int : Scalar -> nat) (EPSILON : Scalar)
  (body_angular_velocity : Scalar4 -> Scalar4 -> Scalar3)
  (rotate : Scalar4 -> Scalar3 -> Scalar3)
  (pitch : nat) (m : RATTLELangevin.t) (timestep : Z) (l1 l2 : list nat)
  (pd1 pd2 : ParticleData) (e1 e2 : Scalar) (j1 j2 : nat) :
  NoDup l1 -> NoDup l2 -> In j1 l1 -> In j2 l2 ->
  particle pitch pd1 j1 = particle pitch pd2 j2 ->
  uniform_agree_on
    (TwoStepLangevin, RATTLELangevin.m_seed m, Z.of_nat (h_tag pd1 j1), timestep) U1 U2 ->
  normal_agree_on
    (TwoStepLangevin, RATTLELangevin.m_seed m, Z.of_nat (h_tag pd1 j1), timestep) N1 N2 ->
  particle pitch
    (fst (fold_left (RATTLELangevin.stepTwo_particle U1 N1 scalar_as_int EPSILON
                       body_angular_velocity rotate m timestep) l1 (pd1, e1))) j1
  = particle pitch
      (fst (fold_left (RATTLELangevin.stepTwo_particle U2 N2 scalar_as_int EPSILON
                         body_angular_velocity rotate m timestep) l2 (pd2, e2))) j2.
Proof.
  intros Hnd1 Hnd2 Hin1 Hin2 H HU HN.
  destruct (in_split _ _ Hin1) as (a1 & b1 & ->).
  destruct (in_split _ _ Hin2) as (a2 & b2 & ->).
  apply NoDup_remove_2 in Hnd1. apply NoDup_remove_2 in Hnd2.
  assert (Ha1 : ~ In j1 a1) by (intros X; apply Hnd1, in_or_app; now left).
  assert (Hb1 : ~ In j1 b1) by (intros X; apply Hnd1, in_or_app; now right).
  assert (Ha2 : ~ In j2 a2) by (intros X; apply Hnd2, in_or_app; now left).
  assert (Hb2 : ~ In j2 b2) by (intros X; apply Hnd2, in_or_app; now right).
  rewrite !fold_left_app. cbn [fold_left].
  pose proof (@langevin_stepTwo_loop_view_frame U1 N1 scalar_as_int EPSILON
                body_angular_velocity rotate pitch m timestep a1 pd1 e1 j1 Ha1) as F1.
  pose proof (@langevin_stepTwo_loop_view_frame U2 N2 scalar_as_int EPSILON
                body_angular_velocity rotate pitch m timestep a2 pd2 e2 j2 Ha2) as F2.
  destruct (fold_left _ a1 (pd1, e1)) as [pA eA].
  destruct (fold_left _ a2 (pd2, e2)) as [pB eB].
  cbn [fst] in F1, F2.
  assert (Hmid : particle pitch pA j1 = particle pitch pB j2)
    by (rewrite F1, F2; exact H).
  assert (Htag : h_tag pA j1 = h_tag pd1 j1) by exact (f_equal p_tag F1).
  pose proof (@langevin_stepTwo_agree U1 U2 N1 N2 scalar_as_int EPSILON body_angular_velocity
                rotate _ HU HN pitch m timestep pA pB eA eB j1 j2 Hmid) as Hstep.
  cbv zeta in Hstep. rewrite Htag in Hstep. destruct (Hstep eq_refl) as [Hs _].
  destruct (RATTLELangevin.stepTwo_particle U1 N1 scalar_as_int EPSILON body_angular_velocity
              rotate m timestep (pA, eA) j1) as [pA' eA'].
  destruct (RATTLELangevin.stepTwo_particle U2 N2 scalar_as_int EPSILON body_angular_velocity
              rotate m timestep (pB, eB) j2) as [pB' eB'].
  cbn [fst] in Hs.
  rewrite (@langevin_stepTwo_loop_view_frame U1 N1 scalar_as_int EPSILON
             body_angular_velocity rotate pitch m timestep b1 pA' eA' j1 Hb1).
  rewrite (@langevin_stepTwo_loop_view_frame U2 N2 scalar_as_int EPSILON
             body_angular_velocity rotate pitch m timestep b2 pB' eB' j2 Hb2).
  exact Hs.
Qed.

Lemma langevin_integrateStepTwo_loop
  (U : Scalar -> Scalar -> RandomGenerator -> Scalar * RandomGenerator)
  (N : Scalar -> RandomGenerator -> Scalar * RandomGenerator)
  (scalar_as_int : Scalar -> nat) (EPSILON : Scalar)
  (body_angular_velocity : Scalar4 -> Scalar4 -> Scalar3)
  (rotate : Scalar4 -> Scalar3 -> Scalar3)
  (angular_step_two : Scalar -> ParticleData -> nat -> ParticleData)
  (allreduce_sum : Scalar -> Scalar) (have_comm : bool)
  (m : RATTLELangevin.t) (timestep : Z) (pd : ParticleData) :
  RATTLELangevin.m_aniso m = false ->
  snd (RATTLELangevin.integrateStepTwo U N scalar_as_int EPSILON body_angular_velocity rotate
         angular_step_two allreduce_sum have_comm m timestep pd)
  = fst (fold_left
           (RATTLELangevin.stepTwo_particle U N scalar_as_int EPSILON body_angular_velocity
              rotate m timestep)
           (members (RATTLELangevin.m_group m)) (pd, 0)).
Proof.
  intros Ha. unfold RATTLELangevin.integrateStepTwo.
  destruct (fold_left _ _ (pd, 0)) as [pd0 e]. rewrite Ha.
  destruct (RATTLELangevin.m_tally m); reflexivity.
Qed.

(** C8.  The noise of a particle depends on the random-number library only
    through the stream whose constructor arguments are the method's
    identifier, the user seed, the particle's tag and the time step, and not
    on where the particle sits in the arrays.  Take two runs whose
    distributions draw the same values from the generators of that stream
    and may differ on every other generator.  (1) If a particle has the same
    entries at index [j1] of one store and at index [j2] of another, the
    body of the first loop of Langevin [integrateStepTwo] leaves the same
    entries for it (the acceleration and velocity with the random force,
    the net torque with the random torque) and tallies the same energy.
    (2) Without rotational coupling the same holds for the whole of
    [integrateStepTwo], for any two listings of the group and whatever the
    other particles are.  (3) If two threads of the Brownian step-one
    kernel, in any block and at any offset, work on the same tag and find
    the same entries for it, they leave the same entries for it: position,
    image and drawn velocity, and with rotational coupling the orientation
    and the drawn angular momentum. *)
Theorem noise_seeded_only_by_tag_stream :
  (forall (U1 U2 : Scalar -> Scalar -> RandomGenerator -> Scalar * RandomGenerator)
          (N1 N2 : Scalar -> RandomGenerator -> Scalar * RandomGenerator)
          (scalar_as_int : Scalar -> nat) (EPSILON : Scalar)
          (body_angular_velocity : Scalar4 -> Scalar4 -> Scalar3)
          (rotate : Scalar4 -> Scalar3 -> Scalar3)
          (pitch : nat) (m : RATTLELangevin.t) (timestep : Z)
          (pd1 pd2 : ParticleData) (e1 e2 : Scalar) (j1 j2 : nat),
     let key :=
       (TwoStepLangevin, RATTLELangevin.m_seed m, Z.of_nat (h_tag pd1 j1), timestep) in
     let r1 := RATTLELangevin.stepTwo_particle U1 N1 scalar_as_int EPSILON
                 body_angular_velocity rotate m timestep (pd1, e1) j1 in
     let r2 := RATTLELangevin.stepTwo_particle U2 N2 scalar_as_int EPSILON
                 body_angular_velocity rotate m timestep (pd2, e2) j2 in
     particle pitch pd1 j1 = particle pitch pd2 j2 ->
     uniform_agree_on key U1 U2 -> normal_agree_on key N1 N2 ->
     particle pitch (fst r1) j1 = particle pitch (fst r2) j2 /\
     snd r1 - e1 = snd r2 - e2) /\
  (forall (U1 U2 : Scalar -> Scalar -> RandomGenerator -> Scalar * RandomGenerator)
          (N1 N2 : Scalar -> RandomGenerator -> Scalar * RandomGenerator)
          (scalar_as_int : Scalar -> nat) (EPSILON : Scalar)
          (body_angular_velocity : Scalar4 -> Scalar4 -> Scalar3)
          (rotate : Scalar4 -> Scalar3 -> Scalar3)
          (angular_step_two : Scalar -> ParticleData -> nat -> ParticleData)
          (allreduce_sum : Scalar -> Scalar) (have_comm1 have_comm2 : bool)
          (pitch : nat) (m : RATTLELangevin.t) (group2 : ParticleGroup) (timestep : Z)
          (pd1 pd2 : ParticleData) (j1 j2 : nat),
     let key :=
       (TwoStepLangevin, RATTLELangevin.m_seed m, Z.of_nat (h_tag pd1 j1), timestep) in
     let run1 := RATTLELangevin.integrateStepTwo U1 N1 scalar_as_int EPSILON
                   body_angular_velocity rotate angular_step_two allreduce_sum have_comm1
                   m timestep pd1 in
     let run2 := RATTLELangevin.integrateStepTwo U2 N2 scalar_as_int EPSILON
                   body_angular_velocity rotate angular_step_two allreduce_sum have_comm2
                   (RATTLELangevin.set_group m group2) timestep pd2 in
     RATTLELangevin.m_aniso m = false ->
     NoDup (members (RATTLELangevin.m_group m)) -> NoDup (members group2) ->
     In j1 (members (RATTLELangevin.m_group m)) -> In j2 (members group2) ->
     particle pitch pd1 j1 = particle pitch pd2 j2 ->
     uniform_agree_on key U1 U2 -> normal_agree_on key N1 N2 ->
     particle pitch (snd run1) j1 = particle pitch (snd run2) j2) /\
  (forall (N1 N2 : Scalar -> RandomGenerator -> Scalar * RandomGenerator)
          (scalar_as_int : Scalar -> nat) (wrap : Scalar4 -> int3 -> Scalar4 * int3)
          (EPSILON : Scalar) (rotate : Scalar4 -> Scalar3 -> Scalar3)
          (advance_orientation : Scalar -> Scalar3 -> Scalar3 -> Scalar3 -> Scalar4 -> Scalar4)
          (angmom_of : Scalar4 -> Scalar3 -> Scalar4)
          (d_gamma_r : nat -> Scalar3) (d_noiseless_r : bool)
          (args : RATTLEBDGPU.rattle_bd_step_one_args)
          (d_rtag1 d_rtag2 d_groupTags1 d_groupTags2 : nat -> nat) (nwork1 nwork2 : nat)
          (d_f_brownian : nat -> Scalar3) (aniso : bool) (deltaT : Scalar) (D : nat)
          (offset1 offset2 : nat) (th1 th2 : RATTLEBDGPU.thread) (pitch : nat)
          (pd1 pd2 : ParticleData),
     let tag1 := d_groupTags1 (RATTLEBDGPU.group_idx th1 offset1) in
     let tag2 := d_groupTags2 (RATTLEBDGPU.group_idx th2 offset2) in
     let key := (TwoStepBD, RATTLEBDGPU.seed args, Z.of_nat tag1, RATTLEBDGPU.timestep args) in
     let run1 :=
       RATTLEBDGPU.gpu_rattle_brownian_step_one_kernel N1 scalar_as_int wrap
         (RATTLEBDGPU.rotational_updates N1 scalar_as_int EPSILON rotate advance_orientation
            angmom_of d_gamma_r d_noiseless_r)
         args d_rtag1 d_groupTags1 nwork1 d_f_brownian aniso deltaT D offset1 th1 pd1 in
     let run2 :=
       RATTLEBDGPU.gpu_rattle_brownian_step_one_kernel N2 scalar_as_int wrap
         (RATTLEBDGPU.rotational_updates N2 scalar_as_int EPSILON rotate advance_orientation
            angmom_of d_gamma_r d_noiseless_r)
         args d_rtag2 d_groupTags2 nwork2 d_f_brownian aniso deltaT D offset2 th2 pd2 in
     (RATTLEBDGPU.local_idx th1 < nwork1)%nat ->
     (RATTLEBDGPU.local_idx th2 < nwork2)%nat ->
     tag1 = tag2 ->
     particle pitch pd1 (d_rtag1 tag1) = particle pitch pd2 (d_rtag2 tag2) ->
     normal_agree_on key N1 N2 ->
     particle pitch run1 (d_rtag1 tag1) = particle pitch run2 (d_rtag2 tag2)).
Proof.
  split; [|split].
  - intros U1 U2 N1 N2 sai EPS bav rot pitch m timestep pd1 pd2 e1 e2 j1 j2 key r1 r2
      H HU HN.
    exact (@langevin_stepTwo_agree U1 U2 N1 N2 sai EPS bav rot key HU HN pitch m timestep
             pd1 pd2 e1 e2 j1 j2 H eq_refl).
  - intros U1 U2 N1 N2 sai EPS bav rot ang allred hc1 hc2 pitch m group2 timestep pd1 pd2
      j1 j2 key run1 run2 Ha Hnd1 Hnd2 Hin1 Hin2 H HU HN.
    subst run1 run2.
    rewrite (@langevin_integrateStepTwo_loop U1 N1 sai EPS bav rot ang allred hc1 m timestep
               pd1 Ha).
    rewrite (@langevin_integrateStepTwo_loop U2 N2 sai EPS bav rot ang allred hc2
               (RATTLELangevin.set_group m group2) timestep pd2 Ha).
    cbn [RATTLELangevin.m_group RATTLELangevin.set_group].
    rewrite langevin_stepTwo_set_group.
    exact (@langevin_loop_agree U1 U2 N1 N2 sai EPS bav rot pitch m timestep _ _ pd1 pd2 0 0
             j1 j2 Hnd1 Hnd2 Hin1 Hin2 H HU HN).
  - intros N1 N2 sai wrap EPS rot adv ang d_gamma_r noiseless args rtag1 rtag2 tags1 tags2
      nwork1 nwork2 d_f_brownian aniso deltaT D offset1 offset2 th1 th2 pitch pd1 pd2
      tag1 tag2 key run1 run2 H1 H2 Htag H HN.
    exact (@kernel_agree N1 N2 sai wrap EPS rot adv ang key HN pitch d_gamma_r noiseless args
             rtag1 rtag2 tags1 tags2 nwork1 nwork2 d_f_brownian aniso deltaT D offset1 offset2
             th1 th2 pd1 pd2 H1 H2 Htag H eq_refl).
Qed.

Lemma cx_uniform_agree (seed timestep : Z) (id : RNGIdentifier) :
  uniform_agree_on (id, seed, 0%Z, timestep) cx_uniform cx_uniform_off.
Proof.
  intros a b g Hg. unfold cx_uniform, cx_uniform_off. cbn [snd].
  split; [|exact Hg].
  assert (Ha : rng_a g = 0%Z) by (unfold rng_stream in Hg; congruence).
  rewrite Ha. reflexivity.
Qed.

Lemma cx_normal_agree (seed timestep : Z) (id : RNGIdentifier) :
  normal_agree_on (id, seed, 0%Z, timestep) cx_normal cx_normal_off.
Proof.
  intros sigma g Hg. unfold cx_normal, cx_normal_off. cbn [snd].
  split; [|exact Hg].
  assert (Ha : rng_a g = 0%Z) by (unfold rng_stream in Hg; congruence).
  rewrite Ha. reflexivity.
Qed.

Lemma noise_seeded_only_by_tag_stream_witness :
  let r1 := RATTLELangevin.stepTwo_particle cx_uniform cx_normal cx_scalar_as_int 0
              cx_body_angular_velocity cx_rotate cx_langevin 0 (cx_pdata, 0) 0%nat in
  let r2 := RATTLELangevin.stepTwo_particle cx_uniform_off cx_normal_off cx_scalar_as_int 0
              cx_body_angular_velocity cx_rotate cx_langevin 0 (cx_pdata_moved, 0) 1%nat in
  let k1 :=
    RATTLEBDGPU.gpu_rattle_brownian_step_one_kernel cx_normal cx_scalar_as_int cx_wrap
      (RATTLEBDGPU.rotational_updates cx_normal cx_scalar_as_int 0 cx_rotate
         cx_advance_orientation cx_angmom_of (fun _ => make_scalar3 1 1 1) false)
      cx_bd_args (fun tag => tag) (fun i => i) 2 (fun _ => make_scalar3 0 0 0) true 1 3
      0 (cx_thread 0) cx_pdata in
  let k2 :=
    RATTLEBDGPU.gpu_rattle_brownian_step_one_kernel cx_normal_off cx_scalar_as_int cx_wrap
      (RATTLEBDGPU.rotational_updates cx_normal_off cx_scalar_as_int 0 cx_rotate
         cx_advance_orientation cx_angmom_of (fun _ => make_scalar3 1 1 1) false)
      cx_bd_args (fun tag => (tag + 1)%nat) (fun i => (i - 1)%nat) 2
      (fun _ => make_scalar3 0 0 0) true 1 3 0 (cx_thread 1) cx_pdata_moved in
  particle 2 cx_pdata 0%nat = particle 2 cx_pdata_moved 1%nat /\
  particle 2 (fst r1) 0%nat = particle 2 (fst r2) 1%nat /\
  particle 2 k1 0%nat = particle 2 k2 1%nat.
Proof.
  cbv zeta.
  assert (Hview : particle 2 cx_pdata 0%nat = particle 2 cx_pdata_moved 1%nat) by reflexivity.
  destruct noise_seeded_only_by_tag_stream as (HA & _ & HC).
  split; [exact Hview|split].
  - refine (proj1 (HA cx_uniform cx_uniform_off cx_normal cx_normal_off cx_scalar_as_int 0
                      cx_body_angular_velocity cx_rotate 2%nat cx_langevin 0%Z
                      cx_pdata cx_pdata_moved 0 0 0%nat 1%nat Hview _ _)).
    + apply cx_uniform_agree.
    + apply cx_normal_agree.
  - refine (HC cx_normal cx_normal_off cx_scalar_as_int cx_wrap 0 cx_rotate
              cx_advance_orientation cx_angmom_of (fun _ => make_scalar3 1 1 1) false
              cx_bd_args (fun tag => tag) (fun tag => (tag + 1)%nat) (fun i => i)
              (fun i => (i - 1)%nat) 2%nat 2%nat (fun _ => make_scalar3 0 0 0) true 1 3%nat
              0%nat 0%nat (cx_thread 0) (cx_thread 1) 2%nat cx_pdata cx_pdata_moved
              _ _ _ Hview _).
    + cbn. lia.
    + cbn. lia.
    + reflexivity.
    + apply cx_normal_agree.
Defined.

(* ===================================================================== *)
(** * The scheduler *)
(* ===================================================================== *)

Lemma step_one_all_spec (deltaT : Scalar) (timestep : Z) (methods : list IntegrationMethodTwoStep) :
  step_one_all deltaT timestep methods
  = (map (fun method => method_setDeltaT method deltaT) methods,
     flat_map (fun method => [call_setDeltaT (method_id method) deltaT;
                              call_integrateStepOne (method_id method) timestep]) methods).
Proof.
  induction methods as [|method rest IH]; simpl; [reflexivity|].
  rewrite IH. reflexivity.
Qed.

Lemma filter_is_step_one (deltaT : Scalar) (timestep : Z) (methods : list IntegrationMethodTwoStep) :
  filter is_step
    (flat_map (fun method => [call_setDeltaT (method_id method) deltaT;
                              call_integrateStepOne (method_id method) timestep]) methods)
  = flat_map (fun method => [call_setDeltaT (method_id method) deltaT;
                             call_integrateStepOne (method_id method) timestep]) methods.
Proof. induction methods as [|method rest IH]; simpl; [reflexivity|]. now rewrite IH. Qed.

Lemma filter_is_step_two (timestep : Z) (methods : list IntegrationMethodTwoStep) :
  filter is_step (step_two_all timestep methods) = step_two_all timestep methods.
Proof.
  unfold step_two_all. induction methods as [|method rest IH]; simpl; [reflexivity|].
  now rewrite IH.
Qed.

Lemma filter_is_step_rigid (s : t) (timestep : Z) :
  filter is_step (updateRigidBodies s timestep) = updateRigidBodies s timestep.
Proof.
  unfold updateRigidBodies. induction (m_composite_forces s) as [|fc rest IH]; simpl;
    [reflexivity|]. now rewrite IH.
Qed.

(** C7.  After run preparation [update] returns and has, besides messages
    and profiling marks, made exactly these calls in this order: for every
    method in registration order [setDeltaT] with the scheduler's time step
    and then [integrateStepOne]; one communication at the next time step,
    or without a communicator the slaving of every composite force; one
    net-force computation at the next time step on the configured backend;
    the half-step hook at the next time step when one is set; for every
    method in registration order [integrateStepTwo].  The next time step is
    [timestep + 1] in unsigned arithmetic. *)
Theorem update_order (cfg : Config) (s : t) (timestep : Z) :
  m_prepared s = true ->
  let r := update cfg s timestep in
  let next := uint_add timestep 1 in
  snd r = returned /\
  filter is_step (snd (fst r))
  = flat_map (fun method => [call_setDeltaT (method_id method) (m_deltaT s);
                             call_integrateStepOne (method_id method) timestep])
             (m_methods s)
    ++ (if ENABLE_MPI cfg && m_comm s
        then [comm_communicate next]
        else map (fun fc => call_updateCompositeParticles fc next) (m_composite_forces s))
    ++ [if ENABLE_HIP cfg && isCUDAEnabled cfg
        then call_computeNetForceGPU next else call_computeNetForce next]
    ++ (if m_half_step_hook s then [half_step_hook_update next] else [])
    ++ map (fun method => call_integrateStepTwo (method_id method) timestep) (m_methods s) /\
  ((0 <= timestep < UINT_MAX)%Z -> next = (timestep + 1)%Z) /\
  m_methods (fst (fst r))
  = map (fun method => method_setDeltaT method (m_deltaT s)) (m_methods s).
Proof.
  intros Hprep r next. subst r. unfold update.
  assert (Hp : forall b : bool, m_prepared (if b then set_gave_warning s true else s) = true)
    by (intros b; destruct b; exact Hprep).
  rewrite Hp, andb_false_r.
  set (warn := negb (m_gave_warning s) && (List.length (m_methods s) =? 0)%nat).
  assert (Hs : forall b : bool,
             m_deltaT (if b then set_gave_warning s true else s) = m_deltaT s /\
             m_methods (if b then set_gave_warning s true else s) = m_methods s /\
             m_comm (if b then set_gave_warning s true else s) = m_comm s /\
             m_half_step_hook (if b then set_gave_warning s true else s) = m_half_step_hook s /\
             m_composite_forces (if b then set_gave_warning s true else s)
             = m_composite_forces s)
    by (intros b; destruct b; repeat split).
  destruct (Hs warn) as (H1 & H2 & H3 & H4 & H5).
  rewrite H1, H2, step_one_all_spec.
  cbn [fst snd set_methods m_comm m_half_step_hook m_methods m_prof].
  rewrite H3, H4.
  split; [reflexivity|]. split; [|split].
  - rewrite !filter_app, filter_is_step_one, filter_is_step_two.
    assert (Hw : filter is_step
                   (if warn
                    then [msg_warning "integrate.mode_standard: No integration methods are set, continuing anyways."]
                    else []) = []) by (destruct warn; reflexivity).
    rewrite Hw.
    assert (Hpush : forall b : bool, filter is_step (if b then [prof_push "Integrate"] else []) = [])
      by (intros b; destruct b; reflexivity).
    assert (Hpop : forall b : bool, filter is_step (if b then [prof_pop] else []) = [])
      by (intros b; destruct b; reflexivity).
    rewrite !Hpush, !Hpop. cbn [app].
    rewrite app_nil_r.
    assert (Hsync :
      filter is_step
        (if ENABLE_MPI cfg && m_comm s
         then [comm_communicate (uint_add timestep 1)]
         else updateRigidBodies
                (set_methods (if warn then set_gave_warning s true else s)
                   (map (fun method => method_setDeltaT method (m_deltaT s)) (m_methods s)))
                (uint_add timestep 1))
      = (if ENABLE_MPI cfg && m_comm s
         then [comm_communicate next]
         else map (fun fc => call_updateCompositeParticles fc next) (m_composite_forces s))).
    { destruct (ENABLE_MPI cfg && m_comm s); [reflexivity|].
      rewrite filter_is_step_rigid. unfold updateRigidBodies.
      cbn [m_composite_forces set_methods]. now rewrite H5. }
    assert (Hforce :
      filter is_step [net_force_call cfg (uint_add timestep 1)]
      = [if ENABLE_HIP cfg && isCUDAEnabled cfg
         then call_computeNetForceGPU next else call_computeNetForce next]).
    { unfold net_force_call. destruct (ENABLE_HIP cfg && isCUDAEnabled cfg); reflexivity. }
    assert (Hhook :
      filter is_step
        (if m_half_step_hook s then [half_step_hook_update (uint_add timestep 1)] else [])
      = (if m_half_step_hook s then [half_step_hook_update next] else [])).
    { destruct (m_half_step_hook s); reflexivity. }
    rewrite Hsync, Hforce, Hhook. unfold step_two_all. rewrite map_map. reflexivity.
  - intros Ht. subst next. unfold uint_add, UINT_MAX in *. apply Z.mod_small. lia.
  - reflexivity.
Qed.

Lemma update_order_witness :
  m_prepared c1_state = true /\
  snd (update c1_cfg c1_state 7) = returned /\
  filter is_step (snd (fst (update c1_cfg c1_state 7)))
  = [call_setDeltaT 0 1; call_integrateStepOne 0 7; call_computeNetForce 8;
     call_integrateStepTwo 0 7].
Proof.
  split; [reflexivity|].
  pose proof (@update_order c1_cfg c1_state 7%Z eq_refl) as H. cbv zeta in H.
  destruct H as (H1 & H2 & _). split; [exact H1|]. rewrite H2. reflexivity.
Defined.

Lemma intersects_registered_iff (new_group : ParticleGroup)
  (methods : list IntegrationMethodTwoStep) :
  intersects_registered new_group methods = true <->
  exists method i, In method methods /\ In i (members new_group) /\
                   In i (members (getGroup method)).
Proof.
  induction methods as [|method rest IH]; simpl.
  - split; [discriminate|]. intros (m & i & [] & _).
  - destruct (0 <? getNumMembersGlobal (groupIntersection new_group (getGroup method)))%nat
      eqn:Hlen.
    + split; [intros _|reflexivity].
      apply Nat.ltb_lt in Hlen. unfold getNumMembersGlobal in Hlen.
      destruct (members (groupIntersection new_group (getGroup method))) as [|i l] eqn:Hm;
        [simpl in Hlen; lia|].
      assert (Hin : In i (members (groupIntersection new_group (getGroup method))))
        by (rewrite Hm; now left).
      apply groupIntersection_In in Hin. exists method, i. tauto.
    + rewrite IH. apply Nat.ltb_ge in Hlen. unfold getNumMembersGlobal in Hlen.
      split.
      * intros (m & i & Hm & Hi). exists m, i. tauto.
      * intros (m & i & [Hm|Hm] & Hn & Hg).
        -- subst m.
           assert (Hin : In i (members (groupIntersection new_group (getGroup method))))
             by (apply groupIntersection_In; tauto).
           destruct (members (groupIntersection new_group (getGroup method)));
             [destruct Hin|simpl in Hlen; lia].
        -- exists m, i. tauto.
Qed.

(** C2.  When the group of the new method shares an index with the group of
    a registered method, [addIntegrationMethod] throws and the scheduler is
    as before; when it shares none with any of them, the call returns and
    the method list is the old one followed by the new method carrying the
    scheduler's time step. *)
Theorem addIntegrationMethod_disjoint (s : t) (new_method : IntegrationMethodTwoStep) :
  let r := addIntegrationMethod s new_method in
  ((exists method i, In method (m_methods s) /\ In i (members (getGroup new_method)) /\
                     In i (members (getGroup method))) ->
   snd r = thrown "Error adding integration method" /\ fst (fst r) = s) /\
  ((forall method i, In method (m_methods s) -> In i (members (getGroup new_method)) ->
                     ~ In i (members (getGroup method))) ->
   snd r = returned /\
   m_methods (fst (fst r)) = m_methods s ++ [method_setDeltaT new_method (m_deltaT s)] /\
   method_deltaT (method_setDeltaT new_method (m_deltaT s)) = m_deltaT s /\
   getGroup (method_setDeltaT new_method (m_deltaT s)) = getGroup new_method).
Proof.
  intros r. subst r. unfold addIntegrationMethod. split.
  - intros H. apply intersects_registered_iff in H. rewrite H. now split.
  - intros H.
    destruct (intersects_registered (getGroup new_method) (m_methods s)) eqn:E.
    + apply intersects_registered_iff in E. destruct E as (m & i & Hm & Hi & Hg).
      exfalso. exact (H m i Hm Hi Hg).
    + repeat split.
Qed.

Lemma c1_sizes :
  getNumMembersGlobal c1_all = 100%nat /\ getNumMembersGlobal c1_half = 50%nat /\
  getNumMembersGlobal (groupIntersection c1_all c1_all) = 100%nat /\
  getNumMembersGlobal (groupIntersection c1_half c1_all) = 50%nat.
Proof. repeat split; vm_compute; reflexivity. Qed.

(** C1.  [getTranslationalDOF] as the code computes it: for a query group
    whose size differs from the number of particles nothing is removed for
    the pinned centre of mass.  With one momentum-conserving method over all
    100 particles in three dimensions the whole population reports 297, and
    the group of the first 50 particles reports 150: the three removed
    degrees of freedom are not spread over sub-groups, although the comment
    of the function says they are. *)
Theorem getTranslationalDOF_subset_not_split :
  (forall cfg s group,
     getNumMembersGlobal group <> getNGlobal cfg ->
     getTranslationalDOF cfg s group
     = fold_left (fun total method => total + method_getTranslationalDOF method group)
                 (m_methods s) 0 - 0 - getNDOFRemoved s group) /\
  getTranslationalDOF c1_cfg c1_state c1_all = 297 /\
  getTranslationalDOF c1_cfg c1_state c1_half = 150.
Proof.
  destruct c1_sizes as (Ha & Hh & Haa & Hha).
  split; [|split].
  - intros cfg s group Hne. unfold getTranslationalDOF.
    apply Nat.eqb_neq in Hne. rewrite Hne. reflexivity.
  - unfold getTranslationalDOF. cbn [getNGlobal getNDimensions c1_cfg m_methods c1_state
      fold_left method_getTranslationalDOF c1_method isMomentumConserving getNDOFRemoved].
    unfold base_getTranslationalDOF. rewrite Ha, Haa.
    cbn [Nat.eqb List.length andb]. rewrite !INR_IZR_INZ. cbn [Z.of_nat Pos.of_succ_nat Pos.succ].
    field.
  - unfold getTranslationalDOF. cbn [getNGlobal getNDimensions c1_cfg m_methods c1_state
      fold_left method_getTranslationalDOF c1_method isMomentumConserving getNDOFRemoved].
    unfold base_getTranslationalDOF. rewrite Hh, Hha.
    replace (50 =? 100)%nat with false by reflexivity.
    cbn [andb]. rewrite !INR_IZR_INZ. cbn [Z.of_nat Pos.of_succ_nat Pos.succ].
    lra.
Qed.

Lemma to_int_IZR (z : Z) : to_int (IZR z) = z.
Proof.
  unfold to_int. destruct (Rle_dec 0 (IZR z)) as [H|H].
  - symmetry. apply Int_part_spec. lra.
  - rewrite <- opp_IZR. rewrite <- (Int_part_spec (IZR (- z)) (- z)); [lia|lra].
Qed.

(** C5.  With the anisotropic mode set to isotropic and a force that
    couples to orientation, [prepRun] resolves the mode to false and hands
    false to the method, yet [getRotationalDOF] returns the method's three
    rotational degrees of freedom: its own switch has no case for the
    isotropic mode.  In the other two modes it returns zero whenever the
    resolved mode is false. *)
Theorem getRotationalDOF_isotropic_mode :
  fst (resolve_aniso c5_state) = false /\
  map method_aniso (m_methods (fst (prepRun c1_cfg c5_state 0))) = [false] /\
  getRotationalDOF c5_state c1_all = 3 /\
  (forall s group,
     m_aniso_mode s <> Isotropic -> fst (resolve_aniso s) = false ->
     getRotationalDOF s group = 0).
Proof.
  split; [reflexivity|]. split; [reflexivity|]. split.
  - unfold getRotationalDOF. cbn [m_aniso_mode c5_state getAnisotropic m_forces existsb
      isAnisotropic orb m_methods fold_left method_getRotationalDOF c1_method].
    replace (IZR 0 + 3) with (IZR 3) by lra. now rewrite to_int_IZR.
  - intros s group Hmode Hres. unfold getRotationalDOF, resolve_aniso in *.
    destruct (m_aniso_mode s); cbn [fst] in Hres.
    + rewrite Hres. reflexivity.
    + discriminate.
    + contradiction.
Qed.

(* ===================================================================== *)
(** * The scheduler: modes, warnings and run preparation *)
(* ===================================================================== *)

Lemma String_eqb_neq_false (a b : string) : a <> b -> String.eqb a b = false.
Proof. intros H. apply String.eqb_neq. exact H. Qed.

Lemma set_aniso_mode_same (s : t) : set_aniso_mode s (m_aniso_mode s) = s.
Proof. destruct s; reflexivity. Qed.

(** X1.  [setAnisotropicMode] accepts exactly the strings "true", "false"
    and "auto": after it [getAnisotropicMode] returns the string that was
    set and the method list is untouched; any other string throws
    "Invalid mode string" and leaves the scheduler as it was; and setting
    the string that [getAnisotropicMode] returns changes nothing. *)
Theorem anisotropic_mode_round_trip (s : t) (mode : string) :
  (In mode ["true"; "false"; "auto"]%string ->
   exists s', setAnisotropicMode s mode = (s', returned) /\
              getAnisotropicMode s' = mode /\
              m_methods s' = m_methods s) /\
  (~ In mode ["true"; "false"; "auto"]%string ->
   setAnisotropicMode s mode = (s, thrown "Invalid mode string")) /\
  setAnisotropicMode s (getAnisotropicMode s) = (s, returned).
Proof.
  split; [|split].
  - intros [H|[H|[H|[]]]]; subst mode.
    + exists (set_aniso_mode s Anisotropic). repeat split.
    + exists (set_aniso_mode s Isotropic). repeat split.
    + exists (set_aniso_mode s Automatic). repeat split.
  - intros H. unfold setAnisotropicMode.
    rewrite !String_eqb_neq_false; [reflexivity| | |];
      intros E; apply H; subst mode; simpl; auto.
  - unfold getAnisotropicMode.
    rewrite <- (set_aniso_mode_same s) at 3.
    destruct (m_aniso_mode s); reflexivity.
Qed.

Definition no_methods_warning : Call :=
  msg_warning "integrate.mode_standard: No integration methods are set, continuing anyways.".

Lemma filter_app_nil {A} (f : A -> bool) (l1 l2 : list A) :
  filter f l1 = [] -> filter f l2 = [] -> filter f (l1 ++ l2) = [].
Proof. intros H1 H2. rewrite filter_app, H1, H2. reflexivity. Qed.

Lemma filter_warning_one (deltaT : Scalar) (timestep : Z) (methods : list IntegrationMethodTwoStep) :
  filter is_warning (snd (step_one_all deltaT timestep methods)) = [].
Proof.
  rewrite step_one_all_spec. simpl.
  induction methods as [|method rest IH]; simpl; [reflexivity|exact IH].
Qed.

Lemma filter_warning_two (timestep : Z) (methods : list IntegrationMethodTwoStep) :
  filter is_warning (step_two_all timestep methods) = [].
Proof.
  unfold step_two_all. induction methods as [|method rest IH]; simpl; [reflexivity|exact IH].
Qed.

Lemma filter_warning_rigid (s : t) (timestep : Z) :
  filter is_warning (updateRigidBodies s timestep) = [].
Proof.
  unfold updateRigidBodies. induction (m_composite_forces s) as [|fc rest IH]; simpl;
    [reflexivity|exact IH].
Qed.

Lemma filter_warning_net_force (cfg : Config) (timestep : Z) :
  filter is_warning [net_force_call cfg timestep] = [].
Proof. unfold net_force_call. destruct (ENABLE_HIP cfg && isCUDAEnabled cfg); reflexivity. Qed.

Lemma update_warnings (cfg : Config) (s : t) (timestep : Z) :
  filter is_warning (snd (fst (update cfg s timestep))) =
  if negb (m_gave_warning s) && (List.length (m_methods s) =? 0)%nat
  then [no_methods_warning] else [].
Proof.
  unfold update.
  set (warn := negb (m_gave_warning s) && (List.length (m_methods s) =? 0)%nat).
  set (s0 := if warn then set_gave_warning s true else s).
  set (tr0 := if warn then _ else _).
  assert (Htr0 : filter is_warning tr0 = if warn then [no_methods_warning] else []).
  { subst tr0. destruct warn; reflexivity. }
  destruct (negb (NDEBUG cfg) && negb (m_prepared s0)); [exact Htr0|].
  pose proof (filter_warning_one (m_deltaT s0) timestep (m_methods s0)) as Hone.
  destruct (step_one_all (m_deltaT s0) timestep (m_methods s0)) as [methods one].
  simpl in Hone. cbn [fst snd].
  rewrite filter_app, Htr0.
  match goal with |- ?a ++ ?b = _ => assert (Hb : b = []); [|rewrite Hb; apply app_nil_r] end.
  repeat apply filter_app_nil; try assumption;
    try (destruct (m_prof s0); reflexivity);
    try apply filter_warning_two; try apply filter_warning_net_force.
  - destruct (ENABLE_MPI cfg && _); [reflexivity|apply filter_warning_rigid].
  - destruct (m_half_step_hook _); reflexivity.
Qed.

Lemma update_gave_warning (cfg : Config) (s : t) (timestep : Z) :
  m_methods s = [] -> m_gave_warning (fst (fst (update cfg s timestep))) = true.
Proof.
  intros H. unfold update.
  set (warn := negb (m_gave_warning s) && (List.length (m_methods s) =? 0)%nat).
  set (s0 := if warn then set_gave_warning s true else s).
  assert (Hw : m_gave_warning s0 = true).
  { subst s0 warn. rewrite H. destruct (m_gave_warning s) eqn:E; cbn; [exact E|reflexivity]. }
  destruct (negb (NDEBUG cfg) && negb (m_prepared s0)); [exact Hw|].
  rewrite step_one_all_spec. cbn. exact Hw.
Qed.

Lemma update_methods (cfg : Config) (s : t) (timestep : Z) :
  m_methods (fst (fst (update cfg s timestep))) = m_methods s \/
  m_methods (fst (fst (update cfg s timestep))) =
    map (fun method => method_setDeltaT method (m_deltaT s)) (m_methods s).
Proof.
  unfold update.
  set (warn := negb (m_gave_warning s) && (List.length (m_methods s) =? 0)%nat).
  set (s0 := if warn then set_gave_warning s true else s).
  assert (Hm : m_methods s0 = m_methods s) by (subst s0; destruct warn; reflexivity).
  assert (Hd : m_deltaT s0 = m_deltaT s) by (subst s0; destruct warn; reflexivity).
  destruct (negb (NDEBUG cfg) && negb (m_prepared s0)); [left; exact Hm|].
  rewrite step_one_all_spec. cbn. right. rewrite Hm, Hd. reflexivity.
Qed.

Lemma update_deltaT (cfg : Config) (s : t) (timestep : Z) :
  m_deltaT (fst (fst (update cfg s timestep))) = m_deltaT s.
Proof.
  unfold update.
  set (warn := negb (m_gave_warning s) && (List.length (m_methods s) =? 0)%nat).
  set (s0 := if warn then set_gave_warning s true else s).
  assert (Hd : m_deltaT s0 = m_deltaT s) by (subst s0; destruct warn; reflexivity).
  destruct (negb (NDEBUG cfg) && negb (m_prepared s0)); [exact Hd|].
  rewrite step_one_all_spec. cbn. exact Hd.
Qed.

(** X2.  [update] issues the "No integration methods are set" warning
    exactly when the method list is empty and the warning was not given
    before; the [update] that follows another [update] never issues it; and
    after [removeAllIntegrationMethods] the next [update] issues it again. *)
Theorem no_methods_warning_once (cfg : Config) (s : t) (t1 t2 : Z) :
  let s1 := fst (fst (update cfg s t1)) in
  (filter is_warning (snd (fst (update cfg s t1))) = [no_methods_warning] <->
   m_gave_warning s = false /\ m_methods s = []) /\
  filter is_warning (snd (fst (update cfg s1 t2))) = [] /\
  filter is_warning (snd (fst (update cfg (removeAllIntegrationMethods s1) t2)))
    = [no_methods_warning].
Proof.
  intros s1. split; [|split].
  - rewrite update_warnings. split.
    + destruct (m_gave_warning s); [discriminate|].
      destruct (m_methods s); [auto|discriminate].
    + intros [-> ->]. reflexivity.
  - rewrite update_warnings.
    destruct (m_methods s) as [|method rest] eqn:E.
    + subst s1. rewrite (@update_gave_warning cfg s t1 E). reflexivity.
    + destruct (update_methods cfg s t1) as [H|H]; subst s1; rewrite H, E;
        cbn; rewrite andb_false_r; reflexivity.
  - rewrite update_warnings. reflexivity.
Qed.

Lemma prepRun_state (cfg : Config) (s : t) (timestep : Z) :
  fst (prepRun cfg s timestep) =
  set_prepared
    (set_methods s (map (fun method => method_setAnisotropic method (fst (resolve_aniso s)))
                        (m_methods s)))
    true true.
Proof. unfold prepRun. destruct (resolve_aniso s) as [aniso tr0]. reflexivity. Qed.

Lemma update_prepared_returns (cfg : Config) (s : t) (timestep : Z) :
  m_prepared s = true -> snd (update cfg s timestep) = returned.
Proof.
  intros H. unfold update.
  set (warn := negb (m_gave_warning s) && (List.length (m_methods s) =? 0)%nat).
  set (s0 := if warn then set_gave_warning s true else s).
  assert (Hp : m_prepared s0 = true) by (subst s0; destruct warn; exact H).
  rewrite Hp, andb_false_r.
  destruct (step_one_all (m_deltaT s0) timestep (m_methods s0)). reflexivity.
Qed.

(** X3.  After [prepRun] an [update] returns (the assertion on
    [m_prepared] holds in every build); every method has been handed the
    resolved anisotropic flag, which is true for the mode "true", false for
    "false" and otherwise whether a force couples to orientation; and a
    second [prepRun] does not compute the accelerations again. *)
Theorem prepRun_prepares (cfg : Config) (s : t) (t1 t2 : Z) :
  let s1 := fst (prepRun cfg s t1) in
  snd (update cfg s1 t2) = returned /\
  Forall (fun method =>
            method_aniso method =
            match m_aniso_mode s with
            | Anisotropic => true
            | Isotropic => false
            | Automatic => getAnisotropic s
            end) (m_methods s1) /\
  ~ In (call_computeAccelerations t2) (snd (prepRun cfg s1 t2)).
Proof.
  intros s1. subst s1. rewrite prepRun_state. split; [|split].
  - apply update_prepared_returns. reflexivity.
  - cbn. apply Forall_forall. intros method Hin.
    apply in_map_iff in Hin. destruct Hin as [m0 [<- _]].
    unfold resolve_aniso. destruct (m_aniso_mode s); reflexivity.
  - unfold prepRun.
    match goal with |- context [resolve_aniso ?a] => destruct (resolve_aniso a) as [aniso tr0] eqn:E end.
    cbn [snd]. intros Hin.
    assert (Htr0 : ~ In (call_computeAccelerations t2) tr0).
    { unfold resolve_aniso in E.
      match type of E with context [m_aniso_mode ?a] => destruct (m_aniso_mode a) end;
      match type of E with context [getAnisotropic ?a] => destruct (getAnisotropic a) end;
      inversion E; subst; simpl; intuition discriminate. }
    repeat (apply in_app_or in Hin; destruct Hin as [Hin|Hin]).
    + exact (Htr0 Hin).
    + apply in_map_iff in Hin. destruct Hin as [? [Hc _]]. discriminate.
    + match type of Hin with context [if ?c then _ else _] => destruct c end.
      * simpl in Hin. destruct Hin as [Hc|[Hc|[]]]; discriminate.
      * unfold updateRigidBodies in Hin. apply in_map_iff in Hin.
        destruct Hin as [? [Hc _]]. discriminate.
    + unfold net_force_call in Hin. destruct (ENABLE_HIP cfg && isCUDAEnabled cfg);
        simpl in Hin; destruct Hin as [Hc|[]]; discriminate.
    + cbn in Hin. exact Hin.
Qed.

(* ===================================================================== *)
(** * What the scheduler keeps true of its methods *)
(* ===================================================================== *)

Lemma methods_disjoint_map (f : IntegrationMethodTwoStep -> IntegrationMethodTwoStep)
  (methods : list IntegrationMethodTwoStep) :
  (forall method, getGroup (f method) = getGroup method) ->
  methods_disjoint methods -> methods_disjoint (map f methods).
Proof.
  intros Hf H. unfold methods_disjoint in *.
  induction H as [|a l Ha Hl IH]; simpl; constructor; [|exact IH].
  apply Forall_forall. intros b Hb. apply in_map_iff in Hb.
  destruct Hb as [b0 [<- Hb0]]. rewrite !Hf.
  exact (proj1 (Forall_forall _ _) Ha b0 Hb0).
Qed.

Lemma methods_disjoint_snoc (methods : list IntegrationMethodTwoStep)
  (new_method : IntegrationMethodTwoStep) :
  methods_disjoint methods ->
  Forall (fun a => groups_disjoint (getGroup a) (getGroup new_method)) methods ->
  methods_disjoint (methods ++ [new_method]).
Proof.
  intros H Hnew. unfold methods_disjoint in *.
  induction H as [|a l Ha Hl IH]; simpl.
  - constructor; constructor.
  - inversion Hnew as [|? ? Hn Hrest]; subst. constructor.
    + apply Forall_app. split; [exact Ha|]. constructor; [exact Hn|constructor].
    + apply IH. exact Hrest.
Qed.

Lemma not_intersecting_disjoint (new_group : ParticleGroup)
  (methods : list IntegrationMethodTwoStep) :
  intersects_registered new_group methods = false ->
  Forall (fun a => groups_disjoint (getGroup a) new_group) methods.
Proof.
  intros H. apply Forall_forall. intros a Ha i Hi Hn.
  assert (E : intersects_registered new_group methods = true).
  { apply intersects_registered_iff. exists a, i. auto. }
  rewrite H in E. discriminate.
Qed.

Lemma Forall_deltaT_map (deltaT : Scalar) (methods : list IntegrationMethodTwoStep) :
  Forall (fun method => method_deltaT method = deltaT)
         (map (fun method => method_setDeltaT method deltaT) methods).
Proof.
  apply Forall_forall. intros b Hb. apply in_map_iff in Hb.
  destruct Hb as [b0 [<- _]]. reflexivity.
Qed.

(** X4.  A scheduler whose methods have pairwise disjoint groups and all
    carry the scheduler's time step stays so under
    [removeAllIntegrationMethods], [addIntegrationMethod] (whether it
    returns or throws), [update], [prepRun], [setAnisotropicMode],
    [addForceComposite] and, when the base class stores the new time step
    and leaves the method list alone, [setDeltaT]. *)
Theorem scheduler_invariant_kept (cfg : Config) (s : t) (H : scheduler_invariant s) :
  scheduler_invariant (removeAllIntegrationMethods s) /\
  (forall new_method, scheduler_invariant (fst (fst (addIntegrationMethod s new_method)))) /\
  (forall timestep, scheduler_invariant (fst (fst (update cfg s timestep)))) /\
  (forall timestep, scheduler_invariant (fst (prepRun cfg s timestep))) /\
  (forall mode, scheduler_invariant (fst (setAnisotropicMode s mode))) /\
  (forall fc, scheduler_invariant (addForceComposite s fc)) /\
  (forall Integrator_setDeltaT deltaT,
     m_deltaT (Integrator_setDeltaT s deltaT) = deltaT ->
     m_methods (Integrator_setDeltaT s deltaT) = m_methods s ->
     scheduler_invariant (fst (setDeltaT Integrator_setDeltaT s deltaT))).
Proof.
  destruct H as [Hd Ht].
  split; [|split; [|split; [|split; [|split; [|split]]]]].
  - split; cbn; constructor.
  - intros new_method. unfold addIntegrationMethod.
    destruct (intersects_registered (getGroup new_method) (m_methods s)) eqn:E.
    + split; assumption.
    + cbn. split.
      * apply methods_disjoint_snoc; [exact Hd|].
        exact (not_intersecting_disjoint _ _ E).
      * apply Forall_app. split; [exact Ht|]. constructor; [reflexivity|constructor].
  - intros timestep. split.
    + destruct (update_methods cfg s timestep) as [E|E]; rewrite E; [exact Hd|].
      apply methods_disjoint_map; [reflexivity|exact Hd].
    + rewrite update_deltaT.
      destruct (update_methods cfg s timestep) as [E|E]; rewrite E; [exact Ht|].
      apply Forall_deltaT_map.
  - intros timestep. rewrite prepRun_state. split; cbn.
    + apply methods_disjoint_map; [reflexivity|exact Hd].
    + apply Forall_forall. intros b Hb. apply in_map_iff in Hb.
      destruct Hb as [b0 [<- Hb0]]. cbn.
      exact (proj1 (Forall_forall _ _) Ht b0 Hb0).
  - intros mode. unfold setAnisotropicMode.
    repeat match goal with |- context [String.eqb ?a ?b] => destruct (String.eqb a b) end;
      split; assumption.
  - intros fc. split; assumption.
  - intros base deltaT Hb Hm. unfold setDeltaT. cbn. rewrite Hm. split.
    + apply methods_disjoint_map; [reflexivity|exact Hd].
    + eapply Forall_impl; [|apply Forall_deltaT_map].
      intros method E. cbn in E. rewrite E. symmetry. exact Hb.
Qed.

Lemma scheduler_invariant_kept_witness :
  scheduler_invariant c1_state /\
  scheduler_invariant (fst (fst (update c1_cfg c1_state 0))).
Proof.
  assert (H : scheduler_invariant c1_state).
  { split; cbn; repeat constructor. }
  split; [exact H|].
  exact (proj1 (proj2 (proj2 (@scheduler_invariant_kept c1_cfg c1_state H))) 0%Z).
Defined.

Lemma intersects_registered_empty (new_group : ParticleGroup)
  (methods : list IntegrationMethodTwoStep) :
  members new_group = [] -> intersects_registered new_group methods = false.
Proof.
  intros He. destruct (intersects_registered new_group methods) eqn:E; [|reflexivity].
  apply intersects_registered_iff in E. destruct E as (method & i & _ & Hi & _).
  rewrite He in Hi. destruct Hi.
Qed.

(** X5.  A method over a group without members is always accepted by
    [addIntegrationMethod]: the call returns, issues the zero-particles
    warning and appends the method.  For a group with members no warning
    is issued, so a call that issues a warning never throws. *)
Theorem addIntegrationMethod_zero_particles (s : t) (new_method : IntegrationMethodTwoStep) :
  let r := addIntegrationMethod s new_method in
  (members (getGroup new_method) = [] ->
   snd r = returned /\
   filter is_warning (snd (fst r)) = [zero_particles_warning] /\
   m_methods (fst (fst r)) = m_methods s ++ [method_setDeltaT new_method (m_deltaT s)]) /\
  (members (getGroup new_method) <> [] -> filter is_warning (snd (fst r)) = []) /\
  (filter is_warning (snd (fst r)) <> [] -> snd r = returned).
Proof.
  intros r.
  assert (Hempty : members (getGroup new_method) = [] ->
                   snd r = returned /\
                   filter is_warning (snd (fst r)) = [zero_particles_warning] /\
                   m_methods (fst (fst r))
                   = m_methods s ++ [method_setDeltaT new_method (m_deltaT s)]).
  { intros He. subst r. unfold addIntegrationMethod.
    rewrite (intersects_registered_empty _ (m_methods s) He).
    unfold getNumMembersGlobal. rewrite He. cbn. repeat split. }
  assert (Hnon : members (getGroup new_method) <> [] ->
                 filter is_warning (snd (fst r)) = []).
  { intros Hne. subst r. unfold addIntegrationMethod, getNumMembersGlobal.
    destruct (members (getGroup new_method)) as [|i rest] eqn:E; [contradiction|].
    cbn [List.length Nat.eqb].
    destruct (intersects_registered _ _); reflexivity. }
  split; [exact Hempty|split; [exact Hnon|]].
  intros Hw. destruct (members (getGroup new_method)) as [|i rest] eqn:E.
  - apply Hempty. reflexivity.
  - exfalso. apply Hw. apply Hnon. discriminate.
Qed.

(* ===================================================================== *)
(** * NVE methods on disjoint groups *)
(* ===================================================================== *)

Section NVELocality.

Variable wrap : Scalar4 -> int3 -> Scalar4 * int3.
Variable angular_step_one : Scalar -> ParticleData -> nat -> ParticleData.
Variable angular_step_two : Scalar -> ParticleData -> nat -> ParticleData.
Variable pitch : nat.

Lemma wrap_particle_at (pd : ParticleData) (j : nat) :
  particle pitch (RATTLENVE.wrap_particle wrap pd j) j = wrap_kernel wrap (particle pitch pd j).
Proof.
  unfold particle, wrap_kernel, RATTLENVE.wrap_particle.
  cbn -[Nat.mul Nat.add]. rewrite ?upd_same. reflexivity.
Qed.

Lemma wrap_particle_frame (pd : ParticleData) (j i : nat) :
  i <> j -> particle pitch (RATTLENVE.wrap_particle wrap pd j) i = particle pitch pd i.
Proof.
  intros Hne. unfold particle, RATTLENVE.wrap_particle.
  cbn -[Nat.mul Nat.add]. repeat rewrite (upd_other _ _ Hne). reflexivity.
Qed.

Lemma nve_integrateStepOne_at (m : RATTLENVE.t) (timestep : Z) (pd : ParticleData) (j : nat) :
  RATTLENVE.m_aniso m = false ->
  NoDup (members (RATTLENVE.m_group m)) ->
  In j (members (RATTLENVE.m_group m)) ->
  particle pitch (RATTLENVE.integrateStepOne wrap angular_step_one m timestep pd) j =
  wrap_kernel wrap (stepOne_kernel m (particle pitch pd j)).
Proof.
  intros Ha Hnd Hin. unfold RATTLENVE.integrateStepOne. rewrite Ha. cbv zeta.
  assert (Hall : Forall (fun _ : nat => True) (members (RATTLENVE.m_group m)))
    by (apply Forall_forall; auto).
  rewrite (@for_each_at pitch (fun _ => True) (RATTLENVE.wrap_particle wrap) (wrap_kernel wrap));
    auto using wrap_particle_frame, wrap_particle_at.
  f_equal.
  apply (@for_each_at pitch (fun _ => True)); auto using stepOne_particle_frame, stepOne_particle_at.
Qed.

Lemma nve_integrateStepOne_frame (m : RATTLENVE.t) (timestep : Z) (pd : ParticleData) (i : nat) :
  RATTLENVE.m_aniso m = false ->
  ~ In i (members (RATTLENVE.m_group m)) ->
  particle pitch (RATTLENVE.integrateStepOne wrap angular_step_one m timestep pd) i =
  particle pitch pd i.
Proof.
  intros Ha Hin. unfold RATTLENVE.integrateStepOne. rewrite Ha. cbv zeta.
  assert (Hall : Forall (fun _ : nat => True) (members (RATTLENVE.m_group m)))
    by (apply Forall_forall; auto).
  rewrite (@for_each_frame pitch (fun _ => True) (RATTLENVE.wrap_particle wrap));
    auto using wrap_particle_frame.
  apply (@for_each_frame pitch (fun _ => True)); auto using stepOne_particle_frame.
Qed.

Lemma nve_integrateStepTwo_at (m : RATTLENVE.t) (timestep : Z) (pd : ParticleData) (j : nat) :
  RATTLENVE.m_aniso m = false ->
  NoDup (members (RATTLENVE.m_group m)) ->
  In j (members (RATTLENVE.m_group m)) ->
  particle pitch (RATTLENVE.integrateStepTwo angular_step_two m timestep pd) j =
  stepTwo_kernel m (particle pitch pd j).
Proof.
  intros Ha Hnd Hin. unfold RATTLENVE.integrateStepTwo. rewrite Ha. cbv zeta.
  assert (Hall : Forall (fun _ : nat => True) (members (RATTLENVE.m_group m)))
    by (apply Forall_forall; auto).
  apply (@for_each_at pitch (fun _ => True)); auto using stepTwo_particle_frame, stepTwo_particle_at.
Qed.

Lemma nve_integrateStepTwo_frame (m : RATTLENVE.t) (timestep : Z) (pd : ParticleData) (i : nat) :
  RATTLENVE.m_aniso m = false ->
  ~ In i (members (RATTLENVE.m_group m)) ->
  particle pitch (RATTLENVE.integrateStepTwo angular_step_two m timestep pd) i =
  particle pitch pd i.
Proof.
  intros Ha Hin. unfold RATTLENVE.integrateStepTwo. rewrite Ha. cbv zeta.
  assert (Hall : Forall (fun _ : nat => True) (members (RATTLENVE.m_group m)))
    by (apply Forall_forall; auto).
  apply (@for_each_frame pitch (fun _ => True)); auto using stepTwo_particle_frame.
Qed.

End NVELocality.

(** X6.  For two NVE methods without rotational coupling whose groups share
    no particle, the first half steps can be run in either order with the
    same result for every particle, and so can the second half steps. *)
Theorem nve_disjoint_methods_commute
  (wrap : Scalar4 -> int3 -> Scalar4 * int3)
  (angular_step_one angular_step_two : Scalar -> ParticleData -> nat -> ParticleData)
  (pitch : nat) (a b : RATTLENVE.t) (timestep : Z) (pd : ParticleData) (i : nat)
  (Ha : RATTLENVE.m_aniso a = false) (Hb : RATTLENVE.m_aniso b = false)
  (Hnda : NoDup (members (RATTLENVE.m_group a)))
  (Hndb : NoDup (members (RATTLENVE.m_group b)))
  (Hdis : groups_disjoint (RATTLENVE.m_group a) (RATTLENVE.m_group b)) :
  let one m := RATTLENVE.integrateStepOne wrap angular_step_one m timestep in
  let two m := RATTLENVE.integrateStepTwo angular_step_two m timestep in
  particle pitch (one b (one a pd)) i = particle pitch (one a (one b pd)) i /\
  particle pitch (two b (two a pd)) i = particle pitch (two a (two b pd)) i.
Proof.
  intros one two. subst one two. cbv beta.
  destruct (in_dec Nat.eq_dec i (members (RATTLENVE.m_group a))) as [Hia|Hia];
    [pose proof (Hdis i Hia) as Hib
    |destruct (in_dec Nat.eq_dec i (members (RATTLENVE.m_group b))) as [Hib|Hib]].
  - split.
    + rewrite (@nve_integrateStepOne_frame wrap angular_step_one pitch b timestep _ i Hb Hib).
      rewrite !(@nve_integrateStepOne_at wrap angular_step_one pitch a timestep _ i Ha Hnda Hia).
      rewrite (@nve_integrateStepOne_frame wrap angular_step_one pitch b timestep _ i Hb Hib).
      reflexivity.
    + rewrite (@nve_integrateStepTwo_frame angular_step_two pitch b timestep _ i Hb Hib).
      rewrite !(@nve_integrateStepTwo_at angular_step_two pitch a timestep _ i Ha Hnda Hia).
      rewrite (@nve_integrateStepTwo_frame angular_step_two pitch b timestep _ i Hb Hib).
      reflexivity.
  - split.
    + rewrite (@nve_integrateStepOne_frame wrap angular_step_one pitch a timestep _ i Ha Hia).
      rewrite !(@nve_integrateStepOne_at wrap angular_step_one pitch b timestep _ i Hb Hndb Hib).
      rewrite (@nve_integrateStepOne_frame wrap angular_step_one pitch a timestep _ i Ha Hia).
      reflexivity.
    + rewrite (@nve_integrateStepTwo_frame angular_step_two pitch a timestep _ i Ha Hia).
      rewrite !(@nve_integrateStepTwo_at angular_step_two pitch b timestep _ i Hb Hndb Hib).
      rewrite (@nve_integrateStepTwo_frame angular_step_two pitch a timestep _ i Ha Hia).
      reflexivity.
  - split.
    + rewrite !(@nve_integrateStepOne_frame wrap angular_step_one pitch b timestep _ i Hb Hib).
      rewrite !(@nve_integrateStepOne_frame wrap angular_step_one pitch a timestep _ i Ha Hia).
      rewrite (@nve_integrateStepOne_frame wrap angular_step_one pitch b timestep _ i Hb Hib).
      reflexivity.
    + rewrite !(@nve_integrateStepTwo_frame angular_step_two pitch b timestep _ i Hb Hib).
      rewrite !(@nve_integrateStepTwo_frame angular_step_two pitch a timestep _ i Ha Hia).
      rewrite (@nve_integrateStepTwo_frame angular_step_two pitch b timestep _ i Hb Hib).
      reflexivity.
Qed.

Lemma nve_disjoint_methods_commute_witness :
  let one m := RATTLENVE.integrateStepOne cx_wrap cx_angular m 0 in
  let two m := RATTLENVE.integrateStepTwo cx_angular m 0 in
  groups_disjoint (RATTLENVE.m_group cx_method) (RATTLENVE.m_group cx_method_other) /\
  particle 2 (one cx_method_other (one cx_method cx_pdata)) 0%nat =
  particle 2 (one cx_method (one cx_method_other cx_pdata)) 0%nat /\
  particle 2 (two cx_method_other (two cx_method cx_pdata)) 0%nat =
  particle 2 (two cx_method (two cx_method_other cx_pdata)) 0%nat.
Proof.
  assert (Hdis : groups_disjoint (RATTLENVE.m_group cx_method)
                                 (RATTLENVE.m_group cx_method_other)).
  { intros i Hi Hi'. simpl in Hi, Hi'. lia. }
  split; [exact Hdis|].
  apply (@nve_disjoint_methods_commute cx_wrap cx_angular cx_angular 2%nat
           cx_method cx_method_other 0%Z cx_pdata 0%nat).
  - reflexivity.
  - reflexivity.
  - simpl. constructor; [simpl; tauto|constructor].
  - simpl. constructor; [simpl; tauto|constructor].
  - exact Hdis.
Defined.

Lemma limit_velocity_w4 (m : RATTLENVE.t) (v : Scalar4) :
  w4 (RATTLENVE.limit_velocity m v) = w4 v.
Proof.
  unfold RATTLENVE.limit_velocity. destruct (RATTLENVE.m_limit m); [|reflexivity].
  cbv zeta. destruct (Rgt_dec _ _); reflexivity.
Qed.

(** X7.  Without rotational coupling, the two half steps of the NVE method
    leave every entry of a particle outside the method's group unchanged;
    the second half step moves no particle and changes no image; neither
    half step changes a mass or a net force. *)
Theorem nve_steps_frame
  (wrap : Scalar4 -> int3 -> Scalar4 * int3)
  (angular_step_one angular_step_two : Scalar -> ParticleData -> nat -> ParticleData)
  (pitch : nat) (m : RATTLENVE.t) (timestep : Z) (pd : ParticleData) (i : nat)
  (Ha : RATTLENVE.m_aniso m = false)
  (Hnd : NoDup (members (RATTLENVE.m_group m))) :
  let pd1 := RATTLENVE.integrateStepOne wrap angular_step_one m timestep pd in
  let pd2 := RATTLENVE.integrateStepTwo angular_step_two m timestep pd in
  (~ In i (members (RATTLENVE.m_group m)) ->
   particle pitch pd1 i = particle pitch pd i /\ particle pitch pd2 i = particle pitch pd i) /\
  h_pos pd2 i = h_pos pd i /\
  h_image pd2 i = h_image pd i /\
  w4 (h_vel pd1 i) = w4 (h_vel pd i) /\
  w4 (h_vel pd2 i) = w4 (h_vel pd i) /\
  h_net_force pd1 i = h_net_force pd i /\
  h_net_force pd2 i = h_net_force pd i.
Proof.
  intros pd1 pd2.
  assert (Hout : ~ In i (members (RATTLENVE.m_group m)) ->
                 particle pitch pd1 i = particle pitch pd i /\
                 particle pitch pd2 i = particle pitch pd i).
  { intros Hi. split.
    - exact (@nve_integrateStepOne_frame wrap angular_step_one pitch m timestep pd i Ha Hi).
    - exact (@nve_integrateStepTwo_frame angular_step_two pitch m timestep pd i Ha Hi). }
  split; [exact Hout|].
  destruct (in_dec Nat.eq_dec i (members (RATTLENVE.m_group m))) as [Hi|Hi].
  - pose proof (@nve_integrateStepOne_at wrap angular_step_one pitch m timestep pd i Ha Hnd Hi)
      as H1.
    pose proof (@nve_integrateStepTwo_at angular_step_two pitch m timestep pd i Ha Hnd Hi)
      as H2.
    fold pd1 in H1. fold pd2 in H2.
    repeat split.
    + exact (f_equal p_pos H2).
    + exact (f_equal p_image H2).
    + exact (f_equal (fun p => w4 (p_vel p)) H1).
    + apply (f_equal (fun p => w4 (p_vel p))) in H2. cbn in H2.
      rewrite limit_velocity_w4 in H2. exact H2.
    + exact (f_equal p_net_force H1).
    + exact (f_equal p_net_force H2).
  - destruct (Hout Hi) as [H1 H2].
    repeat split.
    + exact (f_equal p_pos H2).
    + exact (f_equal p_image H2).
    + exact (f_equal (fun p => w4 (p_vel p)) H1).
    + exact (f_equal (fun p => w4 (p_vel p)) H2).
    + exact (f_equal p_net_force H1).
    + exact (f_equal p_net_force H2).
Qed.

Lemma nve_steps_frame_witness :
  let pd1 := RATTLENVE.integrateStepOne cx_wrap cx_angular cx_method 0 cx_pdata in
  let pd2 := RATTLENVE.integrateStepTwo cx_angular cx_method 0 cx_pdata in
  particle 2 pd1 1%nat = particle 2 cx_pdata 1%nat /\
  particle 2 pd2 1%nat = particle 2 cx_pdata 1%nat /\
  h_pos pd2 0%nat = h_pos cx_pdata 0%nat.
Proof.
  pose proof (@nve_steps_frame cx_wrap cx_angular cx_angular 2%nat cx_method 0%Z cx_pdata 1%nat)
    as H1.
  pose proof (@nve_steps_frame cx_wrap cx_angular cx_angular 2%nat cx_method 0%Z cx_pdata 0%nat)
    as H0.
  cbv zeta in *.
  assert (Hnd : NoDup (members (RATTLENVE.m_group cx_method))).
  { simpl. constructor; [simpl; tauto|constructor]. }
  destruct (H1 eq_refl Hnd) as [Hout _].
  destruct (H0 eq_refl Hnd) as [_ [Hpos _]].
  destruct Hout as [Ha Hb]; [simpl; lia|].
  split; [exact Ha|split; [exact Hb|exact Hpos]].
Defined.

(* ===================================================================== *)
(** * The velocity stage is a projection *)
(* ===================================================================== *)

Lemma maxNorm_zero : maxNorm (make_scalar3 0 0 0) 0 = 0.
Proof.
  unfold maxNorm, dot. cbn [x y z].
  replace (0 * 0 + 0 * 0 + 0 * 0) with 0 by ring. rewrite sqrt_0, Rabs_R0.
  destruct (Rgt_dec 0 0); reflexivity.
Qed.

Section VelocityProjection.

Variables (normal : Scalar3) (vel : Scalar4) (accel : Scalar3) (dt : Scalar).
Hypothesis Hn : dot normal normal <> 0.
Hypothesis Hm : w4 vel <> 0.
Hypothesis Hdt : dt <> 0.

Lemma tangent_part_tangent (v : Scalar3) : dot normal (tangent_part normal v) = 0.
Proof.
  unfold tangent_part, dot. cbn [x y z]. unfold dot in Hn. field. exact Hn.
Qed.

Lemma velocity_body_first :
  let st := VelocityStage.body normal vel accel dt (VelocityStage.init vel accel dt) in
  VelocityStage.next_vel st = tangent_part normal (free_velocity vel accel dt) /\
  VelocityStage.mu st
  = 2 * w4 vel * (dot normal (free_velocity vel accel dt) / dot normal normal) / dt.
Proof.
  cbv zeta. unfold VelocityStage.body, VelocityStage.init, tangent_part, free_velocity,
    VelocityStage.inv_alpha, VelocityStage.inv_mass, VelocityStage.mass, dot.
  cbn [VelocityStage.next_vel VelocityStage.mu x y z].
  unfold dot in Hn.
  split; [f_equal|]; field; auto.
Qed.

Lemma velocity_body_next (st : VelocityStage.state) :
  VelocityStage.next_vel st = tangent_part normal (free_velocity vel accel dt) ->
  VelocityStage.mu st
  = 2 * w4 vel * (dot normal (free_velocity vel accel dt) / dot normal normal) / dt ->
  let st' := VelocityStage.body normal vel accel dt st in
  VelocityStage.next_vel st' = tangent_part normal (free_velocity vel accel dt) /\
  VelocityStage.mu st'
  = 2 * w4 vel * (dot normal (free_velocity vel accel dt) / dot normal normal) / dt /\
  VelocityStage.residual st' = make_scalar3 0 0 0 /\ VelocityStage.resid st' = 0.
Proof.
  intros Hv Hmu. cbv zeta.
  pose proof (tangent_part_tangent (free_velocity vel accel dt)) as Ht.
  assert (Hres : VelocityStage.residual (VelocityStage.body normal vel accel dt st)
                 = make_scalar3 0 0 0).
  { unfold VelocityStage.body. cbn [VelocityStage.residual]. rewrite Hv, Hmu.
    unfold tangent_part, free_velocity, VelocityStage.inv_mass, VelocityStage.mass, dot.
    cbn [x y z]. unfold dot in Hn.
    f_equal; field; auto. }
  assert (Hrd : VelocityStage.resid (VelocityStage.body normal vel accel dt st) = 0).
  { unfold VelocityStage.body. cbn [VelocityStage.resid]. rewrite Hv, Ht. ring. }
  assert (Hbeta :
    (VelocityStage.mass vel * VelocityStage.resid (VelocityStage.body normal vel accel dt st)
     + dot normal (VelocityStage.residual (VelocityStage.body normal vel accel dt st)))
    / dot normal normal = 0).
  { rewrite Hres, Hrd. unfold dot. cbn [x y z]. unfold Rdiv. ring. }
  split; [|split; [|split; [exact Hres|exact Hrd]]].
  - unfold VelocityStage.body in *. cbn [VelocityStage.next_vel VelocityStage.residual
      VelocityStage.resid] in *.
    rewrite Hbeta, Hres. cbn [x y z]. rewrite Hv. unfold tangent_part. cbn [x y z].
    f_equal; ring.
  - unfold VelocityStage.body in *. cbn [VelocityStage.mu VelocityStage.residual
      VelocityStage.resid] in *.
    rewrite Hbeta, Hmu. ring.
Qed.

Lemma velocity_iter (k : nat) :
  (1 <= k)%nat ->
  let st := Nat.iter k (VelocityStage.body normal vel accel dt)
              (VelocityStage.init vel accel dt) in
  VelocityStage.next_vel st = tangent_part normal (free_velocity vel accel dt) /\
  VelocityStage.mu st
  = 2 * w4 vel * (dot normal (free_velocity vel accel dt) / dot normal normal) / dt /\
  ((2 <= k)%nat ->
   VelocityStage.residual st = make_scalar3 0 0 0 /\ VelocityStage.resid st = 0).
Proof.
  intros Hk. cbv zeta. induction k as [|k IH]; [lia|].
  destruct k as [|k].
  - cbn [Nat.iter nat_rect]. destruct velocity_body_first as [H1 H2].
    split; [exact H1|split; [exact H2|lia]].
  - destruct IH as (H1 & H2 & _); [lia|].
    change (Nat.iter (S (S k)) (VelocityStage.body normal vel accel dt)
              (VelocityStage.init vel accel dt))
      with (VelocityStage.body normal vel accel dt
              (Nat.iter (S k) (VelocityStage.body normal vel accel dt)
                 (VelocityStage.init vel accel dt))).
    destruct (velocity_body_next _ H1 H2) as (A & B & C & D).
    split; [exact A|split; [exact B|intros _; split; [exact C|exact D]]].
Qed.

Lemma velocity_test_second (eta : Scalar) :
  0 <= eta ->
  VelocityStage.test vel eta
    (Nat.iter 2 (VelocityStage.body normal vel accel dt) (VelocityStage.init vel accel dt))
  = false.
Proof.
  intros Heta. destruct (@velocity_iter 2%nat) as (_ & _ & H); [lia|].
  destruct H as [Hres Hrd]; [lia|].
  unfold VelocityStage.test. rewrite Hres, Hrd. rewrite maxNorm_zero.
  apply Rgtb_false. lra.
Qed.

Lemma velocity_solve_projection (eta : Scalar) :
  xyz (VelocityStage.update_velocity normal vel accel dt
         (VelocityStage.mu (snd (VelocityStage.solve normal vel accel dt eta))))
  = tangent_part normal (free_velocity vel accel dt) /\
  w4 (VelocityStage.update_velocity normal vel accel dt
        (VelocityStage.mu (snd (VelocityStage.solve normal vel accel dt eta)))) = w4 vel /\
  (0 <= eta -> (fst (VelocityStage.solve normal vel accel dt eta) <= 2)%nat).
Proof.
  destruct (velocity_solve_spec normal vel accel dt eta) as (k & Hk & Heq & Hbefore & Hexit).
  rewrite Heq. cbn [fst snd]. split; [|split; [reflexivity|]].
  - destruct (@velocity_iter k) as (_ & Hmu & _); [lia|].
    rewrite Hmu. unfold VelocityStage.update_velocity, xyz, tangent_part, free_velocity,
      VelocityStage.inv_mass, VelocityStage.mass, dot.
    cbn [x y z x4 y4 z4]. unfold dot in Hn. f_equal; field; auto.
  - intros Heta.
    destruct (le_lt_dec k 2) as [Hle|Hgt]; [exact Hle|].
    pose proof (Hbefore 2%nat ltac:(lia)) as Ht.
    rewrite (velocity_test_second Heta) in Ht. discriminate.
Qed.

End VelocityProjection.

(** X8.  For a gradient, a mass and a time step different from zero, the
    velocity that the velocity loop of step two produces is the tangent
    part of the velocity after an unconstrained half step, for every
    tolerance; the mass is kept, the result has no component along the
    gradient, and for a tolerance that is not negative the loop leaves
    after at most two turns. *)
Theorem velocity_stage_projects
  (normal : Scalar3) (vel : Scalar4) (accel : Scalar3) (dt eta : Scalar)
  (Hn : dot normal normal <> 0) (Hm : w4 vel <> 0) (Hdt : dt <> 0) :
  let r := VelocityStage.solve normal vel accel dt eta in
  let stored := VelocityStage.update_velocity normal vel accel dt (VelocityStage.mu (snd r)) in
  xyz stored = tangent_part normal (free_velocity vel accel dt) /\
  w4 stored = w4 vel /\
  dot normal (xyz stored) = 0 /\
  (0 <= eta -> (fst r <= 2)%nat).
Proof.
  intros r stored.
  destruct (@velocity_solve_projection normal vel accel dt Hn Hm Hdt eta) as (H1 & H2 & H3).
  split; [exact H1|split; [exact H2|split; [|exact H3]]].
  subst stored r. rewrite H1. apply tangent_part_tangent. exact Hn.
Qed.

Lemma velocity_stage_projects_witness :
  let normal := make_scalar3 0 0 1 in
  let vel := make_scalar4 1 2 3 1 in
  let accel := make_scalar3 0 0 0 in
  xyz (VelocityStage.update_velocity normal vel accel 1
         (VelocityStage.mu (snd (VelocityStage.solve normal vel accel 1 0))))
  = make_scalar3 1 2 0 /\
  (fst (VelocityStage.solve normal vel accel 1 0) <= 2)%nat.
Proof.
  cbv zeta.
  pose proof (@velocity_stage_projects (make_scalar3 0 0 1) (make_scalar4 1 2 3 1)
                (make_scalar3 0 0 0) 1 0) as H.
  cbv zeta in H. destruct H as (H1 & _ & _ & H2).
  - unfold dot; cbn; lra.
  - cbn; lra.
  - lra.
  - split; [|apply H2; lra].
    rewrite H1. unfold tangent_part, free_velocity, dot. cbn [x y z x4 y4 z4 w4].
    f_equal; field.
Defined.

Section LangevinStepTwo.

Variable UniformDistribution : Scalar -> Scalar -> RandomGenerator -> Scalar * RandomGenerator.
Variable NormalDistribution : Scalar -> RandomGenerator -> Scalar * RandomGenerator.
Variable scalar_as_int : Scalar -> nat.
Variable EPSILON : Scalar.
Variable body_angular_velocity : Scalar4 -> Scalar4 -> Scalar3.
Variable rotate : Scalar4 -> Scalar3 -> Scalar3.

Lemma noise_torque_keeps (m : RATTLELangevin.t) (currentTemp : Scalar) (pd : ParticleData)
  (j : nat) (rng : RandomGenerator) :
  let pd' := RATTLELangevin.noise_torque NormalDistribution scalar_as_int EPSILON
               body_angular_velocity rotate m currentTemp pd j rng in
  h_pos pd' = h_pos pd /\ h_vel pd' = h_vel pd /\ h_accel pd' = h_accel pd.
Proof.
  cbv zeta. unfold RATTLELangevin.noise_torque.
  destruct (Rgtb _ 0 || Rgtb _ 0 || Rgtb _ 0); [|auto].
  repeat match goal with
         | |- context [NormalDistribution ?s ?r] => destruct (NormalDistribution s r)
         end.
  auto.
Qed.

Lemma langevin_stepTwo_stored (m : RATTLELangevin.t) (timestep : Z) (pd : ParticleData)
  (e : Scalar) (j : nat) :
  let pd' := fst (RATTLELangevin.stepTwo_particle UniformDistribution NormalDistribution
                    scalar_as_int EPSILON body_angular_velocity rotate m timestep (pd, e) j) in
  let normal := derivative (RATTLELangevin.m_manifold m) (xyz (h_pos pd j)) in
  h_pos pd' = h_pos pd /\
  h_vel pd' j =
    VelocityStage.update_velocity normal (h_vel pd j) (h_accel pd' j) (RATTLELangevin.m_deltaT m)
      (VelocityStage.mu
         (snd (VelocityStage.solve normal (h_vel pd j) (h_accel pd' j)
                 (RATTLELangevin.m_deltaT m) (RATTLELangevin.m_eta m)))).
Proof.
  cbv zeta. unfold RATTLELangevin.stepTwo_particle.
  destruct (RATTLELangevin.random_force _ _ _ _ _ _ _) as [[r coeff] rng].
  cbv zeta.
  destruct (RATTLELangevin.m_aniso m).
  - cbn [fst].
    match goal with
    | |- context [RATTLELangevin.noise_torque ?a ?b ?c ?d ?f ?g ?h ?i ?k ?l] =>
        destruct (@noise_torque_keeps g h i k l) as (Hp & Hv & Ha)
    end.
    rewrite Hp, Hv, Ha.
    cbn [h_pos h_vel h_accel set_accel set_vel]. rewrite !upd_same.
    split; reflexivity.
  - cbn [fst h_pos h_vel h_accel set_accel set_vel]. rewrite !upd_same.
    split; reflexivity.
Qed.

End LangevinStepTwo.

Lemma langevin_stepTwo_particle_tangent
  (UniformDistribution : Scalar -> Scalar -> RandomGenerator -> Scalar * RandomGenerator)
  (NormalDistribution : Scalar -> RandomGenerator -> Scalar * RandomGenerator)
  (scalar_as_int : Scalar -> nat) (EPSILON : Scalar)
  (body_angular_velocity : Scalar4 -> Scalar4 -> Scalar3)
  (rotate : Scalar4 -> Scalar3 -> Scalar3)
  (m : RATTLELangevin.t) (timestep : Z) (pd : ParticleData) (e : Scalar) (j : nat) :
  let pd' := fst (RATTLELangevin.stepTwo_particle UniformDistribution NormalDistribution
                    scalar_as_int EPSILON body_angular_velocity rotate m timestep (pd, e) j) in
  let normal := derivative (RATTLELangevin.m_manifold m) (xyz (h_pos pd j)) in
  dot normal normal <> 0 -> w4 (h_vel pd j) <> 0 -> RATTLELangevin.m_deltaT m <> 0 ->
  xyz (h_vel pd' j)
  = tangent_part normal (free_velocity (h_vel pd j) (h_accel pd' j) (RATTLELangevin.m_deltaT m))
  /\ w4 (h_vel pd' j) = w4 (h_vel pd j).
Proof.
  intros pd' normal Hn Hm Hdt.
  destruct (langevin_stepTwo_stored UniformDistribution NormalDistribution scalar_as_int
              EPSILON body_angular_velocity rotate m timestep pd e j) as [Hp Hv].
  fold pd' in Hp, Hv. fold normal in Hv.
  destruct (@velocity_solve_projection normal (h_vel pd j) (h_accel pd' j)
              (RATTLELangevin.m_deltaT m) Hn Hm Hdt (RATTLELangevin.m_eta m)) as (H1 & H2 & _).
  rewrite Hv. split; [exact H1|exact H2].
Qed.

Lemma cx_normal_nonzero :
  dot (derivative cx_manifold (xyz cx_pos)) (derivative cx_manifold (xyz cx_pos)) <> 0.
Proof.
  unfold dot, cx_manifold, cx_pos, xyz. cbn.
  replace (PI * 1 / 1 * 2 * (1 / 4)) with (PI / 2) by field.
  rewrite sin_PI2.
  assert (HPI : 0 < PI * PI) by (apply Rmult_lt_0_compat; apply PI_RGT_0).
  replace (- (PI * 1 / 1 * 2) * 1 * (- (PI * 1 / 1 * 2) * 1)
           + - (PI * 1 / 1 * 2) * 1 * (- (PI * 1 / 1 * 2) * 1)
           + - (PI * 1 / 1 * 2) * 1 * (- (PI * 1 / 1 * 2) * 1))
    with (12 * (PI * PI)) by field.
  lra.
Qed.

Section LangevinStepTwoLoop.

Variable UniformDistribution : Scalar -> Scalar -> RandomGenerator -> Scalar * RandomGenerator.
Variable NormalDistribution : Scalar -> RandomGenerator -> Scalar * RandomGenerator.
Variable scalar_as_int : Scalar -> nat.
Variable EPSILON : Scalar.
Variable body_angular_velocity : Scalar4 -> Scalar4 -> Scalar3.
Variable rotate : Scalar4 -> Scalar3 -> Scalar3.
Variable m : RATTLELangevin.t.
Variable timestep : Z.

Lemma langevin_stepTwo_particle_other (pd : ParticleData) (e : Scalar) (j i : nat) :
  i <> j ->
  h_vel (fst ((RATTLELangevin.stepTwo_particle UniformDistribution NormalDistribution scalar_as_int
       EPSILON body_angular_velocity rotate m timestep) (pd, e) j)) i = h_vel pd i.
Proof.
  intros Hne. unfold RATTLELangevin.stepTwo_particle.
  destruct (RATTLELangevin.random_force _ _ _ _ _ _ _) as [[r coeff] rng].
  cbv zeta.
  destruct (RATTLELangevin.m_aniso m).
  - cbn [fst].
    match goal with
    | |- context [RATTLELangevin.noise_torque ?a ?b ?c ?d ?f ?g ?h ?i ?k ?l] =>
        destruct (@noise_torque_keeps a b c d f g h i k l) as (_ & Hv & _)
    end.
    rewrite Hv. cbn [h_vel set_accel set_vel]. apply upd_other. exact Hne.
  - cbn [fst h_vel set_accel set_vel]. apply upd_other. exact Hne.
Qed.

Lemma langevin_stepTwo_loop_frame (l : list nat) (pd : ParticleData) (e : Scalar) :
  h_pos (fst (fold_left (RATTLELangevin.stepTwo_particle UniformDistribution NormalDistribution scalar_as_int
       EPSILON body_angular_velocity rotate m timestep) l (pd, e))) = h_pos pd /\
  (forall i, ~ In i l ->
     h_vel (fst (fold_left (RATTLELangevin.stepTwo_particle UniformDistribution NormalDistribution scalar_as_int
       EPSILON body_angular_velocity rotate m timestep) l (pd, e))) i = h_vel pd i).
Proof.
  revert pd e. induction l as [|j l IH]; intros pd e; [split; auto|].
  cbn [fold_left].
  destruct (RATTLELangevin.stepTwo_particle UniformDistribution NormalDistribution
              scalar_as_int EPSILON body_angular_velocity rotate m timestep (pd, e) j)
    as [pd1 e1] eqn:E.
  destruct (IH pd1 e1) as [Hp Hv].
  assert (E1 : pd1 = fst (RATTLELangevin.stepTwo_particle UniformDistribution
                            NormalDistribution scalar_as_int EPSILON body_angular_velocity
                            rotate m timestep (pd, e) j)) by (rewrite E; reflexivity).
  split.
  - rewrite Hp, E1.
    exact (proj1 (langevin_stepTwo_stored UniformDistribution NormalDistribution scalar_as_int
                    EPSILON body_angular_velocity rotate m timestep pd e j)).
  - intros i Hi. rewrite Hv by (intros H; apply Hi; now right).
    rewrite E1. apply langevin_stepTwo_particle_other. intros ->. apply Hi. now left.
Qed.

End LangevinStepTwoLoop.

(** X9.  Without rotational coupling, Langevin [integrateStepTwo] moves no
    particle, and the velocity it stores for a particle of its group has no
    component along the gradient of the surface at the particle's
    position (for a gradient, a mass and a time step different from
    zero). *)
Theorem langevin_stepTwo_velocity_tangent
  (UniformDistribution : Scalar -> Scalar -> RandomGenerator -> Scalar * RandomGenerator)
  (NormalDistribution : Scalar -> RandomGenerator -> Scalar * RandomGenerator)
  (scalar_as_int : Scalar -> nat) (EPSILON : Scalar)
  (body_angular_velocity : Scalar4 -> Scalar4 -> Scalar3)
  (rotate : Scalar4 -> Scalar3 -> Scalar3)
  (angular_step_two : Scalar -> ParticleData -> nat -> ParticleData)
  (allreduce_sum : Scalar -> Scalar) (have_comm : bool)
  (m : RATTLELangevin.t) (timestep : Z) (pd : ParticleData) (j : nat)
  (Ha : RATTLELangevin.m_aniso m = false)
  (Hnd : NoDup (members (RATTLELangevin.m_group m)))
  (Hin : In j (members (RATTLELangevin.m_group m)))
  (Hn : dot (derivative (RATTLELangevin.m_manifold m) (xyz (h_pos pd j)))
            (derivative (RATTLELangevin.m_manifold m) (xyz (h_pos pd j))) <> 0)
  (Hm : w4 (h_vel pd j) <> 0)
  (Hdt : RATTLELangevin.m_deltaT m <> 0) :
  let pd' :=
    snd (RATTLELangevin.integrateStepTwo UniformDistribution NormalDistribution scalar_as_int
           EPSILON body_angular_velocity rotate angular_step_two allreduce_sum have_comm
           m timestep pd) in
  h_pos pd' = h_pos pd /\
  dot (derivative (RATTLELangevin.m_manifold m) (xyz (h_pos pd' j))) (xyz (h_vel pd' j)) = 0.
Proof.
  intros pd'.
  assert (Hpd' : pd' = fst (fold_left
                    (RATTLELangevin.stepTwo_particle UniformDistribution NormalDistribution
                       scalar_as_int EPSILON body_angular_velocity rotate m timestep)
                    (members (RATTLELangevin.m_group m)) (pd, 0))).
  { subst pd'. unfold RATTLELangevin.integrateStepTwo.
    destruct (fold_left _ _ (pd, 0)) as [pd0 e]. rewrite Ha.
    destruct (RATTLELangevin.m_tally m); reflexivity. }
  destruct (in_split _ _ Hin) as (l1 & l2 & Hl).
  rewrite Hl in Hnd. apply NoDup_remove_2 in Hnd.
  assert (Hj1 : ~ In j l1) by (intros H; apply Hnd, in_or_app; now left).
  assert (Hj2 : ~ In j l2) by (intros H; apply Hnd, in_or_app; now right).
  rewrite Hl, fold_left_app in Hpd'. cbn [fold_left] in Hpd'.
  set (step := RATTLELangevin.stepTwo_particle UniformDistribution NormalDistribution
                 scalar_as_int EPSILON body_angular_velocity rotate m timestep) in *.
  destruct (fold_left step l1 (pd, 0)) as [pd1 e1] eqn:E1.
  destruct (step (pd1, e1) j) as [pd2 e2] eqn:E2.
  destruct (langevin_stepTwo_loop_frame UniformDistribution NormalDistribution scalar_as_int
              EPSILON body_angular_velocity rotate m timestep l1 pd 0) as [Hp1 Hv1].
  fold step in Hp1, Hv1. rewrite E1 in Hp1, Hv1. cbn [fst] in Hp1, Hv1.
  destruct (langevin_stepTwo_loop_frame UniformDistribution NormalDistribution scalar_as_int
              EPSILON body_angular_velocity rotate m timestep l2 pd2 e2) as [Hp3 Hv3].
  fold step in Hp3, Hv3. rewrite <- Hpd' in Hp3, Hv3.
  pose proof (@langevin_stepTwo_particle_tangent UniformDistribution NormalDistribution
                scalar_as_int EPSILON body_angular_velocity rotate m timestep pd1 e1 j) as Ht.
  cbv zeta in Ht. fold step in Ht. rewrite E2 in Ht. cbn [fst] in Ht.
  assert (Hp2 : h_pos pd2 = h_pos pd1).
  { pose proof (proj1 (langevin_stepTwo_stored UniformDistribution NormalDistribution
                         scalar_as_int EPSILON body_angular_velocity rotate m timestep
                         pd1 e1 j)) as H.
    fold step in H. rewrite E2 in H. exact H. }
  assert (Hpos : h_pos pd' = h_pos pd) by (rewrite Hp3, Hp2, Hp1; reflexivity).
  split; [exact Hpos|].
  rewrite (Hv3 j Hj2), Hpos.
  rewrite Hp1 in Ht. rewrite (Hv1 j Hj1) in Ht.
  rewrite (proj1 (Ht Hn Hm Hdt)). apply tangent_part_tangent. exact Hn.
Qed.

Lemma langevin_stepTwo_velocity_tangent_witness :
  let pd' :=
    snd (RATTLELangevin.integrateStepTwo cx_uniform cx_normal cx_scalar_as_int 0
           cx_body_angular_velocity cx_rotate cx_angular (fun e => e) false
           cx_langevin 0 cx_pdata) in
  dot (derivative cx_manifold (xyz cx_pos)) (derivative cx_manifold (xyz cx_pos)) <> 0 /\
  dot (derivative cx_manifold (xyz (h_pos pd' 0%nat))) (xyz (h_vel pd' 0%nat)) = 0.
Proof.
  cbv zeta. split; [exact cx_normal_nonzero|].
  refine (proj2 (@langevin_stepTwo_velocity_tangent cx_uniform cx_normal cx_scalar_as_int 0
                   cx_body_angular_velocity cx_rotate cx_angular (fun e => e) false
                   cx_langevin 0%Z cx_pdata 0%nat _ _ _ _ _ _)).
  - reflexivity.
  - simpl. constructor; [simpl; tauto|constructor].
  - simpl. now left.
  - exact cx_normal_nonzero.
  - cbn. lra.
  - cbn. lra.
Defined.

(* ===================================================================== *)
(** * Force inclusion and the Langevin first half step *)
(* ===================================================================== *)

Lemma position_body_lands (manifold : Manifold) (pos vel : Scalar4) (accel : Scalar3)
  (dt : Scalar) (prev : PositionStage.state) :
  dt <> 0 -> w4 vel <> 0 ->
  let st := PositionStage.body manifold pos vel accel dt prev in
  let n := PositionStage.normal manifold pos in
  let l := PositionStage.lambda st in
  x4 pos + dt * (x4 vel + 1 / 2 * dt * (x accel - 1 / w4 vel * l * x n))
    = x (PositionStage.next_pos st) /\
  y4 pos + dt * (y4 vel + 1 / 2 * dt * (y accel - 1 / w4 vel * l * y n))
    = y (PositionStage.next_pos st) /\
  z4 pos + dt * (z4 vel + 1 / 2 * dt * (z accel - 1 / w4 vel * l * z n))
    = z (PositionStage.next_pos st).
Proof.
  intros Hdt Hm. cbv zeta. unfold PositionStage.body.
  cbn [PositionStage.lambda PositionStage.next_pos x y z].
  match goal with
  | |- context [(?a + ?b) / dot ?n1 ?n2] => generalize ((a + b) / dot n1 n2)
  end.
  intros beta.
  unfold PositionStage.inv_alpha, PositionStage.inv_mass, PositionStage.deltaT_half.
  repeat split; field; auto.
Qed.

Section LangevinStepOne.

Variable wrap : Scalar4 -> int3 -> Scalar4 * int3.
Variable angular_step_one : Scalar -> ParticleData -> nat -> ParticleData.
Variable pitch : nat.

Lemma langevin_stepOne_particle_at (m : RATTLELangevin.t) (pd : ParticleData) (j : nat) :
  particle pitch (RATTLELangevin.stepOne_particle wrap m pd j) j
  = langevin_stepOne_kernel wrap m (particle pitch pd j).
Proof.
  unfold particle, langevin_stepOne_kernel, RATTLELangevin.stepOne_particle.
  cbn -[Nat.mul Nat.add]. rewrite ?upd_same. reflexivity.
Qed.

Lemma langevin_stepOne_particle_frame (m : RATTLELangevin.t) (pd : ParticleData) (j i : nat) :
  i <> j ->
  particle pitch (RATTLELangevin.stepOne_particle wrap m pd j) i = particle pitch pd i.
Proof.
  intros Hne. unfold particle, RATTLELangevin.stepOne_particle.
  cbn -[Nat.mul Nat.add]. repeat rewrite (upd_other _ _ Hne). reflexivity.
Qed.

Lemma langevin_integrateStepOne_at (m : RATTLELangevin.t) (timestep : Z) (pd : ParticleData)
  (j : nat) :
  RATTLELangevin.m_aniso m = false ->
  NoDup (members (RATTLELangevin.m_group m)) ->
  In j (members (RATTLELangevin.m_group m)) ->
  particle pitch (RATTLELangevin.integrateStepOne wrap angular_step_one m timestep pd) j
  = langevin_stepOne_kernel wrap m (particle pitch pd j).
Proof.
  intros Ha Hnd Hin. unfold RATTLELangevin.integrateStepOne. rewrite Ha. cbv zeta.
  assert (Hall : Forall (fun _ : nat => True) (members (RATTLELangevin.m_group m)))
    by (apply Forall_forall; auto).
  apply (@for_each_at pitch (fun _ => True));
    auto using langevin_stepOne_particle_frame, langevin_stepOne_particle_at.
Qed.

Lemma langevin_include_at (m : RATTLELangevin.t) (timestep : Z) (pd : ParticleData) (j : nat) :
  NoDup (members (RATTLELangevin.m_group m)) ->
  Forall (fun j => (j < pitch)%nat) (members (RATTLELangevin.m_group m)) ->
  In j (members (RATTLELangevin.m_group m)) ->
  particle pitch (RATTLELangevin.IncludeRATTLEForce pitch m timestep pd) j
  = include_kernel m (particle pitch pd j).
Proof.
  intros Hnd Hv Hin. unfold RATTLELangevin.IncludeRATTLEForce.
  apply (@for_each_at pitch (fun j => (j < pitch)%nat)); auto.
  - intros. apply include_particle_frame; auto.
  - intros. apply include_particle_at; auto.
Qed.

End LangevinStepOne.

(** X10.  [IncludeRATTLEForce] followed by Langevin [integrateStepOne]
    (without rotational coupling) puts a particle of the group exactly at
    the final candidate position of the RATTLE loop that
    [IncludeRATTLEForce] ran for it, wrapped into the box, for a time step
    and a mass different from zero. *)
Theorem langevin_step_one_lands_on_candidate
  (wrap : Scalar4 -> int3 -> Scalar4 * int3)
  (angular_step_one : Scalar -> ParticleData -> nat -> ParticleData)
  (pitch : nat) (m : RATTLELangevin.t) (timestep : Z) (pd : ParticleData) (j : nat)
  (Ha : RATTLELangevin.m_aniso m = false)
  (Hnd : NoDup (members (RATTLELangevin.m_group m)))
  (Hv : Forall (fun j => (j < pitch)%nat) (members (RATTLELangevin.m_group m)))
  (Hin : In j (members (RATTLELangevin.m_group m)))
  (Hdt : RATTLELangevin.m_deltaT m <> 0)
  (Hm : w4 (h_vel pd j) <> 0) :
  let st :=
    snd (PositionStage.solve (RATTLELangevin.m_manifold m) (h_pos pd j) (h_vel pd j)
           (h_accel pd j) (RATTLELangevin.m_deltaT m) (RATTLELangevin.m_eta m)) in
  let candidate := PositionStage.next_pos st in
  let pd' :=
    RATTLELangevin.integrateStepOne wrap angular_step_one m timestep
      (RATTLELangevin.IncludeRATTLEForce pitch m timestep pd) in
  (h_pos pd' j, h_image pd' j)
  = wrap (make_scalar4 (x candidate) (y candidate) (z candidate) (w4 (h_pos pd j)))
         (h_image pd j).
Proof.
  intros st candidate pd'.
  pose proof (@langevin_integrateStepOne_at wrap angular_step_one pitch m timestep
                (RATTLELangevin.IncludeRATTLEForce pitch m timestep pd) j Ha Hnd Hin) as H1.
  rewrite (@langevin_include_at pitch m timestep pd j Hnd Hv Hin) in H1.
  fold pd' in H1.
  pose proof (f_equal p_pos H1) as Hp. pose proof (f_equal p_image H1) as Hi.
  cbn [particle p_pos p_image] in Hp, Hi.
  rewrite Hp, Hi. clear H1 Hp Hi.
  unfold langevin_stepOne_kernel, include_kernel.
  cbn [p_pos p_vel p_accel p_image particle x y z x4 y4 z4 w4].
  destruct (position_solve_spec (RATTLELangevin.m_manifold m) (h_pos pd j) (h_vel pd j)
              (h_accel pd j) (RATTLELangevin.m_deltaT m) (RATTLELangevin.m_eta m))
    as (k & Hk & Heq & _).
  assert (Hst : st = PositionStage.body (RATTLELangevin.m_manifold m) (h_pos pd j) (h_vel pd j)
                       (h_accel pd j) (RATTLELangevin.m_deltaT m)
                       (Nat.iter (k - 1)
                          (PositionStage.body (RATTLELangevin.m_manifold m) (h_pos pd j)
                             (h_vel pd j) (h_accel pd j) (RATTLELangevin.m_deltaT m))
                          (PositionStage.init (h_pos pd j)))).
  { subst st. rewrite Heq. cbn [snd]. apply iter_pred. lia. }
  destruct (@position_body_lands (RATTLELangevin.m_manifold m) (h_pos pd j) (h_vel pd j)
              (h_accel pd j) (RATTLELangevin.m_deltaT m)
              (Nat.iter (k - 1)
                 (PositionStage.body (RATTLELangevin.m_manifold m) (h_pos pd j)
                    (h_vel pd j) (h_accel pd j) (RATTLELangevin.m_deltaT m))
                 (PositionStage.init (h_pos pd j))) Hdt Hm) as (Hx & Hy & Hz).
  rewrite <- Hst in Hx, Hy, Hz. fold candidate in Hx, Hy, Hz.
  fold st. rewrite Hx, Hy, Hz.
  rewrite <- surjective_pairing. reflexivity.
Qed.

Lemma langevin_step_one_lands_on_candidate_witness :
  let st := snd (PositionStage.solve cx_manifold cx_pos cx_vel cx_accel 1 1) in
  let candidate := PositionStage.next_pos st in
  let pd' :=
    RATTLELangevin.integrateStepOne cx_wrap cx_angular cx_langevin 0
      (RATTLELangevin.IncludeRATTLEForce 1 cx_langevin 0 cx_pdata) in
  h_pos pd' 0%nat = make_scalar4 (x candidate) (y candidate) (z candidate) 0.
Proof.
  pose proof (@langevin_step_one_lands_on_candidate cx_wrap cx_angular 1%nat cx_langevin 0%Z
                cx_pdata 0%nat) as H.
  cbv zeta in *.
  refine (f_equal fst (H _ _ _ _ _ _)).
  - reflexivity.
  - simpl. constructor; [simpl; tauto|constructor].
  - simpl. constructor; [lia|constructor].
  - simpl. now left.
  - cbn. lra.
  - cbn. lra.
Defined.

(** X11.  [IncludeRATTLEForce] keeps the acceleration of a particle equal to
    its net force times the inverse mass: when this holds for a particle
    before the call, it holds after it, inside and outside the group. *)
Theorem IncludeRATTLEForce_keeps_newton (pitch : nat) (m : RATTLELangevin.t) (timestep : Z)
  (pd : ParticleData) (j : nat)
  (Hnd : NoDup (members (RATTLELangevin.m_group m)))
  (Hv : Forall (fun j => (j < pitch)%nat) (members (RATTLELangevin.m_group m)))
  (Hj : (j < pitch)%nat)
  (Hnewton :
     h_accel pd j =
     make_scalar3 (x4 (h_net_force pd j) * (1 / w4 (h_vel pd j)))
                  (y4 (h_net_force pd j) * (1 / w4 (h_vel pd j)))
                  (z4 (h_net_force pd j) * (1 / w4 (h_vel pd j)))) :
  let pd' := RATTLELangevin.IncludeRATTLEForce pitch m timestep pd in
  h_accel pd' j =
  make_scalar3 (x4 (h_net_force pd' j) * (1 / w4 (h_vel pd' j)))
               (y4 (h_net_force pd' j) * (1 / w4 (h_vel pd' j)))
               (z4 (h_net_force pd' j) * (1 / w4 (h_vel pd' j))).
Proof.
  intros pd'.
  destruct (in_dec Nat.eq_dec j (members (RATTLELangevin.m_group m))) as [Hin|Hout].
  - pose proof (@langevin_include_at pitch m timestep pd j Hnd Hv Hin) as H. fold pd' in H.
    pose proof (f_equal p_accel H) as Ea. pose proof (f_equal p_net_force H) as Ef.
    pose proof (f_equal p_vel H) as Ev.
    unfold include_kernel in Ea, Ef, Ev.
    cbn [particle p_accel p_net_force p_vel p_pos] in Ea, Ef, Ev.
    rewrite Ea, Ef, Ev. cbn [x4 y4 z4 w4].
    rewrite Hnewton. cbn [x y z]. f_equal; ring.
  - assert (H : particle pitch pd' j = particle pitch pd j).
    { subst pd'. unfold RATTLELangevin.IncludeRATTLEForce.
      apply (@for_each_frame pitch (fun j => (j < pitch)%nat)); auto.
      intros. apply include_particle_frame; auto. }
    pose proof (f_equal p_accel H) as Ea. pose proof (f_equal p_net_force H) as Ef.
    pose proof (f_equal p_vel H) as Ev.
    cbn [particle p_accel p_net_force p_vel] in Ea, Ef, Ev.
    rewrite Ea, Ef, Ev. exact Hnewton.
Qed.

Lemma IncludeRATTLEForce_keeps_newton_witness :
  let pd' := RATTLELangevin.IncludeRATTLEForce 1 cx_langevin 0 cx_pdata in
  h_accel pd' 0%nat =
  make_scalar3 (x4 (h_net_force pd' 0%nat) * (1 / w4 (h_vel pd' 0%nat)))
               (y4 (h_net_force pd' 0%nat) * (1 / w4 (h_vel pd' 0%nat)))
               (z4 (h_net_force pd' 0%nat) * (1 / w4 (h_vel pd' 0%nat))).
Proof.
  apply (@IncludeRATTLEForce_keeps_newton 1%nat cx_langevin 0%Z cx_pdata 0%nat).
  - simpl. constructor; [simpl; tauto|constructor].
  - simpl. constructor; [lia|constructor].
  - lia.
  - unfold cx_pdata, cx_accel. cbn. f_equal; field.
Defined.

(* ===================================================================== *)
(** * A particle at rest on the surface *)
(* ===================================================================== *)

Lemma position_rest (manifold : Manifold) (pos vel : Scalar4) (dt eta : Scalar) :
  implicit_function manifold (xyz pos) = 0 ->
  xyz vel = make_scalar3 0 0 0 ->
  0 <= eta ->
  PositionStage.solve manifold pos vel (make_scalar3 0 0 0) dt eta
  = (1%nat,
     {| PositionStage.next_pos := xyz pos;
        PositionStage.lambda := 0;
        PositionStage.residual := make_scalar3 0 0 0;
        PositionStage.resid := 0;
        PositionStage.half_vel := make_scalar3 0 0 0 |}).
Proof.
  intros Hg Hv Heta.
  assert (Hvx : x4 vel = 0) by exact (f_equal x Hv).
  assert (Hvy : y4 vel = 0) by exact (f_equal y Hv).
  assert (Hvz : z4 vel = 0) by exact (f_equal z Hv).
  assert (Hb : PositionStage.body manifold pos vel (make_scalar3 0 0 0) dt
                 (PositionStage.init pos)
               = {| PositionStage.next_pos := xyz pos;
                    PositionStage.lambda := 0;
                    PositionStage.residual := make_scalar3 0 0 0;
                    PositionStage.resid := 0;
                    PositionStage.half_vel := make_scalar3 0 0 0 |}).
  { unfold PositionStage.body, PositionStage.init.
    cbn [PositionStage.next_pos PositionStage.lambda x y z].
    change (make_scalar3 (x4 pos) (y4 pos) (z4 pos)) with (xyz pos).
    rewrite Hg, Hvx, Hvy, Hvz. unfold dot, xyz, Rdiv. cbn [x y z].
    f_equal; try ring; f_equal; ring. }
  unfold PositionStage.solve.
  rewrite (@do_while_exit_at _ _ _ maxiteration 0%nat 1%nat).
  - cbn [Nat.iter nat_rect Nat.add]. rewrite Hb. reflexivity.
  - lia.
  - unfold maxiteration. lia.
  - intros i Hi. lia.
  - cbn [Nat.iter nat_rect]. rewrite Hb. unfold PositionStage.test.
    cbn [PositionStage.residual PositionStage.resid]. rewrite maxNorm_zero.
    apply Rgtb_false. exact Heta.
Qed.

Lemma limit_displacement_zero (m : RATTLENVE.t) :
  (RATTLENVE.m_limit m = true -> 0 <= RATTLENVE.m_limit_val m) ->
  RATTLENVE.limit_displacement m (make_scalar3 0 0 0) = make_scalar3 0 0 0.
Proof.
  intros H. unfold RATTLENVE.limit_displacement.
  destruct (RATTLENVE.m_limit m); [|reflexivity].
  cbv zeta. cbn [x y z]. replace (0 * 0 + 0 * 0 + 0 * 0) with 0 by ring. rewrite sqrt_0.
  destruct (Rgt_dec 0 (RATTLENVE.m_limit_val m)) as [Hgt|_]; [|reflexivity].
  specialize (H eq_refl). lra.
Qed.

(** X12.  A particle at rest on the surface with no acceleration is a fixed
    point of NVE step one: the position loop leaves after one turn, and the
    stored position and velocity are the old ones (for a tolerance that is
    not negative and, when a limit is set, a limit that is not negative). *)
Theorem nve_rest_on_manifold_stays (m : RATTLENVE.t) (pd : ParticleData) (j : nat)
  (Hg : implicit_function (RATTLENVE.m_manifold m) (xyz (h_pos pd j)) = 0)
  (Hv : xyz (h_vel pd j) = make_scalar3 0 0 0)
  (Hf : RATTLENVE.m_zero_force m = true \/ h_accel pd j = make_scalar3 0 0 0)
  (Hm : w4 (h_vel pd j) <> 0)
  (Heta : 0 <= RATTLENVE.m_eta m)
  (Hl : RATTLENVE.m_limit m = true -> 0 <= RATTLENVE.m_limit_val m) :
  let accel := if RATTLENVE.m_zero_force m then make_scalar3 0 0 0 else h_accel pd j in
  let pd' := RATTLENVE.stepOne_particle m pd j in
  fst (PositionStage.solve (RATTLENVE.m_manifold m) (h_pos pd j) (h_vel pd j) accel
         (RATTLENVE.m_deltaT m) (RATTLENVE.m_eta m)) = 1%nat /\
  h_pos pd' j = h_pos pd j /\ h_vel pd' j = h_vel pd j.
Proof.
  intros accel pd'.
  assert (Ha : accel = make_scalar3 0 0 0).
  { subst accel. destruct (RATTLENVE.m_zero_force m); [reflexivity|].
    destruct Hf as [Hf|Hf]; [discriminate|exact Hf]. }
  pose proof (@position_rest (RATTLENVE.m_manifold m) (h_pos pd j) (h_vel pd j)
                (RATTLENVE.m_deltaT m) (RATTLENVE.m_eta m) Hg Hv Heta) as Hs.
  rewrite Ha. rewrite Hs. split; [reflexivity|].
  pose proof (stepOne_particle_at 0%nat m pd j) as Hk. fold pd' in Hk.
  assert (Hacc : (if RATTLENVE.m_zero_force m then make_scalar3 0 0 0 else h_accel pd j)
                 = make_scalar3 0 0 0) by exact Ha.
  split.
  - apply (f_equal p_pos) in Hk. cbn [particle p_pos] in Hk. rewrite Hk.
    unfold stepOne_kernel, particle. cbn [p_pos p_vel p_accel].
    rewrite Hacc, Hs. cbn [snd PositionStage.half_vel x y z].
    replace (make_scalar3 (RATTLENVE.m_deltaT m * 0) (RATTLENVE.m_deltaT m * 0)
               (RATTLENVE.m_deltaT m * 0))
      with (make_scalar3 0 0 0) by (f_equal; ring).
    rewrite (limit_displacement_zero m Hl). cbn [x y z].
    destruct (h_pos pd j) as [px py pz pw]. cbn [x4 y4 z4 w4]. f_equal; ring.
  - apply (f_equal p_vel) in Hk. cbn [particle p_vel] in Hk. rewrite Hk.
    unfold stepOne_kernel, particle. cbn [p_pos p_vel p_accel].
    rewrite Hacc, Hs. cbn [snd PositionStage.half_vel x y z].
    pose proof (f_equal x Hv) as Hx. pose proof (f_equal y Hv) as Hy.
    pose proof (f_equal z Hv) as Hz. clear Hs Hk Hv.
    destruct (h_vel pd j) as [vx vy vz vw]. cbn [xyz x y z x4 y4 z4 w4] in *.
    subst vx vy vz. reflexivity.
Qed.

Lemma cx_on_manifold : implicit_function cx_manifold (xyz cx_pos) = 0.
Proof.
  unfold cx_manifold, cx_pos, xyz. cbn.
  replace (PI * 1 / 1 * 2 * (1 / 4)) with (PI / 2) by field.
  rewrite cos_PI2. ring.
Qed.

Lemma nve_rest_on_manifold_stays_witness :
  let pd' := RATTLENVE.stepOne_particle cx_method cx_pdata_rest 0%nat in
  implicit_function cx_manifold (xyz (h_pos cx_pdata_rest 0%nat)) = 0 /\
  h_pos pd' 0%nat = cx_pos /\ h_vel pd' 0%nat = make_scalar4 0 0 0 1.
Proof.
  cbv zeta. split; [exact cx_on_manifold|].
  refine (proj2 (@nve_rest_on_manifold_stays cx_method cx_pdata_rest 0%nat _ _ _ _ _ _)).
  - exact cx_on_manifold.
  - reflexivity.
  - right. reflexivity.
  - cbn. lra.
  - cbn. lra.
  - intros H. discriminate H.
Defined.

(* ===================================================================== *)
(** * The triply periodic surfaces *)
(* ===================================================================== *)

Lemma derivable_pt_lim_eq (f : R -> R) (t0 l l' : R) :
  l = l' -> derivable_pt_lim f t0 l -> derivable_pt_lim f t0 l'.
Proof. intros ->. auto. Qed.

Lemma derivable_pt_lim_trig (a b c L t0 : R) :
  derivable_pt_lim (fun t => a * sin (L * t) + b + c * cos (L * t)) t0
    (a * (L * cos (L * t0)) - c * (L * sin (L * t0))).
Proof.
  assert (Hlin : derivable_pt_lim (mult_real_fct L id) t0 (L * 1)).
  { apply derivable_pt_lim_scal. apply derivable_pt_lim_id. }
  assert (Hsin : derivable_pt_lim (comp sin (mult_real_fct L id)) t0
                   (cos (mult_real_fct L id t0) * (L * 1))).
  { apply derivable_pt_lim_comp; [exact Hlin|apply derivable_pt_lim_sin]. }
  assert (Hcos : derivable_pt_lim (comp cos (mult_real_fct L id)) t0
                   (- sin (mult_real_fct L id t0) * (L * 1))).
  { apply derivable_pt_lim_comp; [exact Hlin|apply derivable_pt_lim_cos]. }
  pose proof (derivable_pt_lim_scal _ a _ _ Hsin) as Ha.
  pose proof (derivable_pt_lim_scal _ c _ _ Hcos) as Hc.
  pose proof (derivable_pt_lim_const b t0) as Hb.
  pose proof (derivable_pt_lim_plus _ _ _ _ _ (derivable_pt_lim_plus _ _ _ _ _ Ha Hb) Hc) as H.
  eapply derivable_pt_lim_eq; [|exact H].
  unfold mult_real_fct, id. ring.
Qed.

Lemma derivable_pt_lim_trig_as (f : R -> R) (a b c L t0 l : R) :
  (forall t, f t = a * sin (L * t) + b + c * cos (L * t)) ->
  l = a * (L * cos (L * t0)) - c * (L * sin (L * t0)) ->
  derivable_pt_lim f t0 l.
Proof.
  intros Hf ->. intros eps Heps.
  destruct (@derivable_pt_lim_trig a b c L t0 eps Heps) as [delta Hd]. exists delta.
  intros h Hh Hlt. rewrite !Hf. exact (Hd h Hh Hlt).
Qed.

(** X13.  For each of the three surfaces, the components of
    [TPMSManifold::derivative] at a point are the partial derivatives of
    [TPMSManifold::implicit_function] there. *)
Theorem TPMS_derivative_is_gradient (m : TPMS.t) (p : Scalar3) :
  derivable_pt_lim (fun t => TPMS.implicit_function m (make_scalar3 t (y p) (z p))) (x p)
    (x (TPMS.derivative m p)) /\
  derivable_pt_lim (fun t => TPMS.implicit_function m (make_scalar3 (x p) t (z p))) (y p)
    (y (TPMS.derivative m p)) /\
  derivable_pt_lim (fun t => TPMS.implicit_function m (make_scalar3 (x p) (y p) t)) (z p)
    (z (TPMS.derivative m p)).
Proof.
  unfold TPMS.implicit_function, TPMS.derivative.
  destruct (TPMS.surf m); cbn [x y z]; (split; [|split]).
  - apply (@derivable_pt_lim_trig_as _ (cos (TPMS.Ly m * y p))
             (sin (TPMS.Ly m * y p) * cos (TPMS.Lz m * z p))
             (sin (TPMS.Lz m * z p)) (TPMS.Lx m) (x p));
      [intros t; cbn [x y z]; ring|ring].
  - apply (@derivable_pt_lim_trig_as _ (cos (TPMS.Lz m * z p))
             (sin (TPMS.Lz m * z p) * cos (TPMS.Lx m * x p))
             (sin (TPMS.Lx m * x p)) (TPMS.Ly m) (y p));
      [intros t; cbn [x y z]; ring|ring].
  - apply (@derivable_pt_lim_trig_as _ (cos (TPMS.Lx m * x p))
             (sin (TPMS.Lx m * x p) * cos (TPMS.Ly m * y p))
             (sin (TPMS.Ly m * y p)) (TPMS.Lz m) (z p));
      [intros t; cbn [x y z]; ring|ring].
  - apply (@derivable_pt_lim_trig_as _ (- (sin (TPMS.Ly m * y p) * sin (TPMS.Lz m * z p)))
             (0)
             (cos (TPMS.Ly m * y p) * cos (TPMS.Lz m * z p)) (TPMS.Lx m) (x p));
      [intros t; cbn [x y z]; ring|ring].
  - apply (@derivable_pt_lim_trig_as _ (- (sin (TPMS.Lx m * x p) * sin (TPMS.Lz m * z p)))
             (0)
             (cos (TPMS.Lx m * x p) * cos (TPMS.Lz m * z p)) (TPMS.Ly m) (y p));
      [intros t; cbn [x y z]; ring|ring].
  - apply (@derivable_pt_lim_trig_as _ (- (sin (TPMS.Lx m * x p) * sin (TPMS.Ly m * y p)))
             (0)
             (cos (TPMS.Lx m * x p) * cos (TPMS.Ly m * y p)) (TPMS.Lz m) (z p));
      [intros t; cbn [x y z]; ring|ring].
  - apply (@derivable_pt_lim_trig_as _ (0)
             (cos (TPMS.Ly m * y p) + cos (TPMS.Lz m * z p))
             (1) (TPMS.Lx m) (x p));
      [intros t; cbn [x y z]; ring|ring].
  - apply (@derivable_pt_lim_trig_as _ (0)
             (cos (TPMS.Lx m * x p) + cos (TPMS.Lz m * z p))
             (1) (TPMS.Ly m) (y p));
      [intros t; cbn [x y z]; ring|ring].
  - apply (@derivable_pt_lim_trig_as _ (0)
             (cos (TPMS.Lx m * x p) + cos (TPMS.Ly m * y p))
             (1) (TPMS.Lz m) (z p));
      [intros t; cbn [x y z]; ring|ring].
Qed.

Lemma cos_shift (n : nat) (t : R) : cos (t + INR n * PI) = (-1) ^ n * cos t.
Proof.
  induction n as [|n IH].
  - simpl. replace (t + 0 * PI) with t by ring. ring.
  - rewrite S_INR. replace (t + (INR n + 1) * PI) with ((t + INR n * PI) + PI) by ring.
    rewrite neg_cos, IH. simpl. ring.
Qed.

Lemma sin_shift (n : nat) (t : R) : sin (t + INR n * PI) = (-1) ^ n * sin t.
Proof.
  induction n as [|n IH].
  - simpl. replace (t + 0 * PI) with t by ring. ring.
  - rewrite S_INR. replace (t + (INR n + 1) * PI) with ((t + INR n * PI) + PI) by ring.
    rewrite neg_sin, IH. simpl. ring.
Qed.

Lemma pow_minus_one_nonzero (n : nat) : (-1) ^ n <> 0.
Proof. apply pow_nonzero. lra. Qed.

Lemma wave_shift (N : nat) (b t : R) :
  b <> 0 -> PI * INR N / b * (t + b) = PI * INR N / b * t + INR N * PI.
Proof. intros Hb. field. exact Hb. Qed.

Lemma wave_shift_double (N : nat) (b t : R) :
  b <> 0 -> PI * INR N / b * 2 * (t + b) = PI * INR N / b * 2 * t + 2 * INR N * PI.
Proof. intros Hb. field. exact Hb. Qed.

Lemma scaled_zero_iff (s a b : R) : s <> 0 -> a = s * b -> (a = 0 <-> b = 0).
Proof.
  intros Hs ->. split; [intros H|intros ->; ring].
  destruct (Rmult_integral _ _ H) as [H0|H0]; [contradiction|exact H0].
Qed.

(** X14.  With the wave numbers that [setup] computes from the box, moving
    a point by one box length along an axis keeps it on or off the
    surface: the gyroid and the primitive surface function are unchanged,
    the diamond function is multiplied by [(-1)^N] for [N] unit cells along
    that axis. *)
Theorem TPMS_periodic_in_box (s : TPMS.surface) (Nx Ny Nz : nat) (box_length p : Scalar3)
  (Hx : x box_length <> 0) (Hy : y box_length <> 0) (Hz : z box_length <> 0) :
  let f := TPMS.implicit_function (TPMS.setup s Nx Ny Nz box_length) in
  let px := make_scalar3 (x p + x box_length) (y p) (z p) in
  let py := make_scalar3 (x p) (y p + y box_length) (z p) in
  let pz := make_scalar3 (x p) (y p) (z p + z box_length) in
  (f px = 0 <-> f p = 0) /\ (f py = 0 <-> f p = 0) /\ (f pz = 0 <-> f p = 0) /\
  (s <> TPMS.Diamond -> f px = f p /\ f py = f p /\ f pz = f p) /\
  (s = TPMS.Diamond ->
   f px = (-1) ^ Nx * f p /\ f py = (-1) ^ Ny * f p /\ f pz = (-1) ^ Nz * f p).
Proof.
  intros f px py pz.
  assert (Hnd : s <> TPMS.Diamond -> f px = f p /\ f py = f p /\ f pz = f p).
  { intros Hs. subst f px py pz.
    destruct s; [|contradiction|]; unfold TPMS.implicit_function, TPMS.setup;
      cbn [TPMS.surf TPMS.Lx TPMS.Ly TPMS.Lz x y z];
      rewrite !(@wave_shift_double Nx (x box_length) (x p) Hx), !(@wave_shift_double Ny (y box_length) (y p) Hy),
        !(@wave_shift_double Nz (z box_length) (z p) Hz);
      rewrite ?sin_period, ?cos_period; repeat split; reflexivity. }
  assert (Hd : s = TPMS.Diamond ->
               f px = (-1) ^ Nx * f p /\ f py = (-1) ^ Ny * f p /\ f pz = (-1) ^ Nz * f p).
  { intros ->. subst f px py pz. unfold TPMS.implicit_function, TPMS.setup.
    cbn [TPMS.surf TPMS.Lx TPMS.Ly TPMS.Lz x y z].
    rewrite !(@wave_shift Nx (x box_length) (x p) Hx), !(@wave_shift Ny (y box_length) (y p) Hy),
      !(@wave_shift Nz (z box_length) (z p) Hz).
    rewrite !cos_shift, !sin_shift. repeat split; ring. }
  assert (Hs : s = TPMS.Diamond \/ s <> TPMS.Diamond)
    by (destruct s; [right|left|right]; congruence).
  split; [|split; [|split; [|split; [exact Hnd|exact Hd]]]].
  - destruct Hs as [Hs|Hs].
    + apply (@scaled_zero_iff ((-1) ^ Nx)); [apply pow_minus_one_nonzero|apply Hd; exact Hs].
    + rewrite (proj1 (Hnd Hs)). tauto.
  - destruct Hs as [Hs|Hs].
    + apply (@scaled_zero_iff ((-1) ^ Ny)); [apply pow_minus_one_nonzero|apply Hd; exact Hs].
    + rewrite (proj1 (proj2 (Hnd Hs))). tauto.
  - destruct Hs as [Hs|Hs].
    + apply (@scaled_zero_iff ((-1) ^ Nz)); [apply pow_minus_one_nonzero|apply Hd; exact Hs].
    + rewrite (proj2 (proj2 (Hnd Hs))). tauto.
Qed.

Lemma TPMS_periodic_in_box_witness :
  let f := TPMS.implicit_function
             (TPMS.setup TPMS.Primitive 1 1 1 (make_scalar3 1 1 1)) in
  f (make_scalar3 (1 / 4 + 1) (1 / 4) (1 / 4)) = f (make_scalar3 (1 / 4) (1 / 4) (1 / 4)).
Proof.
  pose proof (@TPMS_periodic_in_box TPMS.Primitive 1%nat 1%nat 1%nat (make_scalar3 1 1 1)
                (make_scalar3 (1 / 4) (1 / 4) (1 / 4))) as H.
  cbv zeta in *. cbn [x y z] in H.
  destruct H as (_ & _ & _ & H & _); try lra.
  destruct H as [H _]; [discriminate|exact H].
Defined.

(* ===================================================================== *)
(** * The launch of the Brownian step-one kernel *)
(* ===================================================================== *)

Section Launch.

Local Open Scope nat_scope.

Lemma map_add_seq (k len start : nat) :
  map (fun i => k + i) (seq start len) = seq (k + start) len.
Proof.
  revert start. induction len as [|len IH]; intros start; [reflexivity|].
  cbn [seq map]. rewrite IH. f_equal. f_equal. lia.
Qed.

Lemma block_indices (B G : nat) :
  flat_map (fun b => map (fun i => b * B + i) (seq 0 B)) (seq 0 G) = seq 0 (G * B).
Proof.
  induction G as [|G IH]; [reflexivity|].
  rewrite seq_S, flat_map_app, IH. cbn [flat_map Nat.add]. rewrite app_nil_r.
  replace (S G * B) with (G * B + B) by lia. rewrite seq_app. f_equal.
  rewrite map_add_seq. f_equal. lia.
Qed.

Lemma map_flat_map {A B C : Type} (g : B -> C) (f : A -> list B) (l : list A) :
  map g (flat_map f l) = flat_map (fun a => map g (f a)) l.
Proof.
  induction l as [|a l IH]; [reflexivity|].
  cbn [flat_map]. rewrite map_app, IH. reflexivity.
Qed.

Lemma map_filter_comp {A B : Type} (g : A -> B) (p : B -> bool) (l : list A) :
  map g (filter (fun a => p (g a)) l) = filter p (map g l).
Proof.
  induction l as [|a l IH]; [reflexivity|].
  cbn [filter map]. destruct (p (g a)); cbn [map]; rewrite IH; reflexivity.
Qed.

Lemma filter_below_none (n len start : nat) :
  n <= start -> filter (fun k => k <? n) (seq start len) = [].
Proof.
  revert start. induction len as [|len IH]; intros start H; [reflexivity|].
  cbn [seq filter]. destruct (start <? n) eqn:E.
  - apply Nat.ltb_lt in E. lia.
  - apply IH. lia.
Qed.

Lemma filter_below_seq (n len start : nat) :
  start <= n <= start + len ->
  filter (fun k => k <? n) (seq start len) = seq start (n - start).
Proof.
  revert start. induction len as [|len IH]; intros start H.
  - replace (n - start) with 0 by lia. reflexivity.
  - cbn [seq filter]. destruct (start <? n) eqn:E.
    + apply Nat.ltb_lt in E. rewrite IH by lia.
      replace (n - start) with (S (n - S start)) by lia. reflexivity.
    + apply Nat.ltb_ge in E. replace (n - start) with 0 by lia.
      apply filter_below_none. lia.
Qed.

Lemma launch_local_indices (nwork : nat) :
  map RATTLEBDGPU.local_idx (RATTLEBDGPU.launch_threads nwork)
  = seq 0 ((nwork / RATTLEBDGPU.run_block_size + 1) * RATTLEBDGPU.run_block_size).
Proof.
  unfold RATTLEBDGPU.launch_threads. rewrite map_flat_map.
  rewrite <- block_indices. apply flat_map_ext. intros b.
  rewrite map_map. reflexivity.
Qed.

End Launch.

(** X15.  In a launch of the Brownian step-one kernel with
    [nwork / 256 + 1] blocks of 256 threads, the threads that pass
    [local_idx < nwork] work, in launch order, on the group indices
    [offset, offset + 1, ..., offset + nwork - 1]: every work item of the
    range is handled by exactly one thread. *)
Theorem gpu_launch_covers_work (nwork offset : nat) :
  map (fun th => RATTLEBDGPU.group_idx th offset) (RATTLEBDGPU.working_threads nwork)
  = seq offset nwork.
Proof.
  unfold RATTLEBDGPU.working_threads, RATTLEBDGPU.group_idx.
  rewrite <- (map_map RATTLEBDGPU.local_idx (fun k => (k + offset)%nat)).
  rewrite (map_filter_comp RATTLEBDGPU.local_idx (fun k => (k <? nwork)%nat)).
  rewrite launch_local_indices.
  assert (Hlt : (nwork < (nwork / RATTLEBDGPU.run_block_size + 1) * RATTLEBDGPU.run_block_size)%nat).
  { assert (Hb : RATTLEBDGPU.run_block_size <> 0%nat) by (unfold RATTLEBDGPU.run_block_size; lia).
    pose proof (Nat.mul_succ_div_gt nwork _ Hb) as H. lia. }
  rewrite filter_below_seq by lia. rewrite Nat.sub_0_r.
  rewrite (map_ext _ (fun i => (offset + i)%nat)) by (intros; lia).
  rewrite map_add_seq. f_equal. lia.
Qed.

(* ===================================================================== *)
(** * The Langevin energy reservoir in the log *)
(* ===================================================================== *)

Lemma decimal_half : 0.5 = 1 / 2.
Proof. lra. Qed.

(** X16.  The Langevin method sets the flag of [getLogValue] exactly for the
    quantities that [getProvidedLogQuantities] lists, and returns 0 with the
    flag untouched for every other; with the tally on, the value logged
    after [integrateStepTwo] is the reservoir energy before the step minus
    half of the energy transferred in the step times the time step; with
    the tally off the step leaves the reservoir alone. *)
Theorem langevin_log_reservoir
  (UniformDistribution : Scalar -> Scalar -> RandomGenerator -> Scalar * RandomGenerator)
  (NormalDistribution : Scalar -> RandomGenerator -> Scalar * RandomGenerator)
  (scalar_as_int : Scalar -> nat) (EPSILON : Scalar)
  (body_angular_velocity : Scalar4 -> Scalar4 -> Scalar3)
  (rotate : Scalar4 -> Scalar3 -> Scalar3)
  (angular_step_two : Scalar -> ParticleData -> nat -> ParticleData)
  (allreduce_sum : Scalar -> Scalar) (have_comm : bool)
  (m_log_name : string) (m : RATTLELangevin.t) (quantity : string) (timestep : Z)
  (pd : ParticleData) (flag : bool) :
  let m' :=
    fst (RATTLELangevin.integrateStepTwo UniformDistribution NormalDistribution scalar_as_int
           EPSILON body_angular_velocity rotate angular_step_two allreduce_sum have_comm
           m timestep pd) in
  let transfer :=
    snd (fold_left
           (RATTLELangevin.stepTwo_particle UniformDistribution NormalDistribution
              scalar_as_int EPSILON body_angular_velocity rotate m timestep)
           (members (RATTLELangevin.m_group m)) (pd, 0)) in
  let total := if have_comm then allreduce_sum transfer else transfer in
  (In quantity (RATTLELangevin.getProvidedLogQuantities m_log_name m) <->
   snd (RATTLELangevin.getLogValue m_log_name m quantity timestep false) = true) /\
  (~ In quantity (RATTLELangevin.getProvidedLogQuantities m_log_name m) ->
   RATTLELangevin.getLogValue m_log_name m quantity timestep flag = (0, flag)) /\
  (RATTLELangevin.m_tally m = true ->
   RATTLELangevin.getLogValue m_log_name m' m_log_name timestep flag
   = (RATTLELangevin.m_reservoir_energy m - 0.5 * total * RATTLELangevin.m_deltaT m, true)) /\
  (RATTLELangevin.m_tally m = false -> m' = m).
Proof.
  intros m' transfer total.
  split; [|split; [|split]].
  - unfold RATTLELangevin.getProvidedLogQuantities, RATTLELangevin.getLogValue.
    destruct (RATTLELangevin.m_tally m); cbn [andb].
    + destruct (String.eqb_spec quantity m_log_name) as [->|Hne]; cbn [snd In].
      * split; auto.
      * split; [intros [H|[]]; congruence|discriminate].
    + cbn [snd In]. split; [tauto|discriminate].
  - unfold RATTLELangevin.getProvidedLogQuantities, RATTLELangevin.getLogValue.
    destruct (RATTLELangevin.m_tally m); cbn [andb]; [|reflexivity].
    intros Hn. destruct (String.eqb_spec quantity m_log_name) as [->|Hne]; [|reflexivity].
    exfalso. apply Hn. now left.
  - intros Ht. subst m' total transfer. unfold RATTLELangevin.integrateStepTwo.
    destruct (fold_left _ _ (pd, 0)) as [pd0 e]. rewrite Ht. cbn [fst snd].
    unfold RATTLELangevin.getLogValue.
    cbn [RATTLELangevin.m_tally RATTLELangevin.set_reservoir
         RATTLELangevin.m_reservoir_energy RATTLELangevin.m_extra_energy_overdeltaT
         RATTLELangevin.m_deltaT].
    rewrite Ht, String.eqb_refl. cbn [andb]. f_equal. rewrite decimal_half. destruct have_comm; field.
  - intros Ht. subst m'. unfold RATTLELangevin.integrateStepTwo.
    destruct (fold_left _ _ (pd, 0)) as [pd0 e]. rewrite Ht. reflexivity.
Qed.

(* ===================================================================== *)
(** * Temperatures and degrees of freedom *)
(* ===================================================================== *)

(** X17.  When the rotational kinetic energy was computed and the group has
    rotational degrees of freedom, the temperature of [ComputeThermo]
    times the number of degrees of freedom is the sum of the translational
    and the rotational temperature each times its degrees of freedom, and
    is twice the kinetic energy, which is the sum of its two parts. *)
Theorem thermo_temperature_weighted_mean (c : ComputeThermo.t)
  (Hflag : ComputeThermo.rotational_kinetic_energy_computed c = true)
  (Ht : ComputeThermo.group_getTranslationalDOF c <> 0)
  (Hr : ComputeThermo.group_getRotationalDOF c > 0)
  (Hn : ComputeThermo.getNDOF c <> 0) :
  ComputeThermo.getTemperature c * ComputeThermo.getNDOF c
  = ComputeThermo.getTranslationalTemperature c * ComputeThermo.group_getTranslationalDOF c
    + ComputeThermo.getRotationalTemperature c * ComputeThermo.group_getRotationalDOF c /\
  ComputeThermo.getTemperature c * ComputeThermo.getNDOF c
  = 2 * ComputeThermo.getKineticEnergy c /\
  ComputeThermo.getKineticEnergy c
  = ComputeThermo.getTranslationalKineticEnergy c + ComputeThermo.getRotationalKineticEnergy c.
Proof.
  unfold ComputeThermo.getTemperature, ComputeThermo.getTranslationalTemperature,
    ComputeThermo.getRotationalTemperature, ComputeThermo.getKineticEnergy,
    ComputeThermo.getTranslationalKineticEnergy, ComputeThermo.getRotationalKineticEnergy,
    ComputeThermo.getNDOF in *.
  rewrite Hflag. rewrite (proj2 (Rgtb_true _ _) Hr). cbn [andb].
  assert (Hr' : ComputeThermo.group_getRotationalDOF c <> 0) by lra.
  repeat split; try reflexivity; field; auto.
Qed.

Lemma thermo_temperature_weighted_mean_witness :
  ComputeThermo.getTemperature cx_thermo * ComputeThermo.getNDOF cx_thermo
  = 2 * ComputeThermo.getKineticEnergy cx_thermo.
Proof.
  refine (proj1 (proj2 (@thermo_temperature_weighted_mean cx_thermo _ _ _ _))).
  - reflexivity.
  - cbn. lra.
  - cbn. lra.
  - unfold ComputeThermo.getNDOF. cbn. lra.
Defined.
